(** * mpenc_js: authenticated signature key exchange and causal transcript

    A shallow embedding of [src/ske.js] (the ASKE member state machine and
    the session-ID deriver) and of [src/mpenc/impl/transcript.js]
    ([BaseTranscript] and [DefaultMessageLog]), with the properties the
    specification states about them.

    JavaScript objects are mutated in place and an exception leaves every
    write made before it visible, so methods are terms of a small
    state-and-exception monad: a computation takes the object's state and
    returns the state it leaves behind together with its outcome. *)

From stdpp Require Import gmap strings list sorting fin_maps.
From Stdlib Require Import ZArith Ascii.


(** ** JavaScript prelude *)

Module JS.

(** The exceptions the embedded code can raise. Message texts keep the
    constant part of the JavaScript message. *)
Inductive exn : Type :=
| Error (msg : string)
| AssertionError (msg : string)
| ReferenceError (msg : string)
| TypeError.

(** [Diverge] is the answer of a fuelled loop that ran out of fuel. *)
Inductive outcome (A : Type) : Type :=
| Ok (a : A)
| Throw (e : exn)
| Diverge.
Arguments Ok {A} a.
Arguments Throw {A} e.
Arguments Diverge {A}.

Definition is_throw {A} (o : outcome A) : Prop :=
  match o with Throw _ => True | _ => False end.

Definition is_ok {A} (o : outcome A) : Prop :=
  match o with Ok _ => True | _ => False end.

(** Computations on a mutable object of state [S]. *)
Definition M (S A : Type) : Type := S → S * outcome A.

Definition ret {S A} (a : A) : M S A := λ s, (s, Ok a).

Definition bind {S A B} (c : M S A) (k : A → M S B) : M S B :=
  λ s, match c s with
       | (s', Ok a) => k a s'
       | (s', Throw e) => (s', Throw e)
       | (s', Diverge) => (s', Diverge)
       end.

Definition throw {S A} (e : exn) : M S A := λ s, (s, Throw e).
Definition gets {S A} (f : S → A) : M S A := λ s, (s, Ok (f s)).
Definition modify {S} (f : S → S) : M S unit := λ s, (f s, Ok tt).

(** [try { c } catch (e) { h; throw e }] *)
Definition try_rethrow {S A} (c : M S A) (h : S → S) : M S A :=
  λ s, match c s with
       | (s', Throw e) => (h s', Throw e)
       | r => r
       end.

(** A read-only computation run inside a mutating one. *)
Definition lift {S A} (r : S → outcome A) : M S A := λ s, (s, r s).

(** [mpenc.assert.assert(cond, message)] *)
Definition _assert {S} (cond : bool) (msg : string) : M S unit :=
  if cond then ret tt else throw (AssertionError msg).

(** [o.f] or [o.f(...)] where [o] may be [null] or [undefined]. *)
Definition deref {S A} (o : option A) : M S A :=
  match o with Some a => ret a | None => throw TypeError end.

(** String conversion of a value that may be [undefined] (an array or
    object read that found nothing) or [null] (an unset field). *)
Definition str_undef (o : option string) : string := default "undefined" o.
Definition str_null (o : option string) : string := default "null" o.

(** Truthiness of a string, and of a string-or-null. *)
Definition truthy (s : string) : bool := negb (String.eqb s "").
Definition truthy_opt (o : option string) : bool :=
  match o with Some s => truthy s | None => false end.

(** [l.indexOf(x)]: [None] stands for [-1]. *)
Definition indexOf `{EqDecision A} (x : A) (l : list A) : option nat :=
  fst <$> list_find (λ y, y = x) l.

(** [a[i] = v] on an array. A negative index ([None]) adds a property
    that is not an element: no slot changes. An index past the end
    extends the array, the slots in between being holes. Holes and
    [undefined] are both [None]. *)
Definition array_set {A} (i : option nat) (v : A) (a : list (option A))
  : list (option A) :=
  match i with
  | None => a
  | Some i =>
      if decide (i < length a) then <[i := Some v]> a
      else a ++ replicate (i - length a) None ++ [Some v]
  end.

(** [String.fromCharCode(n)] keeps the code unit [n mod 65536]. A [string]
    is a byte string, with code units below 256, and [fromCharCode] is the
    one-character string of such a unit: [_pkcs1v15_encode] asks for 2, 0
    and [1 + Math.floor(255 * Math.random())], at most 255. A unit from 256
    on is not a byte and has no [string]; the one place that can make one,
    the length header of [_binstring2mpi], works on code units (see
    [charCode] and [charCodes]). *)
Definition fromCharCode (n : Z) : string :=
  String (ascii_of_N (Z.to_N (n mod 256))) EmptyString.

(** The code unit of [String.fromCharCode(n)], and the code units of a byte
    string. *)
Definition charCode (n : Z) : Z := n mod 65536.

Fixpoint charCodes (s : string) : list Z :=
  match s with
  | EmptyString => []
  | String c s' => Z.of_N (N_of_ascii c) :: charCodes s'
  end.

(** [ToInt32], which the operands of [>>], [<<] and [&] go through. *)
Definition to_int32 (n : Z) : Z := (n + 2 ^ 31) mod 2 ^ 32 - 2 ^ 31.

(** [s.indexOf(String.fromCharCode(0))] *)
Fixpoint index_of_zero (s : string) : option nat :=
  match s with
  | EmptyString => None
  | String c s' =>
      if Ascii.eqb c zero then Some 0 else S <$> index_of_zero s'
  end.

(** [s.slice(n)] for [0 <= n] *)
Fixpoint slice_from (n : nat) (s : string) : string :=
  match n, s with
  | 0, _ => s
  | S n', String _ s' => slice_from n' s'
  | S _, EmptyString => EmptyString
  end.

Definition concat_strings (l : list string) : string :=
  foldr String.append "" l.

(** A plain object [{}] used as a map from strings to records. The key
    ['__proto__'] is not a property but the accessor of the prototype:
    [o['__proto__'] = record] makes the record the prototype of [o] and
    adds no property. [object_own] holds the own properties, and
    [object_proto] the record that became the prototype, if any. *)
Record object (V : Type) : Type := {
  object_own : gmap string V;
  object_proto : option V
}.
Arguments object_own {V} _.
Arguments object_proto {V} _.

Global Instance object_empty {V} : Empty (object V) :=
  {| object_own := ∅; object_proto := None |}.

(** [o[key] = record] *)
Definition object_set {V} (key : string) (v : V) (o : object V) : object V :=
  if decide (key = "__proto__") then
    {| object_own := object_own o; object_proto := Some v |}
  else {| object_own := <[key := v]> (object_own o); object_proto := object_proto o |}.

(** The record an assignment has stored under [key]: an own property, or
    the prototype for ['__proto__']. *)
Global Instance object_lookup {V} : Lookup string V (object V) :=
  λ key o, if decide (key = "__proto__") then object_proto o else object_own o !! key.

End JS.

Import JS.

Global Instance M_ret {S} : MRet (M S) := λ A, @ret S A.
Global Instance M_bind {S} : MBind (M S) := λ A B k c, @bind S A B c k.

(** ** The authenticated signature key exchange, [src/ske.js] *)

Module Ske.

(** Multi-precision integers of the RSA library: arrays of digits. *)
Definition bigint : Type := list Z.

(** RSA keys are arrays of fixed shape: [pubkey = [n, e, bits]] and
    [privkey] of four integers, read as [privkey[0]] .. [privkey[3]]. *)
Record PubKey : Type := { pub0 : bigint; pub1 : bigint; pub2 : Z }.
Record PrivKey : Type :=
  { priv0 : bigint; priv1 : bigint; priv2 : bigint; priv3 : bigint }.

(** [mpenc.ske.SignatureKeyExchangeMessage] *)
Module Msg.
Record t : Type := mk {
  source : string;
  dest : string;
  flow : string;
  members : list string;
  nonces : list string;
  pubKeys : list string;
  sessionSignature : option string
}.

(** [new SignatureKeyExchangeMessage(source, dest, flow)]: absent
    arguments default to [''], [[]] and [null]. *)
Definition new (source dest flow : string) : t := mk source dest flow [] [] [] None.

Definition set_source (v : string) (m : t) : t :=
  mk v (dest m) (flow m) (members m) (nonces m) (pubKeys m) (sessionSignature m).
Definition set_dest (v : string) (m : t) : t :=
  mk (source m) v (flow m) (members m) (nonces m) (pubKeys m) (sessionSignature m).
Definition set_flow (v : string) (m : t) : t :=
  mk (source m) (dest m) v (members m) (nonces m) (pubKeys m) (sessionSignature m).
Definition set_members (v : list string) (m : t) : t :=
  mk (source m) (dest m) (flow m) v (nonces m) (pubKeys m) (sessionSignature m).
Definition set_nonces (v : list string) (m : t) : t :=
  mk (source m) (dest m) (flow m) (members m) v (pubKeys m) (sessionSignature m).
Definition set_pubKeys (v : list string) (m : t) : t :=
  mk (source m) (dest m) (flow m) (members m) (nonces m) v (sessionSignature m).
Definition set_sessionSignature (v : option string) (m : t) : t :=
  mk (source m) (dest m) (flow m) (members m) (nonces m) (pubKeys m) v.
End Msg.

(** [mpenc.ske.SignatureKeyExchangeMember]. Fields that start as [null]
    are options; [authenticatedMembers] is an array that may get holes. *)
Module Member.
Record t : Type := mk {
  id : string;
  members : list string;
  authenticatedMembers : option (list (option bool));
  ephemeralPrivKey : option string;
  ephemeralPubKey : option string;
  nonce : option string;
  nonces : option (list string);
  ephemeralPubKeys : option (list string);
  sessionId : option string;
  staticPrivKey : option PrivKey;
  staticPubKeyDir : option (gmap string PubKey);
  oldEphemeralKeys : object (option string * bool)
}.

(** [new SignatureKeyExchangeMember(id)] *)
Definition new (id : string) : t :=
  mk id [] None None None None None None None None None ∅.

Definition set_members (v : list string) (m : t) : t :=
  mk (id m) v (authenticatedMembers m) (ephemeralPrivKey m) (ephemeralPubKey m)
     (nonce m) (nonces m) (ephemeralPubKeys m) (sessionId m) (staticPrivKey m)
     (staticPubKeyDir m) (oldEphemeralKeys m).
Definition set_authenticatedMembers (v : option (list (option bool))) (m : t) : t :=
  mk (id m) (members m) v (ephemeralPrivKey m) (ephemeralPubKey m)
     (nonce m) (nonces m) (ephemeralPubKeys m) (sessionId m) (staticPrivKey m)
     (staticPubKeyDir m) (oldEphemeralKeys m).
Definition set_ephemeralPrivKey (v : option string) (m : t) : t :=
  mk (id m) (members m) (authenticatedMembers m) v (ephemeralPubKey m)
     (nonce m) (nonces m) (ephemeralPubKeys m) (sessionId m) (staticPrivKey m)
     (staticPubKeyDir m) (oldEphemeralKeys m).
Definition set_ephemeralPubKey (v : option string) (m : t) : t :=
  mk (id m) (members m) (authenticatedMembers m) (ephemeralPrivKey m) v
     (nonce m) (nonces m) (ephemeralPubKeys m) (sessionId m) (staticPrivKey m)
     (staticPubKeyDir m) (oldEphemeralKeys m).
Definition set_nonce (v : option string) (m : t) : t :=
  mk (id m) (members m) (authenticatedMembers m) (ephemeralPrivKey m)
     (ephemeralPubKey m) v (nonces m) (ephemeralPubKeys m) (sessionId m)
     (staticPrivKey m) (staticPubKeyDir m) (oldEphemeralKeys m).
Definition set_nonces (v : option (list string)) (m : t) : t :=
  mk (id m) (members m) (authenticatedMembers m) (ephemeralPrivKey m)
     (ephemeralPubKey m) (nonce m) v (ephemeralPubKeys m) (sessionId m)
     (staticPrivKey m) (staticPubKeyDir m) (oldEphemeralKeys m).
Definition set_ephemeralPubKeys (v : option (list string)) (m : t) : t :=
  mk (id m) (members m) (authenticatedMembers m) (ephemeralPrivKey m)
     (ephemeralPubKey m) (nonce m) (nonces m) v (sessionId m)
     (staticPrivKey m) (staticPubKeyDir m) (oldEphemeralKeys m).
Definition set_sessionId (v : option string) (m : t) : t :=
  mk (id m) (members m) (authenticatedMembers m) (ephemeralPrivKey m)
     (ephemeralPubKey m) (nonce m) (nonces m) (ephemeralPubKeys m) v
     (staticPrivKey m) (staticPubKeyDir m) (oldEphemeralKeys m).
Definition set_staticPrivKey (v : option PrivKey) (m : t) : t :=
  mk (id m) (members m) (authenticatedMembers m) (ephemeralPrivKey m)
     (ephemeralPubKey m) (nonce m) (nonces m) (ephemeralPubKeys m) (sessionId m)
     v (staticPubKeyDir m) (oldEphemeralKeys m).
Definition set_staticPubKeyDir (v : option (gmap string PubKey)) (m : t) : t :=
  mk (id m) (members m) (authenticatedMembers m) (ephemeralPrivKey m)
     (ephemeralPubKey m) (nonce m) (nonces m) (ephemeralPubKeys m) (sessionId m)
     (staticPrivKey m) v (oldEphemeralKeys m).
End Member.

(** [djbec.bytes2string]: one character per byte. *)
Definition bytes2string (bs : list N) : string :=
  foldr (λ b s, String (ascii_of_N b) s) "" bs.

(** Modelled from the spec: [mpenc.utils._noDuplicatesInList], which is not
    part of the sources at hand, "members contain no duplicates". *)
Definition _noDuplicatesInList (l : list string) : bool := bool_decide (NoDup l).

(** Modelled from the spec: [mpenc.utils._arrayMaker(size, value)], not part
    of the sources at hand, "initialise [authenticated[] = [false, ...]]". *)
Definition _arrayMaker {A} (size : nat) (value : A) : list (option A) :=
  replicate size (Some value).

(** The capabilities the key exchange calls and does not implement. [G] is
    the state of the random source. *)
Class Crypto (G : Type) : Type := {
  sha256 : string → string;                 (* mpenc.utils.sha256 *)
  _newKey08 : Z → G → list N * G;           (* mpenc.utils._newKey08(bits) *)
  publickey : string → list N;              (* djbec.publickey *)
  random_floor : Z → G → Z * G;             (* Math.floor(n * Math.random()) *)
  mpi2b : list Z → bigint;                  (* mpi2b, on the code units of the string *)
  b2mpi : bigint → string;
  RSAencrypt : bigint → bigint → bigint → bigint;
  RSAdecrypt : bigint → bigint → bigint → bigint → bigint → bigint
}.

(** A member object together with the random source it draws from. *)
Record Env (G : Type) : Type := { this : Member.t; rng : G }.
Arguments this {G} _.
Arguments rng {G} _.

Section Crypto.

Context {G : Type} {crypto : Crypto G}.

Local Abbreviation Env := (Env G).


Definition this_get {A} (f : Member.t → A) : M Env A := gets (λ e, f (this e)).
Definition this_set (f : Member.t → Member.t) : M Env unit :=
  modify (λ e, {| this := f (this e); rng := rng e |}).
Definition draw {A} (f : G → A * G) : M Env A :=
  λ e, let '(a, g) := f (rng e) in ({| this := this e; rng := g |}, Ok a).

(** [_assert(pos >= 0, message)] on the result of an [indexOf]. *)
Definition assert_found (pos : option nat) (msg : string) : M Env nat :=
  match pos with
  | Some p => ret p
  | None => throw (AssertionError msg)
  end.

(** *** [mpenc.ske._computeSid] *)

(** [mapping[pid] = nonce] on the plain object [mapping = {}], given by its
    own properties. The key ['__proto__'] names the prototype of the
    object: assigning a string or [undefined] to it does nothing. *)
Definition mapping_set (pid : string) (nonce : option string)
    (mapping : gmap string (option string)) : gmap string (option string) :=
  if decide (pid = "__proto__") then mapping else <[pid := nonce]> mapping.

(** [mapping[pid]] as [nonceItems += mapping[pid]] appends it. Under
    ['__proto__'] the read finds the prototype, an object, whose string is
    ['[object Object]']. Any other member the second loop reads was written
    by the first, so the read finds an own property. *)
Definition mapping_str (mapping : gmap string (option string)) (pid : string)
    : string :=
  if decide (pid = "__proto__") then "[object Object]"
  else str_undef (mapping !! pid ≫= id).

(** The first loop: [mapping[members[i]] = nonces[i]], from index [i] on.
    A member without a nonce is mapped to [undefined]. *)
Fixpoint sid_mapping (members nonces : list string) (i : nat)
    (mapping : gmap string (option string)) : gmap string (option string) :=
  match members with
  | [] => mapping
  | pid :: rest => sid_mapping rest nonces (S i) (mapping_set pid (nonces !! i) mapping)
  end.

(** The second loop, over the sorted members, on [(pidItems, nonceItems)]. *)
Fixpoint sid_items (mapping : gmap string (option string))
    (sortedMembers : list string) (items : string * string) : string * string :=
  match sortedMembers with
  | [] => items
  | pid :: rest =>
      sid_items mapping rest
        (if truthy pid
         then (items.1 +:+ pid, items.2 +:+ mapping_str mapping pid)
         else items)
  end.

Definition _computeSid (members nonces : list string) : string :=
  let mapping := sid_mapping members nonces 0 ∅ in
  let sortedMembers := merge_sort String.le members in
  let '(pidItems, nonceItems) := sid_items mapping sortedMembers ("", "") in
  sha256 (pidItems +:+ nonceItems).

(** The session id as the specification words it: the (member, nonce)
    pairs with a non-empty member id, sorted by member id; the hash of the
    ids followed by the nonces in that same order. Compared with
    [_computeSid] below. *)
Definition pid_le (x y : string * string) : Prop := String.le x.1 y.1.

Global Instance pid_le_dec : RelDecision pid_le.
Proof. intros x y. unfold pid_le. apply _. Defined.

Definition sorted_pairs (members nonces : list string) : list (string * string) :=
  merge_sort pid_le (filter (λ p, p.1 ≠ "") (zip members nonces)).

Definition sid_spec (members nonces : list string) : string :=
  let pairs := sorted_pairs members nonces in
  sha256 (concat_strings (pairs.*1) +:+ concat_strings (pairs.*2)).

(** What the code hashes for a pair: the nonce, but ['[object Object]'] for
    the member ['__proto__']. *)
Definition hashed_nonce (p : string * string) : string :=
  if decide (p.1 = "__proto__") then "[object Object]" else p.2.

(** *** RSA helpers *)

(** The string handed to [mpi2b] is given by its code units: the first of
    the two header characters is not a byte when the block has 8192
    characters or more. *)
Definition _binstring2mpi (binstring : string) : bigint :=
  let contentLength := (Z.of_nat (String.length binstring) * 8)%Z in
  mpi2b (charCode (Z.shiftr (to_int32 contentLength) 8)
         :: charCode (Z.land (to_int32 contentLength) 255)
         :: charCodes binstring).

Definition _mpi2binstring (mpi : bigint) : string := slice_from 2 (b2mpi mpi).

(** The padding loop of [_pkcs1v15_encode]. *)
Fixpoint random_padding (n : nat) : M Env string :=
  match n with
  | 0 => ret ""
  | S n' =>
      r ← draw (random_floor 255);
      rest ← random_padding n';
      ret (fromCharCode (1 + r) +:+ rest)
  end.

Definition _pkcs1v15_encode (message : string) (length : Z) : M Env string :=
  _assert (bool_decide (Z.of_nat (String.length message) < length - 10)%Z)
          "message too long for encoding scheme" ;;
  padding ← random_padding (Z.to_nat (length - Z.of_nat (String.length message) - 2));
  ret (fromCharCode 2 +:+ padding +:+ fromCharCode 0 +:+ message).

Definition _pkcs1v15_decode (message : string) : M Env string :=
  _assert (bool_decide (10 < String.length message)) "message decoding error" ;;
  ret (match index_of_zero message with
       | Some i => slice_from (i + 1) message
       | None => message
       end).

(** [(privkey[2].length * 28 - 1) >> 5 << 2] *)
Definition sign_keyLength (privkey : PrivKey) : Z :=
  Z.shiftl (Z.shiftr (to_int32 (Z.of_nat (length (priv2 privkey)) * 28 - 1)) 5) 2.

Definition _smallrsasign (cleartext : string) (privkey : option PrivKey)
    : M Env string :=
  privkey ← deref privkey;
  data ← _pkcs1v15_encode cleartext (sign_keyLength privkey);
  let cipher := RSAdecrypt (_binstring2mpi data) (priv2 privkey) (priv0 privkey)
                           (priv1 privkey) (priv3 privkey) in
  ret (_mpi2binstring cipher).

Definition _smallrsaverify (ciphertext : option string) (pubkey : PubKey)
    : M Env string :=
  ciphertext ← deref ciphertext;
  let data := _binstring2mpi ciphertext in
  let cleartext := _mpi2binstring (RSAencrypt data (pub1 pubkey) (pub0 pubkey)) in
  _pkcs1v15_decode cleartext.

(** *** Session acknowledgement signatures *)

Definition _computeSessionSig : M Env string :=
  sessionId ← this_get Member.sessionId;
  _assert (truthy_opt sessionId) "Session ID not available." ;;
  ephemeralPubKey ← this_get Member.ephemeralPubKey;
  _assert (truthy_opt ephemeralPubKey) "No ephemeral key pair available." ;;
  id ← this_get Member.id;
  nonce ← this_get Member.nonce;
  let sessionAck := id +:+ str_null ephemeralPubKey +:+ str_null nonce
                       +:+ str_null sessionId in
  let hashValue := sha256 sessionAck in
  staticPrivKey ← this_get Member.staticPrivKey;
  _smallrsasign hashValue staticPrivKey.

Definition _verifySessionSig (memberId : string) (signature : option string)
    : M Env bool :=
  sessionId ← this_get Member.sessionId;
  _assert (truthy_opt sessionId) "Session ID not available." ;;
  members ← this_get Member.members;
  memberPos ← assert_found (indexOf memberId members)
                           "Member not in participants list.";
  ephemeralPubKeys ← this_get Member.ephemeralPubKeys ≫= deref;
  _assert (truthy_opt (ephemeralPubKeys !! memberPos))
          "Member's ephemeral pub key missing." ;;
  staticPubKeyDir ← this_get Member.staticPubKeyDir ≫= deref;
  match staticPubKeyDir !! memberId with
  | None => throw (AssertionError "Member's static pub key missing.")
  | Some pubkey =>
      decrypted ← _smallrsaverify signature pubkey;
      nonces ← this_get Member.nonces ≫= deref;
      let sessionAck := memberId +:+ str_undef (ephemeralPubKeys !! memberPos)
                           +:+ str_undef (nonces !! memberPos) +:+ str_null sessionId in
      let hashValue := sha256 sessionAck in
      ret (bool_decide (decrypted = hashValue))
  end.

(** *** [upflow], [downflow], [commit], [isSessionAcknowledged] *)

(** [this.nonces.push(v)] and [this.ephemeralPubKeys.push(v)] *)
Definition push_nonce (v : string) : M Env unit :=
  nonces ← this_get Member.nonces ≫= deref;
  this_set (Member.set_nonces (Some (nonces ++ [v]))).
Definition push_ephemeralPubKey (v : string) : M Env unit :=
  ephemeralPubKeys ← this_get Member.ephemeralPubKeys ≫= deref;
  this_set (Member.set_ephemeralPubKeys (Some (ephemeralPubKeys ++ [v]))).

(** [this.authenticatedMembers[pos] = true] *)
Definition authenticate (pos : option nat) : M Env unit :=
  authenticatedMembers ← this_get Member.authenticatedMembers ≫= deref;
  this_set (Member.set_authenticatedMembers
              (Some (array_set pos true authenticatedMembers))).

(** [bytes2string(_newKey08(bits))] *)
Definition newKey (bits : Z) : M Env string :=
  bytes ← draw (_newKey08 bits); ret (bytes2string bytes).

Definition upflow (message : Msg.t) : M Env Msg.t :=
  _assert (_noDuplicatesInList (Msg.members message))
          "Duplicates in member list detected!" ;;
  _assert (bool_decide (length (Msg.nonces message) ≤ length (Msg.members message)))
          "Too many nonces on ASKE upflow!" ;;
  _assert (bool_decide (length (Msg.pubKeys message) ≤ length (Msg.members message)))
          "Too many pub keys on ASKE upflow!" ;;
  id ← this_get Member.id;
  myPos ← assert_found (indexOf id (Msg.members message))
                       "Not member of this key exchange!";
  this_set (Member.set_members (Msg.members message)) ;;
  this_set (Member.set_nonces (Some (Msg.nonces message))) ;;
  this_set (Member.set_ephemeralPubKeys (Some (Msg.pubKeys message))) ;;
  (* Make new nonce and ephemeral signing key pair. *)
  nonce ← newKey 256;
  this_set (Member.set_nonce (Some nonce)) ;;
  push_nonce nonce ;;
  ephemeralPrivKey ← newKey 512;
  this_set (Member.set_ephemeralPrivKey (Some ephemeralPrivKey)) ;;
  let ephemeralPubKey := bytes2string (publickey ephemeralPrivKey) in
  this_set (Member.set_ephemeralPubKey (Some ephemeralPubKey)) ;;
  push_ephemeralPubKey ephemeralPubKey ;;
  members ← this_get Member.members;
  message ←
    (if bool_decide (Z.of_nat myPos = Z.of_nat (length members) - 1)%Z then
       (* I'm the last in the chain: broadcast own session authentication. *)
       nonces ← this_get Member.nonces ≫= deref;
       this_set (Member.set_sessionId (Some (_computeSid members nonces))) ;;
       this_set (Member.set_authenticatedMembers
                   (Some (_arrayMaker (length members) false))) ;;
       authenticate (Some myPos) ;;
       sessionSignature ← _computeSessionSig;
       ret (Msg.set_sessionSignature (Some sessionSignature)
              (Msg.set_flow "downflow" (Msg.set_dest "" (Msg.set_source id message))))
     else
       (* Pass a message on to the next in line. *)
       ret (Msg.set_dest (str_undef (members !! (myPos + 1)))
              (Msg.set_source id message)));
  nonces ← this_get Member.nonces ≫= deref;
  ephemeralPubKeys ← this_get Member.ephemeralPubKeys ≫= deref;
  ret (Msg.set_pubKeys ephemeralPubKeys (Msg.set_nonces nonces message)).

Definition commit (otherMembers : list string) : M Env Msg.t :=
  _assert (negb (bool_decide (otherMembers = []))) "No members to add." ;;
  this_set (Member.set_ephemeralPubKeys None) ;;
  id ← this_get Member.id;
  let startMessage := Msg.set_members (id :: otherMembers) (Msg.new id "" "upflow") in
  this_set (Member.set_nonce None) ;;
  this_set (Member.set_nonces (Some [])) ;;
  this_set (Member.set_ephemeralPubKeys (Some [])) ;;
  upflow startMessage.

Definition downflow (message : Msg.t) : M Env (option Msg.t) :=
  _assert (_noDuplicatesInList (Msg.members message))
          "Duplicates in member list detected!" ;;
  id ← this_get Member.id;
  let myPos := indexOf id (Msg.members message) in
  (* Generate session ID for received information. *)
  let sid := _computeSid (Msg.members message) (Msg.nonces message) in
  (* Is this a broadcast for a new session? *)
  sessionId ← this_get Member.sessionId;
  let existingSession := bool_decide (sessionId = Some sid) in
  (if existingSession then ret tt
   else
     this_set (Member.set_members (Msg.members message)) ;;
     this_set (Member.set_nonces (Some (Msg.nonces message))) ;;
     this_set (Member.set_ephemeralPubKeys (Some (Msg.pubKeys message))) ;;
     this_set (Member.set_sessionId (Some sid)) ;;
     (* New authentication list, and authenticate myself. *)
     this_set (Member.set_authenticatedMembers
                 (Some (_arrayMaker (length (Msg.members message)) false))) ;;
     authenticate myPos) ;;
  (* Verify the session authentication from sender. *)
  isValid ← _verifySessionSig (Msg.source message) (Msg.sessionSignature message);
  _assert isValid "Authentication of member failed" ;;
  let senderPos := indexOf (Msg.source message) (Msg.members message) in
  authenticate senderPos ;;
  if existingSession then
    (* We've acknowledged already, so no more broadcasts from us. *)
    ret None
  else
    sessionSignature ← _computeSessionSig;
    ret (Some (Msg.set_sessionSignature (Some sessionSignature)
                 (Msg.set_source id message))).

(** [every] skips the holes of an array. *)
Definition isSessionAcknowledged : M Env bool :=
  authenticatedMembers ← this_get Member.authenticatedMembers ≫= deref;
  ret (forallb (λ item, default true item) authenticatedMembers).

(** What the theorems below ask of the capabilities and of the member's
    long-term key: digests are 32 bytes, public keys are not empty, and the
    static private key is set and long enough to pad a digest
    ([_pkcs1v15_encode] wants [message.length < length - 10]). *)
Definition crypto_sane : Prop :=
  (∀ s, String.length (sha256 s) = 32) ∧ (∀ k, publickey k ≠ []).

Definition can_sign (m : Member.t) : Prop :=
  ∃ privkey, Member.staticPrivKey m = Some privkey ∧ (42 < sign_keyLength privkey)%Z.

(** The member as [downflow] leaves it after the writes of its new-session
    branch. *)
Definition adopt_session (message : Msg.t) (m : Member.t) : Member.t :=
  Member.set_authenticatedMembers
    (Some (array_set (indexOf (Member.id m) (Msg.members message)) true
             (_arrayMaker (length (Msg.members message)) false)))
    (Member.set_sessionId
       (Some (_computeSid (Msg.members message) (Msg.nonces message)))
       (Member.set_ephemeralPubKeys (Some (Msg.pubKeys message))
          (Member.set_nonces (Some (Msg.nonces message))
             (Member.set_members (Msg.members message) m)))).

(** What [upflow] draws from the random source, [_newKey08(256)] and then
    [_newKey08(512)]: the nonce, the ephemeral private key, and the source
    as it is left. *)
Definition upflow_nonce (g : G) : string := bytes2string (_newKey08 256 g).1.
Definition upflow_privKey (g : G) : string :=
  bytes2string (_newKey08 512 (_newKey08 256 g).2).1.
Definition upflow_rng (g : G) : G := (_newKey08 512 (_newKey08 256 g).2).2.

(** The member as [upflow] leaves it when it passes the message on: the
    arrays of the message, with its own nonce and ephemeral public key
    appended. *)
Definition contribute (message : Msg.t) (nonce priv : string) (m : Member.t)
    : Member.t :=
  let pub := bytes2string (publickey priv) in
  Member.set_ephemeralPubKeys (Some (Msg.pubKeys message ++ [pub]))
    (Member.set_ephemeralPubKey (Some pub)
       (Member.set_ephemeralPrivKey (Some priv)
          (Member.set_nonces (Some (Msg.nonces message ++ [nonce]))
             (Member.set_nonce (Some nonce)
                (Member.set_members (Msg.members message) m))))).

(** The member as [upflow] leaves it when it is the last of the chain: it
    has set the session id and started its authentication list. *)
Definition close_chain (message : Msg.t) (nonce priv : string) (m : Member.t)
    : Member.t :=
  Member.set_authenticatedMembers
    (Some (array_set (indexOf (Member.id m) (Msg.members message)) true
             (_arrayMaker (length (Msg.members message)) false)))
    (Member.set_sessionId
       (Some (_computeSid (Msg.members message) (Msg.nonces message ++ [nonce])))
       (contribute message nonce priv m)).

(** *** What the theorems on signatures ask of the capabilities *)

(** What [Math.floor(255 * Math.random())] can be. *)
Definition random_in_range : Prop :=
  ∀ g, (0 ≤ (random_floor 255 g).1 < 255)%Z.

(** The blocks [_pkcs1v15_encode] builds for a key length: [length]
    characters, the first of which is the byte 2. *)
Definition pkcs_block (length : Z) (data : string) : Prop :=
  Z.of_nat (String.length data) = length ∧ ∃ rest, data = fromCharCode 2 +:+ rest.

(** A key pair on which the RSA primitives, with the MPI conversions around
    them, undo each other on the blocks that are signed with the key:
    encrypting with the public key what was decrypted with the private key
    gives back the block. *)
Definition rsa_inverts (privkey : PrivKey) (pubkey : PubKey) : Prop :=
  ∀ data,
    pkcs_block (sign_keyLength privkey) data →
    _mpi2binstring
      (RSAencrypt
         (_binstring2mpi
            (_mpi2binstring
               (RSAdecrypt (_binstring2mpi data) (priv2 privkey) (priv0 privkey)
                           (priv1 privkey) (priv3 privkey))))
         (pub1 pubkey) (pub0 pubkey))
    = data.

(** *** RSA encryption of short strings *)

(** [pubkey[2] >> 3]: the key length in bytes. *)
Definition encrypt_keyLength (pubkey : PubKey) : Z :=
  Z.shiftr (to_int32 (pub2 pubkey)) 3.

Definition _smallrsaencrypt (cleartext : string) (pubkey : PubKey) : M Env string :=
  encoded ← _pkcs1v15_encode cleartext (encrypt_keyLength pubkey);
  let data := _binstring2mpi encoded in
  ret (_mpi2binstring (RSAencrypt data (pub1 pubkey) (pub0 pubkey))).

Definition _smallrsadecrypt (ciphertext : string) (privkey : PrivKey) : M Env string :=
  let cleartext := RSAdecrypt (_binstring2mpi ciphertext) (priv2 privkey)
                              (priv0 privkey) (priv1 privkey) (priv3 privkey) in
  let data := _mpi2binstring cleartext in
  _pkcs1v15_decode data.

(** The other direction of [rsa_inverts], on the blocks that are encrypted
    with the key: decrypting with the private key what was encrypted with
    the public key gives back the block. *)
Definition rsa_decrypts (privkey : PrivKey) (pubkey : PubKey) : Prop :=
  ∀ data,
    pkcs_block (encrypt_keyLength pubkey) data →
    _mpi2binstring
      (RSAdecrypt
         (_binstring2mpi
            (_mpi2binstring
               (RSAencrypt (_binstring2mpi data) (pub1 pubkey) (pub0 pubkey))))
         (priv2 privkey) (priv0 privkey) (priv1 privkey) (priv3 privkey))
    = data.

(** *** [exclude] *)

(** Modelled from the spec: [mpenc.utils._arrayIsSubSet(subset, superset)],
    which is not part of the sources at hand: the excluded members are a
    "subset of current members". *)
Definition _arrayIsSubSet (subset superset : list string) : bool :=
  bool_decide (subset ⊆ superset).

(** [a[index]] for an index that an [indexOf] returned. *)
Definition array_get {A} (index : option nat) (a : list A) : option A :=
  index ≫= λ i, a !! i.

(** [a.splice(index, 1)]; the index [-1] is that of the last element. *)
Definition splice1 {A} (index : option nat) (a : list A) : list A :=
  match index with
  | Some i => delete i a
  | None => take (length a - 1) a
  end.

Definition set_oldEphemeralKeys (v : object (option string * bool))
    (m : Member.t) : Member.t :=
  Member.mk (Member.id m) (Member.members m) (Member.authenticatedMembers m)
            (Member.ephemeralPrivKey m) (Member.ephemeralPubKey m) (Member.nonce m)
            (Member.nonces m) (Member.ephemeralPubKeys m) (Member.sessionId m)
            (Member.staticPrivKey m) (Member.staticPubKeyDir m) v.

(** [key || null] and [flag || false] *)
Definition or_null (key : option string) : option string :=
  match key with
  | Some k => if truthy k then Some k else None
  | None => None
  end.
Definition or_false (flag : option (option bool)) : bool :=
  match flag with
  | Some (Some b) => b
  | _ => false
  end.

(** The body of the loop of [exclude]. *)
Definition exclude_one (excluded : string) : M Env unit :=
  members ← this_get Member.members;
  let index := indexOf excluded members in
  ephemeralPubKeys ← this_get Member.ephemeralPubKeys ≫= deref;
  authenticatedMembers ← this_get Member.authenticatedMembers ≫= deref;
  let entry := (or_null (array_get index ephemeralPubKeys),
                or_false (array_get index authenticatedMembers)) in
  this_set (λ m, set_oldEphemeralKeys
                   (object_set excluded entry (Member.oldEphemeralKeys m)) m) ;;
  this_set (Member.set_members (splice1 index members)) ;;
  nonces ← this_get Member.nonces ≫= deref;
  this_set (Member.set_nonces (Some (splice1 index nonces))) ;;
  this_set (Member.set_ephemeralPubKeys (Some (splice1 index ephemeralPubKeys))).

(** The loop of [exclude], over the members to exclude. *)
Fixpoint exclude_each (excludeMembers : list string) : M Env unit :=
  match excludeMembers with
  | [] => ret tt
  | excluded :: rest => exclude_one excluded ;; exclude_each rest
  end.

Definition exclude (excludeMembers : list string) : M Env Msg.t :=
  _assert (negb (bool_decide (excludeMembers = []))) "No members to exclude." ;;
  members ← this_get Member.members;
  _assert (_arrayIsSubSet excludeMembers members)
          "Members list to exclude is not a sub-set of previous members!" ;;
  id ← this_get Member.id;
  _assert (bool_decide (indexOf id excludeMembers = None)) "Cannot exclude mysefl." ;;
  (* Kick 'em. *)
  exclude_each excludeMembers ;;
  (* Compute my session ID. *)
  members ← this_get Member.members;
  nonces ← this_get Member.nonces ≫= deref;
  this_set (Member.set_sessionId (Some (_computeSid members nonces))) ;;
  (* Discard old and make new group key. *)
  let myPos := indexOf id members in
  this_set (Member.set_authenticatedMembers
              (Some (_arrayMaker (length members) false))) ;;
  authenticate myPos ;;
  (* Pass broadcast message on to all members. *)
  ephemeralPubKeys ← this_get Member.ephemeralPubKeys ≫= deref;
  sessionSignature ← _computeSessionSig;
  ret (Msg.mk id "" "downflow" members nonces ephemeralPubKeys (Some sessionSignature)).

End Crypto.

(** *** A toy instance of the capabilities

    Used to run the protocol on concrete inputs. The digest keeps the first
    32 characters of its input (padded with ['#']); RSA is the identity, so
    a signature is the padded digest; the random source is a counter. *)
Module Toy.

Fixpoint take_pad (n : nat) (s : string) : string :=
  match n with
  | 0 => ""
  | S n' =>
      match s with
      | EmptyString => String "#" (take_pad n' "")
      | String c s' => String c (take_pad n' s')
      end
  end.

Fixpoint string_codes (s : string) : list Z :=
  match s with
  | EmptyString => []
  | String c s' => Z.of_N (N_of_ascii c) :: string_codes s'
  end.

Definition codes_string (l : list Z) : string :=
  foldr (λ z s, String (ascii_of_N (Z.to_N z)) s) "" l.

Global Instance crypto : Crypto nat := {|
  sha256 := take_pad 32;
  _newKey08 := λ bits g,
    (replicate (Z.to_nat (bits / 128)) (N.of_nat (97 + g mod 26)), S g);
  publickey := λ priv, 80%N :: (Z.to_N <$> string_codes priv);
  random_floor := λ n g, ((Z.of_nat g) mod n, S g)%Z;
  mpi2b := λ units, units;
  b2mpi := codes_string;
  RSAencrypt := λ data _ _, data;
  RSAdecrypt := λ data _ _ _ _, data
|}.

Definition privkey : PrivKey :=
  {| priv0 := [1%Z]; priv1 := [1%Z]; priv2 := replicate 13 1%Z; priv3 := [1%Z] |}.
Definition pubkey : PubKey := {| pub0 := [1%Z]; pub1 := [1%Z]; pub2 := 364 |}.
Definition directory : gmap string PubKey :=
  list_to_map [("alice", pubkey); ("bob", pubkey); ("carol", pubkey)].

(** A member with its long-term keys set, and a seed for its random source. *)
Definition Env : Type := Ske.Env nat.

Definition member (id : string) (seed : nat) : Env :=
  {| this := Member.set_staticPubKeyDir (Some directory)
               (Member.set_staticPrivKey (Some privkey) (Member.new id));
     rng := seed |}.

(** The message an outcome carries, or an empty one. *)
Definition message_of {A} (d : A) (r : Env * outcome A) : A :=
  match r.2 with Ok m => m | _ => d end.

(** bob starts a session with carol and alice; alice, last in the chain,
    turns the upflow into the downflow broadcast; bob answers it with his
    own acknowledgement. *)
Definition bob0 : Env := member "bob" 1.
Definition carol0 : Env := member "carol" 2.
Definition alice0 : Env := member "alice" 3.
Definition empty_message : Msg.t := Msg.new "" "" "".


Definition bob1 : Env * outcome Msg.t := commit ["carol"; "alice"] bob0.
Definition carol1 : Env * outcome Msg.t :=
  upflow (message_of empty_message bob1) carol0.
Definition alice1 : Env * outcome Msg.t :=
  upflow (message_of empty_message carol1) alice0.
Definition bob2 : Env * outcome (option Msg.t) :=
  downflow (message_of empty_message alice1) bob1.1.
Definition bob_ack : Msg.t := default empty_message (message_of None bob2).

(** bob's acknowledgement with carol and bob swapped in the positional
    arrays: the same session id, the same signature. *)
Definition swap01 {A} (l : list A) : list A :=
  match l with
  | x :: y :: rest => y :: x :: rest
  | _ => l
  end.
Definition bob_ack_swapped : Msg.t :=
  Msg.set_pubKeys (swap01 (Msg.pubKeys bob_ack))
    (Msg.set_nonces (swap01 (Msg.nonces bob_ack))
       (Msg.set_members (swap01 (Msg.members bob_ack)) bob_ack)).

(** A downflow for a session alice does not know yet, from bob, with a
    signature that is not bob's. *)
Definition forged : Msg.t :=
  Msg.mk "bob" "" "downflow" ["alice"; "bob"] ["na"; "nb"] ["ka"; "kb"]
         (Some "not a signature").

End Toy.

End Ske.

(** ** The causal transcript, [src/mpenc/impl/transcript.js] *)

(** Modelled from the spec: [mpenc/message.Message], which is not part of
    the sources at hand: "[mId] (unique opaque id), [author], [parents]: set
    of mId, [readers]: set of PID (intended recipients, excluding author),
    [members() = {author} ∪ readers], [body]: opaque payload". [mId] and
    [author] may be [null]. *)
Module Message.
Record t : Type := mk {
  mId : option string;
  author : option string;
  parents : gset string;
  readers : gset string;
  body : string
}.

Definition members (msg : t) : gset string :=
  match author msg with
  | Some a => {[a]} ∪ readers msg
  | None => readers msg
  end.
End Message.

(** [s.has(x)] for an [ImmutableSet] of strings and a value that may be
    [null]. *)
Definition set_has (s : gset string) (x : option string) : bool :=
  match x with
  | Some k => bool_decide (k ∈ s)
  | None => false
  end.

(** [a <= b] and [a > b] on numbers read from a [Map]: a comparison with
    [undefined] is false. *)
Definition js_le (a b : option nat) : bool :=
  match a, b with
  | Some x, Some y => bool_decide (x ≤ y)
  | _, _ => false
  end.
Definition js_gt (a b : option nat) : bool :=
  match a, b with
  | Some x, Some y => bool_decide (y < x)
  | _, _ => false
  end.

Global Instance outcome_ret : MRet outcome := λ A, @Ok A.
Global Instance outcome_bind : MBind outcome := λ A B k o,
  match o with
  | Ok a => k a
  | Throw e => Throw e
  | Diverge => Diverge
  end.

(** A loop with a body that may throw, over an array. *)
Fixpoint foldM {A B} (f : B → A → outcome B) (b : B) (l : list A) : outcome B :=
  match l with
  | [] => Ok b
  | x :: l' => b' ← f b x; foldM f b' l'
  end.

(** [l.forEach(f)] on a mutable object. *)
Fixpoint forEach {S A} (f : A → M S unit) (l : list A) : M S unit :=
  match l with
  | [] => ret tt
  | x :: l' => f x ;; forEach f l'
  end.

(** What [array.slice(-1)[0]] or a nullable field holds. *)
Inductive nullable (A : Type) : Type :=
| Null
| Undefined
| Val (a : A).
Arguments Null {A}.
Arguments Undefined {A}.
Arguments Val {A} a.

Module BaseTranscript.

Record t : Type := mk {
  _uIds : gset string;
  _messages : gmap string Message.t;
  _minMessages : gset string;
  _maxMessages : gset string;
  _successors : gmap string (gset string);
  _length : nat;
  _messageIndex : gmap string nat;
  _log : list string;
  _authorMessages : gmap string (list string);
  _authorIndex : gmap string nat;
  _context : gmap string (gmap string (option string));
  _unackby : gmap string (gset string);
  _unacked : gset string;
  _fubar : bool;
  _cacheUnacked : option (list string);
  _cacheBy : gmap string (list string)
}.

Definition set_uIds (v : gset string) (s : t) : t :=
  mk v (_messages s) (_minMessages s) (_maxMessages s) (_successors s)
     (_length s) (_messageIndex s) (_log s) (_authorMessages s) (_authorIndex
     s) (_context s) (_unackby s) (_unacked s) (_fubar s) (_cacheUnacked s)
     (_cacheBy s).
Definition set_messages (v : gmap string Message.t) (s : t) : t :=
  mk (_uIds s) v (_minMessages s) (_maxMessages s) (_successors s) (_length
     s) (_messageIndex s) (_log s) (_authorMessages s) (_authorIndex s)
     (_context s) (_unackby s) (_unacked s) (_fubar s) (_cacheUnacked s)
     (_cacheBy s).
Definition set_minMessages (v : gset string) (s : t) : t :=
  mk (_uIds s) (_messages s) v (_maxMessages s) (_successors s) (_length s)
     (_messageIndex s) (_log s) (_authorMessages s) (_authorIndex s) (_context
     s) (_unackby s) (_unacked s) (_fubar s) (_cacheUnacked s) (_cacheBy s).
Definition set_maxMessages (v : gset string) (s : t) : t :=
  mk (_uIds s) (_messages s) (_minMessages s) v (_successors s) (_length s)
     (_messageIndex s) (_log s) (_authorMessages s) (_authorIndex s) (_context
     s) (_unackby s) (_unacked s) (_fubar s) (_cacheUnacked s) (_cacheBy s).
Definition set_successors (v : gmap string (gset string)) (s : t) : t :=
  mk (_uIds s) (_messages s) (_minMessages s) (_maxMessages s) v (_length s)
     (_messageIndex s) (_log s) (_authorMessages s) (_authorIndex s) (_context
     s) (_unackby s) (_unacked s) (_fubar s) (_cacheUnacked s) (_cacheBy s).
Definition set_length (v : nat) (s : t) : t :=
  mk (_uIds s) (_messages s) (_minMessages s) (_maxMessages s) (_successors
     s) v (_messageIndex s) (_log s) (_authorMessages s) (_authorIndex s)
     (_context s) (_unackby s) (_unacked s) (_fubar s) (_cacheUnacked s)
     (_cacheBy s).
Definition set_messageIndex (v : gmap string nat) (s : t) : t :=
  mk (_uIds s) (_messages s) (_minMessages s) (_maxMessages s) (_successors
     s) (_length s) v (_log s) (_authorMessages s) (_authorIndex s) (_context
     s) (_unackby s) (_unacked s) (_fubar s) (_cacheUnacked s) (_cacheBy s).
Definition set_log (v : list string) (s : t) : t :=
  mk (_uIds s) (_messages s) (_minMessages s) (_maxMessages s) (_successors
     s) (_length s) (_messageIndex s) v (_authorMessages s) (_authorIndex s)
     (_context s) (_unackby s) (_unacked s) (_fubar s) (_cacheUnacked s)
     (_cacheBy s).
Definition set_authorMessages (v : gmap string (list string)) (s : t) : t :=
  mk (_uIds s) (_messages s) (_minMessages s) (_maxMessages s) (_successors
     s) (_length s) (_messageIndex s) (_log s) v (_authorIndex s) (_context s)
     (_unackby s) (_unacked s) (_fubar s) (_cacheUnacked s) (_cacheBy s).
Definition set_authorIndex (v : gmap string nat) (s : t) : t :=
  mk (_uIds s) (_messages s) (_minMessages s) (_maxMessages s) (_successors
     s) (_length s) (_messageIndex s) (_log s) (_authorMessages s) v (_context
     s) (_unackby s) (_unacked s) (_fubar s) (_cacheUnacked s) (_cacheBy s).
Definition set_context (v : gmap string (gmap string (option string))) (s : t) : t :=
  mk (_uIds s) (_messages s) (_minMessages s) (_maxMessages s) (_successors
     s) (_length s) (_messageIndex s) (_log s) (_authorMessages s)
     (_authorIndex s) v (_unackby s) (_unacked s) (_fubar s) (_cacheUnacked s)
     (_cacheBy s).
Definition set_unackby (v : gmap string (gset string)) (s : t) : t :=
  mk (_uIds s) (_messages s) (_minMessages s) (_maxMessages s) (_successors
     s) (_length s) (_messageIndex s) (_log s) (_authorMessages s)
     (_authorIndex s) (_context s) v (_unacked s) (_fubar s) (_cacheUnacked s)
     (_cacheBy s).
Definition set_unacked (v : gset string) (s : t) : t :=
  mk (_uIds s) (_messages s) (_minMessages s) (_maxMessages s) (_successors
     s) (_length s) (_messageIndex s) (_log s) (_authorMessages s)
     (_authorIndex s) (_context s) (_unackby s) v (_fubar s) (_cacheUnacked s)
     (_cacheBy s).
Definition set_fubar (v : bool) (s : t) : t :=
  mk (_uIds s) (_messages s) (_minMessages s) (_maxMessages s) (_successors
     s) (_length s) (_messageIndex s) (_log s) (_authorMessages s)
     (_authorIndex s) (_context s) (_unackby s) (_unacked s) v (_cacheUnacked
     s) (_cacheBy s).
Definition set_cacheUnacked (v : option (list string)) (s : t) : t :=
  mk (_uIds s) (_messages s) (_minMessages s) (_maxMessages s) (_successors
     s) (_length s) (_messageIndex s) (_log s) (_authorMessages s)
     (_authorIndex s) (_context s) (_unackby s) (_unacked s) (_fubar s) v
     (_cacheBy s).
Definition set_cacheBy (v : gmap string (list string)) (s : t) : t :=
  mk (_uIds s) (_messages s) (_minMessages s) (_maxMessages s) (_successors
     s) (_length s) (_messageIndex s) (_log s) (_authorMessages s)
     (_authorIndex s) (_context s) (_unackby s) (_unacked s) (_fubar s)
     (_cacheUnacked s) v.

(** A write to a field of a known record is carried out by [simpl]. *)
Arguments set_uIds v !s /.
Arguments set_messages v !s /.
Arguments set_minMessages v !s /.
Arguments set_maxMessages v !s /.
Arguments set_successors v !s /.
Arguments set_length v !s /.
Arguments set_messageIndex v !s /.
Arguments set_log v !s /.
Arguments set_authorMessages v !s /.
Arguments set_authorIndex v !s /.
Arguments set_context v !s /.
Arguments set_unackby v !s /.
Arguments set_unacked v !s /.
Arguments set_fubar v !s /.
Arguments set_cacheUnacked v !s /.
Arguments set_cacheBy v !s /.

(** [new BaseTranscript()] *)
Definition new : t :=
  mk ∅ ∅ ∅ ∅ ∅ 0 ∅ [] ∅ ∅ ∅ ∅ ∅ false None ∅.

(** Modelled from the spec: [struct.safeGet(map, key)], which is not part
    of the sources at hand; the lookup that fails on an unknown key
    ("author() throws if param doesn't exist"). *)
Definition safeGet {V} (map : gmap string V) (key : string) : outcome V :=
  match map !! key with
  | Some v => Ok v
  | None => Throw (ReferenceError "invalid key")
  end.

(** [map.get(key).f]: a [TypeError] when the key is unknown. *)
Definition get_defined {V} (map : gmap string V) (key : string) : outcome V :=
  match map !! key with
  | Some v => Ok v
  | None => Throw TypeError
  end.

(** *** CausalOrder: the readers *)

Definition size (s : t) : outcome nat := Ok (_length s).
Definition all (s : t) : outcome (list string) := Ok (_log s).
Definition has (s : t) (mId : string) : outcome bool :=
  Ok (bool_decide (mId ∈ dom (_messages s))).
Definition min (s : t) : outcome (gset string) := Ok (_minMessages s).
Definition max (s : t) : outcome (gset string) := Ok (_maxMessages s).
Definition pre (s : t) (mId : string) : outcome (gset string) :=
  msg ← safeGet (_messages s) mId; Ok (Message.parents msg).
Definition suc (s : t) (mId : string) : outcome (gset string) :=
  safeGet (_successors s) mId.
Definition allAuthors (s : t) : outcome (gset string) := Ok (_uIds s).
Definition author (s : t) (mId : string) : outcome (option string) :=
  msg ← safeGet (_messages s) mId; Ok (Message.author msg).
Definition get (s : t) (mId : string) : outcome Message.t :=
  safeGet (_messages s) mId.
Definition unackby (s : t) (mId : string) : outcome (gset string) :=
  safeGet (_unackby s) mId.
(** [pre_ruId(mId)], the context map of a message *)
Definition pre_ruId (s : t) (mId : string) : outcome (gmap string (option string)) :=
  safeGet (_context s) mId.

(** The loop of [_le_expensive], and of [pmIdArr.some(...)] in [add]: the
    first parent that [m0] precedes ends it. *)
Fixpoint le_any (le : string → string → outcome bool) (m0 : string)
    (pre : list string) : outcome bool :=
  match pre with
  | [] => Ok false
  | p :: rest => b ← le m0 p; if b : bool then Ok true else le_any le m0 rest
  end.

(** [le] and [_le_expensive] call each other; [fuel] bounds the depth of
    these calls. The arguments are message ids, so [le]'s test for
    [undefined] arguments is passed. *)
Fixpoint le_fuel (fuel : nat) (s : t) (m0 m1 : string) : outcome bool :=
  match fuel with
  | 0 => Diverge
  | S fuel' =>
      if decide (m0 = m1) then Ok true
      else
        u0 ← author s m0;
        u1 ← author s m1;
        if decide (u0 = u1) then
          Ok (js_le (_authorIndex s !! m0) (_authorIndex s !! m1))
        else
          msg1 ← get_defined (_messages s) m1;
          if set_has (Message.readers msg1) u0 then
            context ← get_defined (_context s) m1;
            Ok (match u0 ≫= λ u0, context !! u0 with
                | Some (Some p0) => js_le (_authorIndex s !! m0) (_authorIndex s !! p0)
                | _ => false
                end)
          else if js_gt (_messageIndex s !! m0) (_messageIndex s !! m1) then Ok false
          else
            (* _le_expensive *)
            pre ← pre s m1;
            le_any (le_fuel fuel' s) m0 (elements pre)
  end.

(** A call never nests deeper than the number of accepted messages (see
    [le_total] below). *)
Definition le (s : t) (m0 m1 : string) : outcome bool :=
  le_fuel (S (_length s)) s m0 m1.

Definition _le_expensive (s : t) (m0 m1 : string) : outcome bool :=
  pre ← pre s m1; le_any (le_fuel (_length s) s) m0 (elements pre).

Definition ge (s : t) (m0 m1 : string) : outcome bool := le s m1 m0.

(** *** [_mergeContext] *)

(** The body of the inner [mc.forEach]: entry [(u, um)] of a parent's
    context against the context built so far. *)
Definition merge_entry (s : t) (context : gmap string (option string))
    (entry : string * option string) : outcome (gmap string (option string)) :=
  let '(u, um) := entry in
  match context !! u with
  | None | Some None => Ok (<[u := um]> context)
  | Some (Some cur) =>
      match um with
      | None => Ok context
      | Some um' =>
          b ← ge s um' cur; Ok (if b : bool then <[u := um]> context else context)
      end
  end.

(** The body of the first [pmId.forEach]. *)
Definition merge_parent (s : t) (context : gmap string (option string))
    (m : string) : outcome (gmap string (option string)) :=
  mc ← get_defined (_context s) m;
  foldM (merge_entry s) context (map_to_list mc).

(** The body of the second [pmId.forEach]. A [null] author would be a key
    that the last loop deletes again. *)
Definition set_author (s : t) (context : gmap string (option string))
    (m : string) : outcome (gmap string (option string)) :=
  u ← author s m;
  Ok (match u with Some u => <[u := Some m]> context | None => context end).

Definition _mergeContext (s : t) (pmId ruId : gset string)
    : outcome (gmap string (option string)) :=
  context ← foldM (merge_parent s) ∅ (elements pmId);
  context ← foldM (set_author s) context (elements pmId);
  let context :=
    foldl (λ c u, match c !! u with None => <[u := None]> c | Some _ => c end)
          context (elements ruId) in
  Ok (foldl (λ c pu, if bool_decide (pu ∈ ruId) then c else delete pu c)
            context (elements (dom context))).

(** *** [_sortMIds], [iterAncestors] *)

(** The comparator of [_sortMIds], [index(a) - index(b)], read as an
    order; with an unknown id the difference is [NaN], which [sort] takes
    for 0. The ids sorted have distinct indices, so that every sorting
    algorithm returns the same array. *)
Definition index_le (messageIndex : gmap string nat) (a b : string) : Prop :=
  match messageIndex !! a, messageIndex !! b with
  | Some x, Some y => x ≤ y
  | _, _ => True
  end.

Global Instance index_le_dec messageIndex : RelDecision (index_le messageIndex).
Proof. intros a b. unfold index_le. repeat case_match; apply _. Defined.

Definition _sortMIds (s : t) (mIds : list string) : list string :=
  merge_sort (index_le (_messageIndex s)) mIds.

(** Modelled from the spec: [graph.CausalOrder.prototype.iterAncestors],
    which is not part of the sources at hand: "walk ancestors reachable
    through nodes that still have [uId] in their [unackby]". A breadth-first
    walk from [queue] along [pre]; a node is visited once, is yielded when
    [pred] holds for it, and only then are its parents walked. *)
Fixpoint iterAncestors_from (fuel : nat) (s : t) (pred : string → outcome bool)
    (queue : list string) (seen : gset string) : outcome (list string) :=
  match fuel with
  | 0 => Diverge
  | S fuel' =>
      match queue with
      | [] => Ok []
      | m :: queue' =>
          if bool_decide (m ∈ seen) then iterAncestors_from fuel' s pred queue' seen
          else
            ok ← pred m;
            if ok : bool then
              parents ← pre s m;
              rest ← iterAncestors_from fuel' s pred (queue' ++ elements parents)
                                        ({[m]} ∪ seen);
              Ok (m :: rest)
            else iterAncestors_from fuel' s pred queue' ({[m]} ∪ seen)
      end
  end.

(** Every step takes one id off the queue, and the parents of a message are
    put on it once: this many steps end the walk. *)
Definition walk_fuel (s : t) (init : list string) : nat :=
  S (length init
     + sum_list ((λ m, default 0 (base.size ∘ Message.parents <$> _messages s !! m))
                   <$> _log s)).

Definition iterAncestors (s : t) (init : list string) (pred : string → outcome bool)
    : outcome (list string) :=
  iterAncestors_from (walk_fuel s init) s pred init ∅.

(** *** The caches, [by] and [unacked] *)

Definition _invalidateCaches (uId : string) : M t unit :=
  modify (set_cacheUnacked None) ;;
  if truthy uId then modify (λ s, set_cacheBy (delete uId (_cacheBy s)) s)
  else modify (set_cacheBy ∅).

(** [by(uId)] *)
Definition by_ (uId : string) : M t (list string) :=
  cached ← gets (λ s, _cacheBy s !! uId);
  match cached with
  | Some msg => ret msg
  | None =>
      msg ← lift (λ s, safeGet (_authorMessages s) uId);
      modify (λ s, set_cacheBy (<[uId := msg]> (_cacheBy s)) s) ;;
      ret msg
  end.

Definition unacked : M t (list string) :=
  cached ← gets _cacheUnacked;
  match cached with
  | Some unacked => ret unacked
  | None =>
      unacked ← gets (λ s, _sortMIds s (elements (_unacked s)));
      modify (set_cacheUnacked (Some unacked)) ;;
      ret unacked
  end.

(** *** [add] *)

(** The merger [graph.createMerger] builds over [pre], [suc], [le] and the
    members of the messages is not part of the sources at hand. It reads
    the transcript, and returns the merged members or throws. [add] calls it
    on the parents and uses nothing of its result but that it did not
    throw. *)
Class Merger : Type := _merge : t → gset string → exn + gset string.

Definition merge_outcome (r : exn + gset string) : outcome (gset string) :=
  match r with
  | inl e => Throw e
  | inr merged => Ok merged
  end.

Definition check (cond : bool) (e : exn) : outcome unit :=
  if cond then Throw e else Ok tt.

(** [pumId]: the last message by the same author. *)
Definition last_by (s : t) (uId : option string) : nullable string :=
  match uId ≫= λ u, _authorMessages s !! u with
  | None => Null
  | Some l => match last l with Some m => Val m | None => Undefined end
  end.

(** The callback of [pmIdArr.filter] for [pmId403]. *)
Definition secret_parent (s : t) (uId : string) (pm : string) : outcome bool :=
  msg ← get_defined (_messages s) pm;
  Ok (negb (bool_decide (uId ∈ Message.members msg))).

Definition filterM {A} (f : A → outcome bool) (l : list A) : outcome (list A) :=
  foldM (λ acc x, b ← f x; Ok (if b : bool then acc ++ [x] else acc)) [] l.

Definition mapM {A B} (f : A → outcome B) (l : list A) : outcome (list B) :=
  foldM (λ acc x, y ← f x; Ok (acc ++ [y])) [] l.

(** The invariant "total-ordering of one user's messages". *)
Definition check_total_order (s : t) (pumId : nullable string)
    (pmIdArr : list string) : outcome unit :=
  match pumId with
  | Null => Ok tt
  | Undefined =>
      match pmIdArr with
      | [] => Throw (Error "does not reference prev-sent")
      | _ :: _ => Throw (Error "le: m0 and m1 are not both defined")
      end
  | Val pumId =>
      b ← le_any (le s) pumId pmIdArr;
      check (negb b) (Error "does not reference prev-sent")
  end.

Section Add.

Context {merger : Merger}.

(** Everything [add] does before it writes: the sanity checks, the merge of
    the parents' members and the context of the new message. *)
Definition validate (s : t) (msg : Message.t)
    : outcome (string * string * nullable string * gmap string (option string)) :=
  let uId := Message.author msg in
  let pmId := Message.parents msg in
  let ruId := Message.readers msg in
  let pumId := last_by s uId in
  let pmIdArr := elements pmId in
  mId ← match Message.mId msg with
        | None => Throw (Error "invalid mId: null")
        | Some mId => Ok mId
        end;
  check (bool_decide (mId ∈ pmId)) (Error "message references itself") ;;
  check (bool_decide (mId ∈ dom (_messages s))) (Error "message already added") ;;
  uId ← match uId with
        | None => Throw (Error "invalid uId: null")
        | Some uId => Ok uId
        end;
  check (bool_decide (uId ∈ ruId)) (Error "message sent to self") ;;
  (* ensure graph is complete, also preventing cycles *)
  let pmId404 := filter (λ pm, pm ∉ dom (_messages s)) pmId in
  check (bool_decide (0 < base.size pmId404)) (Error "parents not found") ;;
  (* check sender is actually allowed to read the parents; the message of
     this error calls [toArray] on an array, which is not a function *)
  pmId403 ← filterM (secret_parent s uId) pmIdArr;
  check (bool_decide (0 < length pmId403)) TypeError ;;
  (* check sanity of parents *)
  authors ← mapM (author s) pmIdArr;
  check (bool_decide (base.size (list_to_set authors : gset (option string))
                      < base.size pmId))
        (Error "redundant parents: not from distinct authors") ;;
  check_total_order s pumId pmIdArr ;;
  merge_outcome (_merge s pmId) ;;
  context ← _mergeContext s pmId ruId;
  Ok (mId, uId, pumId, context).

(** The messages [add] must refuse: one of the sanity checks fails, or the
    merge of the parents' members does. *)
Definition invalid (s : t) (msg : Message.t) : Prop :=
  Message.mId msg = None ∨ Message.author msg = None ∨
  (∃ mId, Message.mId msg = Some mId ∧ mId ∈ Message.parents msg) ∨
  (∃ mId, Message.mId msg = Some mId ∧ mId ∈ dom (_messages s)) ∨
  (∃ uId, Message.author msg = Some uId ∧ uId ∈ Message.readers msg) ∨
  (∃ p, p ∈ Message.parents msg ∧ p ∉ dom (_messages s)) ∨
  (∃ uId p parent,
     Message.author msg = Some uId ∧ p ∈ Message.parents msg ∧
     _messages s !! p = Some parent ∧ uId ∉ Message.members parent) ∨
  (∃ p1 p2 parent1 parent2,
     p1 ≠ p2 ∧ p1 ∈ Message.parents msg ∧ p2 ∈ Message.parents msg ∧
     _messages s !! p1 = Some parent1 ∧ _messages s !! p2 = Some parent2 ∧
     Message.author parent1 = Message.author parent2) ∨
  (∃ uId pumId,
     Message.author msg = Some uId ∧ last_by s (Some uId) = Val pumId ∧
     ∀ p, p ∈ Message.parents msg → le s pumId p ≠ Ok true) ∨
  (∃ e, _merge s (Message.parents msg) = inl e).

End Add.

(** [acked.add(am)] on a [Set]. *)
Definition set_add (x : string) (l : list string) : list string :=
  if bool_decide (x ∈ l) then l else l ++ [x].

(** The body of [pmId.forEach] that updates the successors. *)
Definition add_successor (mId m : string) : M t unit :=
  sucs ← lift (λ s, get_defined (_successors s) m);
  modify (λ s, set_successors (<[m := sucs ∪ {[mId]}]> (_successors s)) s).

(** The loop over the ancestors that [uId] acknowledges. The iterator is
    consumed while the loop body writes [_unackby]; a node is visited once,
    so that the nodes the walk yields do not depend on these writes. *)
Fixpoint ack_ancestors (uId : string) (anc : list string) (acked : list string)
    : M t (list string) :=
  match anc with
  | [] => ret acked
  | am :: rest =>
      unackby ← lift (λ s, get_defined (_unackby s) am);
      modify (λ s, set_unackby (<[am := unackby ∖ {[uId]}]> (_unackby s)) s) ;;
      unackby ← lift (λ s, get_defined (_unackby s) am);
      ack_ancestors uId rest
        (if bool_decide (base.size unackby = 0) then set_add am acked else acked)
  end.

(** The end of [add]'s [try], from "update unacked" on. *)
Definition update_unacked (msg : Message.t) (mId uId : string) : M t (list string) :=
  let ruId := Message.readers msg in
  let pmIdArr := elements (Message.parents msg) in
  modify (λ s, set_unackby (<[mId := ruId]> (_unackby s)) s) ;;
  modify (λ s, set_unacked (_unacked s ∪ {[mId]}) s) ;;
  anc ← lift (λ s, iterAncestors s pmIdArr
                     (λ m, unackby ← get_defined (_unackby s) m;
                           Ok (bool_decide (uId ∈ unackby))));
  acked ← ack_ancestors uId anc (if bool_decide (base.size ruId = 0) then [mId] else []);
  modify (λ s, set_unacked (_unacked s ∖ list_to_set acked) s) ;;
  acked ← gets (λ s, _sortMIds s acked);
  _invalidateCaches uId ;;
  ret acked.

(** The body of [add]'s [try]: "no turning back now". *)
Definition commit (msg : Message.t) (mId uId : string) (pumId : nullable string)
    (context : gmap string (option string)) : M t (list string) :=
  let pmId := Message.parents msg in
  let pmIdArr := elements pmId in
  (* update core *)
  modify (λ s, set_uIds (_uIds s ∪ {[uId]}) s) ;;
  modify (λ s, set_messages (<[mId := msg]> (_messages s)) s) ;;
  (if bool_decide (base.size pmId = 0)
   then modify (λ s, set_minMessages (_minMessages s ∪ {[mId]}) s)
   else ret tt) ;;
  modify (λ s, set_maxMessages ((_maxMessages s ∪ {[mId]}) ∖ pmId) s) ;;
  (* update successors *)
  forEach (add_successor mId) pmIdArr ;;
  modify (λ s, set_successors (<[mId := ∅]> (_successors s)) s) ;;
  (* update overall sequences *)
  modify (λ s, set_messageIndex (<[mId := _length s]> (_messageIndex s)) s) ;;
  modify (λ s, set_log (_log s ++ [mId]) s) ;;
  modify (λ s, set_length (S (_length s)) s) ;;
  (* update per-author sequences *)
  (match pumId with
   | Null => modify (λ s, set_authorMessages (<[uId := []]> (_authorMessages s)) s)
   | _ => ret tt
   end) ;;
  authored ← lift (λ s, get_defined (_authorMessages s) uId);
  modify (λ s, set_authorMessages (<[uId := authored ++ [mId]]> (_authorMessages s)) s) ;;
  let mSeq := length (authored ++ [mId]) - 1 in
  modify (λ s, set_authorIndex (<[mId := mSeq]> (_authorIndex s)) s) ;;
  (* update context *)
  modify (λ s, set_context (<[mId := context]> (_context s)) s) ;;
  (* update unacked *)
  update_unacked msg mId uId.

Definition add {merger : Merger} (msg : Message.t) : M t (list string) :=
  fubar ← gets _fubar;
  if fubar : bool then
    throw (Error "something horrible happened previously, refusing all operations")
  else
    prepared ← lift (λ s, validate s msg);
    let '(mId, uId, pumId, context) := prepared in
    try_rethrow (commit msg mId uId pumId context) (set_fubar true).

(** *** Reachable transcripts and what holds of them *)

(** The transcripts a caller can get: a new one, and what [add], [by] and
    [unacked] leave behind, whatever they answer. *)
Inductive reachable {merger : Merger} : t → Prop :=
| reachable_new : reachable new
| reachable_add s msg s' r :
    reachable s → add msg s = (s', r) → reachable s'
| reachable_by s uId s' r :
    reachable s → by_ uId s = (s', r) → reachable s'
| reachable_unacked s s' r :
    reachable s → unacked s = (s', r) → reachable s'.

(** The accept index of a message. *)
Definition index (s : t) (m : string) : option nat := _messageIndex s !! m.

(** [p] is an accepted message of author [u]. *)
Definition authored_by (s : t) (u p : string) : Prop :=
  ∃ msg, _messages s !! p = Some msg ∧ Message.author msg = Some u.

(** A context names, for a user, a message of that user. *)
Definition context_good (s : t) (context : gmap string (option string)) : Prop :=
  ∀ u p, context !! u = Some (Some p) → authored_by s u p.

Record wf (s : t) : Prop := {
  wf_fubar : _fubar s = false;
  wf_length : _length s = length (_log s);
  wf_index : ∀ m i, index s m = Some i ↔ _log s !! i = Some m;
  wf_index_dom : dom (_messageIndex s) = dom (_messages s);
  wf_mId : ∀ m msg, _messages s !! m = Some msg → Message.mId msg = Some m;
  wf_parents : ∀ m msg p,
    _messages s !! m = Some msg → p ∈ Message.parents msg →
    ∃ i j, index s p = Some i ∧ index s m = Some j ∧ i < j;
  wf_authored : ∀ m msg,
    _messages s !! m = Some msg →
    ∃ u l i, Message.author msg = Some u ∧ _authorMessages s !! u = Some l ∧
             _authorIndex s !! m = Some i ∧ l !! i = Some m;
  wf_author_list : ∀ u l i m,
    _authorMessages s !! u = Some l → l !! i = Some m →
    (∃ msg, _messages s !! m = Some msg ∧ Message.author msg = Some u) ∧
    _authorIndex s !! m = Some i;
  wf_author_order : ∀ u l i j a b x y,
    _authorMessages s !! u = Some l → l !! i = Some a → l !! j = Some b → i ≤ j →
    index s a = Some x → index s b = Some y → x ≤ y;
  wf_author_nonempty : ∀ u, _authorMessages s !! u ≠ Some [];
  wf_context_dom : dom (_context s) = dom (_messages s);
  wf_context : ∀ m context u p,
    _context s !! m = Some context → context !! u = Some (Some p) →
    (∃ msg, _messages s !! p = Some msg ∧ Message.author msg = Some u) ∧
    ∃ i j, index s p = Some i ∧ index s m = Some j ∧ i < j;
  wf_successors_dom : dom (_successors s) = dom (_messages s);
  wf_unackby_dom : dom (_unackby s) = dom (_messages s);
  wf_cacheBy : ∀ u l, _cacheBy s !! u = Some l → _authorMessages s !! u = Some l;
  wf_cacheUnacked : ∀ l,
    _cacheUnacked s = Some l → l = _sortMIds s (elements (_unacked s))
}.

(** *** More readers, and what the fields say about each other *)

(** [pre_uId(mId)] *)
Definition pre_uId (s : t) (mId : string) : outcome (nullable string) :=
  i ← safeGet (_authorIndex s) mId;
  uId ← author s mId;
  if decide (i = 0) then Ok Null
  else
    authored ← match uId ≫= λ u, _authorMessages s !! u with
               | Some l => Ok l
               | None => Throw TypeError
               end;
    Ok (match authored !! i with Some m => Val m | None => Undefined end).

(** [pre_ruId(mId, ruId)], with both arguments. *)
Definition pre_ruId_of (s : t) (mId ruId : string) : outcome (option string) :=
  context ← safeGet (_context s) mId;
  safeGet context ruId.

(** [p] is a parent of [m]. *)
Definition parent_of (s : t) (p m : string) : Prop :=
  ∃ msg, _messages s !! m = Some msg ∧ p ∈ Message.parents msg.

(** [a] is [b] or an ancestor of [b]. *)
Definition ancestor (s : t) : relation string := rtc (parent_of s).

(** [m] is a message of author [u]; a test on ids. *)
Definition by_author (s : t) (u m : string) : Prop :=
  _messages s !! m ≫= Message.author = Some u.

Global Instance by_author_dec s u m : Decision (by_author s u m).
Proof. unfold by_author. apply _. Defined.

(** What the fields of a transcript say about each other, besides [wf]. *)
Record coherent (s : t) : Prop := {
  co_unackby : ∀ m msg ub,
    _messages s !! m = Some msg → _unackby s !! m = Some ub →
    ub ⊆ Message.readers msg;
  co_author_reader : ∀ m msg u,
    _messages s !! m = Some msg → Message.author msg = Some u →
    u ∉ Message.readers msg;
  co_unacked : ∀ m, m ∈ _unacked s ↔ ∃ ub, _unackby s !! m = Some ub ∧ ub ≠ ∅;
  co_by : ∀ u l, _authorMessages s !! u = Some l → l = filter (by_author s u) (_log s);
  co_uIds : ∀ u, u ∈ _uIds s ↔ ∃ m, by_author s u m;
  co_min : ∀ m,
    m ∈ _minMessages s ↔ ∃ msg, _messages s !! m = Some msg ∧ Message.parents msg = ∅;
  co_context_dom : ∀ m msg c,
    _messages s !! m = Some msg → _context s !! m = Some c → dom c = Message.readers msg;
  co_context_parent : ∀ m msg c p msgp u,
    _messages s !! m = Some msg → _context s !! m = Some c →
    p ∈ Message.parents msg → _messages s !! p = Some msgp →
    Message.author msgp = Some u → u ∈ Message.readers msg →
    c !! u = Some (Some p);
  co_context_anc : ∀ m c u p,
    _context s !! m = Some c → c !! u = Some (Some p) → ancestor s p m;
  co_author_anc : ∀ u l i j a b,
    _authorMessages s !! u = Some l → l !! i = Some a → l !! j = Some b → i ≤ j →
    ancestor s a b
}.

(** [_successors] mirrors the parents, and [_maxMessages] are the messages
    that have no successor. *)
Record linked (s : t) : Prop := {
  li_suc : ∀ p m sucs,
    _successors s !! p = Some sucs → (m ∈ sucs ↔ parent_of s p m);
  li_max : ∀ m, m ∈ _maxMessages s ↔ _successors s !! m = Some ∅
}.

(** *** A toy instance

    A merger that accepts every set of parents, and a conversation between
    A, B and C to run [add] on. *)
Module Toy.

Definition merger : Merger := λ _ _, inr ∅.

Definition message (mId author : string) (parents readers : list string) : Message.t :=
  Message.mk (Some mId) (Some author) (list_to_set parents) (list_to_set readers) "".

Definition add (msg : Message.t) (s : t) : t * outcome (list string) :=
  BaseTranscript.add (merger := merger) msg s.

Definition s1 : t * outcome (list string) := add (message "m1" "A" [] ["B"; "C"]) new.
Definition s2 : t * outcome (list string) :=
  add (message "m2" "A" ["m1"] ["B"; "C"]) s1.1.
Definition s3 : t * outcome (list string) :=
  add (message "m3" "B" ["m2"] ["A"; "C"]) s2.1.
Definition s4 : t * outcome (list string) :=
  add (message "m4" "C" ["m3"] ["A"; "B"]) s3.1.

End Toy.

End BaseTranscript.

(** ** The message log, [DefaultMessageLog] of [src/mpenc/impl/transcript.js] *)

Module DefaultMessageLog.

(** The log holds the transcripts it follows by reference, as members of a
    [Set] and keys of a [Map]: [T] names these objects, and the functions of
    the class read them as they are when the log is called.

    Modelled from the spec: [MessageLog.shouldIgnore] and
    [MessageLog.resolveEarlier] of [mpenc/transcript.js], which is not part
    of the sources at hand: "skip if a domain predicate
    [shouldIgnore(transcript, mId)] returns true", "resolve the message's
    payload parents as the set of latest earlier non-ignored mIds in the
    transcript". They read the transcript and may throw. *)
Class Transcripts (T : Type) `{Countable T} : Type := {
  transcript_has : T → string → outcome bool;
  transcript_pre : T → string → outcome (gset string);
  shouldIgnore : T → string → outcome bool;
  resolveEarlier : T → gset string → outcome (gset string)
}.

Section Log.
Context {T : Type} `{Countable T} {transcripts : Transcripts T}.

(** Modelled from the spec: the log extends [ObservableSequence], of
    [mpenc/helper/async.js], which is not part of the sources at hand, "an
    observable linear sequence": [items] is the array of the accepted ids,
    and the notification of the observers is left out. *)
Record t : Type := mk {
  items : list string;
  _messageIndex : gmap string nat;
  _parents : list (gset string);
  _transcripts : gset T;
  _transcriptParents : gmap T (gset string);
  _lastTranscript : option T
}.

Definition set_items (v : list string) (s : t) : t :=
  mk v (_messageIndex s) (_parents s) (_transcripts s) (_transcriptParents s)
     (_lastTranscript s).
Definition set_messageIndex (v : gmap string nat) (s : t) : t :=
  mk (items s) v (_parents s) (_transcripts s) (_transcriptParents s)
     (_lastTranscript s).
Definition set_parents (v : list (gset string)) (s : t) : t :=
  mk (items s) (_messageIndex s) v (_transcripts s) (_transcriptParents s)
     (_lastTranscript s).
Definition set_transcripts (v : gset T) (s : t) : t :=
  mk (items s) (_messageIndex s) (_parents s) v (_transcriptParents s)
     (_lastTranscript s).
Definition set_transcriptParents (v : gmap T (gset string)) (s : t) : t :=
  mk (items s) (_messageIndex s) (_parents s) (_transcripts s) v
     (_lastTranscript s).
Definition set_lastTranscript (v : option T) (s : t) : t :=
  mk (items s) (_messageIndex s) (_parents s) (_transcripts s)
     (_transcriptParents s) v.

Definition new : t := mk [] ∅ [] ∅ ∅ None.

Definition has (s : t) (mId : string) : bool :=
  bool_decide (mId ∈ dom (_messageIndex s)).

(** [_assert(cond, message)] in a method that only reads. *)
Definition assert_read (cond : bool) (msg : string) : outcome unit :=
  if cond then Ok tt else Throw (AssertionError msg).

(** [_resolveEarlier(tscr, mIds)] *)
Definition _resolveEarlier (s : t) (tscr : T) (mIds : gset string)
    : outcome (gset string) :=
  assert_read (bool_decide (tscr ∈ dom (_transcriptParents s)))
              "invalid transcript" ;;
  resolved ← resolveEarlier tscr mIds;
  resolved ← (if bool_decide (base.size resolved = 0)
              then match _transcriptParents s !! tscr with
                   | Some trParents => Ok trParents
                   | None => Throw TypeError
                   end
              else Ok resolved);
  assert_read (forallb (has s) (elements resolved))
    "resolved parents not all added to the log yet; this must be done first" ;;
  Ok resolved.

(** [_add(transcript, mId, parents)] *)
Definition _add (transcript : T) (mId : string) (parents : gset string) : M t unit :=
  known ← gets (λ s, has s mId);
  if known : bool then throw (Error "already added")
  else
    ignore ← lift (λ _, shouldIgnore transcript mId);
    if ignore : bool then ret tt
    else
      parents ← (if bool_decide (base.size parents = 0) then
                   trParents ← gets (λ s, _transcriptParents s !! transcript);
                   match trParents with
                   | Some trParents =>
                       if bool_decide (base.size trParents = 0) then ret parents
                       else
                         ok ← gets (λ s, forallb (has s) (elements trParents));
                         _assert ok "assertion failed" ;;
                         ret trParents
                   | None => ret parents
                   end
                 else ret parents);
      modify (λ s, set_transcripts (_transcripts s ∪ {[transcript]}) s) ;;
      modify (λ s, set_messageIndex (<[mId := length (items s)]> (_messageIndex s)) s) ;;
      modify (λ s, set_parents (_parents s ++ [parents]) s) ;;
      modify (λ s, set_items (items s ++ [mId]) s).

(** The function [getSubscriberFor] returns: a closure over the log and
    [transcript]. *)
Inductive subscriber : Type := Subscriber (transcript : T).

(** A call of the subscriber on a message id. *)
Definition call (f : subscriber) (mId : string) : M t unit :=
  let 'Subscriber transcript := f in
  known ← lift (λ _, transcript_has transcript mId);
  _assert known "assertion failed" ;;
  ignore ← lift (λ _, shouldIgnore transcript mId);
  if ignore : bool then ret tt
  else
    parents ← lift (λ _, pre ← transcript_pre transcript mId;
                         resolveEarlier transcript pre);
    _add transcript mId parents.

(** [getSubscriberFor(transcript, parents)]; [parents] is an optional [Map]
    from sets of message ids to transcripts, given by its entries. *)
Definition getSubscriberFor (transcript : T)
    (parents : option (list (gset string * T))) : M t subscriber :=
  if bool_decide (1 < from_option length 0 parents) then
    throw (Error "DefaultMessageLog does not support transcripts with > 1 parent")
  else
    let parentVal := parents ≫= head in
    let parentMIds := from_option fst ∅ parentVal in
    payloadParents ← match parentVal with
                     | Some parentVal =>
                         lift (λ s, _resolveEarlier s parentVal.2 parentMIds)
                     | None => ret ∅
                     end;
    modify (λ s, set_transcriptParents
                   (<[transcript := payloadParents]> (_transcriptParents s)) s) ;;
    modify (set_lastTranscript (Some transcript)) ;;
    ret (Subscriber transcript).

(** The log after a successful [getSubscriberFor]. *)
Definition subscribed (transcript : T) (payloadParents : gset string) (s : t) : t :=
  set_lastTranscript (Some transcript)
    (set_transcriptParents (<[transcript := payloadParents]> (_transcriptParents s)) s).

(** *** [at], [indexOf], [parents], and the logs a caller can get *)

(** [at(index)]: a negative index counts from the end; [undefined]
    ([None]) outside the array. *)
Definition at_ (s : t) (index : Z) : option string :=
  let i := (if bool_decide (index < 0) then Z.of_nat (length (items s)) + index
            else index)%Z in
  if bool_decide (i < 0)%Z then None else items s !! Z.to_nat i.

(** [indexOf(mId)] *)
Definition indexOf (s : t) (mId : string) : Z :=
  match _messageIndex s !! mId with
  | Some i => Z.of_nat i
  | None => -1
  end.

(** [parents(mId)] *)
Definition parents (s : t) (mId : string) : outcome (option (gset string)) :=
  i ← BaseTranscript.safeGet (_messageIndex s) mId;
  Ok (_parents s !! i).

(** The logs a caller can get: a new one, and what [getSubscriberFor] and
    the calls of the subscribers leave behind, whatever they answer. *)
Inductive reachable : t → Prop :=
| reachable_new : reachable new
| reachable_subscribe s transcript parents s' r :
    reachable s → getSubscriberFor transcript parents s = (s', r) → reachable s'
| reachable_call s f mId s' r :
    reachable s → call f mId s = (s', r) → reachable s'.

(** What holds of them. *)
Record wf (s : t) : Prop := {
  lwf_index : ∀ m i, _messageIndex s !! m = Some i ↔ items s !! i = Some m;
  lwf_parents : length (_parents s) = length (items s);
  lwf_transcriptParents : ∀ tscr ps p,
    _transcriptParents s !! tscr = Some ps → p ∈ ps → has s p = true
}.

(** The parents [_add] stores with a message: those of the transcript when
    the message has none and the transcript has some. *)
Definition stored_parents (s : t) (transcript : T) (ps : gset string) : gset string :=
  if bool_decide (base.size ps = 0) then
    match _transcriptParents s !! transcript with
    | Some trParents => if bool_decide (base.size trParents = 0) then ps else trParents
    | None => ps
    end
  else ps.

(** The log after [_add] appended a message. *)
Definition appended (s : t) (transcript : T) (mId : string) (ps : gset string) : t :=
  mk (items s ++ [mId]) (<[mId := length (items s)]> (_messageIndex s))
     (_parents s ++ [ps]) (_transcripts s ∪ {[transcript]})
     (_transcriptParents s) (_lastTranscript s).

End Log.

(** *** A toy instance: transcripts named by numbers, none of whose messages
    is ignored *)
Module Toy.

Global Instance transcripts : Transcripts nat := {|
  transcript_has := λ _ _, Ok true;
  transcript_pre := λ _ _, Ok ∅;
  shouldIgnore := λ _ _, Ok false;
  resolveEarlier := λ _ mIds, Ok mIds
|}.

(** A log subscribed to transcript 0, in which message "m1" was accepted. *)
Definition log1 : t := (getSubscriberFor 0 None new).1.
Definition log2 : t := (call (Subscriber 0) "m1" log1).1.

End Toy.

End DefaultMessageLog.

(** * Properties *)

(** ** Session-ID deriver *)

Section SidProperties.

Context {G : Type} {crypto : Ske.Crypto G}.

Local Abbreviation _computeSid := Ske._computeSid.
Local Abbreviation sid_spec := Ske.sid_spec.

Lemma append_cons (x : ascii) (a b : string) :
  String x a +:+ b = String x (a +:+ b).
Proof. reflexivity. Qed.

Lemma append_assoc (a b c : string) : (a +:+ b) +:+ c = a +:+ (b +:+ c).
Proof. induction a as [|x a IH]; [done|]. rewrite !append_cons. by rewrite IH. Qed.

Lemma append_empty_r (a : string) : a +:+ "" = a.
Proof. induction a as [|x a IH]; [done|]. rewrite append_cons. by rewrite IH. Qed.

Lemma truthy_true (s : string) : truthy s = true ↔ s ≠ "".
Proof.
  unfold truthy. rewrite negb_true_iff. destruct (String.eqb_spec s ""); naive_solver.
Qed.

(** What the second loop of [_computeSid] has appended when it ends. *)
Lemma sid_items_spec mapping l a b :
  Ske.sid_items mapping l (a, b) =
    (a +:+ concat_strings (filter (λ p, p ≠ "") l),
     b +:+ concat_strings (Ske.mapping_str mapping <$> filter (λ p, p ≠ "") l)).
Proof.
  revert a b. induction l as [|p l IH]; intros a b; simpl.
  { by rewrite !append_empty_r. }
  rewrite filter_cons. destruct (truthy p) eqn:Hp.
  - apply truthy_true in Hp. rewrite decide_True by done. simpl.
    rewrite IH. by rewrite !append_assoc.
  - assert (p = "") as ->.
    { destruct (decide (p = "")); [done|]. apply truthy_true in n. congruence. }
    rewrite decide_False by naive_solver. apply IH.
Qed.

Lemma sid_mapping_other members nonces i mapping pid :
  pid ∉ members →
  Ske.sid_mapping members nonces i mapping !! pid = mapping !! pid.
Proof.
  revert i mapping. induction members as [|m members IH]; intros i mapping Hpid.
  { done. }
  simpl. rewrite IH by set_solver. unfold Ske.mapping_set.
  case_decide; [done|]. rewrite lookup_insert_ne; [done|set_solver].
Qed.

(** What the first loop of [_computeSid] stores for a member. *)
Lemma sid_mapping_lookup members nonces i mapping j pid :
  NoDup members → members !! j = Some pid → pid ≠ "__proto__" →
  Ske.sid_mapping members nonces i mapping !! pid = Some (nonces !! (i + j)).
Proof.
  revert i mapping j. induction members as [|m members IH]; intros i mapping j Hnd Hj Hp.
  { done. }
  apply NoDup_cons in Hnd as [Hm Hnd]. destruct j as [|j]; simpl in *.
  - simplify_eq. rewrite sid_mapping_other by done. unfold Ske.mapping_set.
    rewrite decide_False by done.
    rewrite lookup_insert_eq. do 2 f_equal. lia.
  - rewrite (IH (S i) _ j); [|done..]. do 2 f_equal. lia.
Qed.

Lemma StronglySorted_filter {A} (R : relation A) (P : A → Prop)
    `{∀ x, Decision (P x)} (l : list A) :
  StronglySorted R l → StronglySorted R (filter P l).
Proof.
  induction 1 as [|x l Hl IH Hx]; [constructor|].
  rewrite filter_cons. case_decide; [|done].
  constructor; [done|]. rewrite Forall_forall in Hx |- *.
  intros y [_ Hy]%list_elem_of_filter. auto.
Qed.

Global Instance pid_le_trans : Transitive Ske.pid_le.
Proof. intros x y z. unfold Ske.pid_le. apply transitivity. Qed.

Global Instance pid_le_total : Total Ske.pid_le.
Proof. intros x y. unfold Ske.pid_le. apply total, _. Qed.

Lemma sorted_pairs_sorted members nonces :
  StronglySorted Ske.pid_le (Ske.sorted_pairs members nonces).
Proof. apply StronglySorted_merge_sort; apply _. Qed.

Lemma sorted_pairs_perm members nonces :
  Ske.sorted_pairs members nonces ≡ₚ filter (λ p, p.1 ≠ "") (zip members nonces).
Proof. apply merge_sort_Permutation. Qed.

Lemma filter_fst_zip (members nonces : list string) :
  length members = length nonces →
  (filter (λ p : string * string, p.1 ≠ "") (zip members nonces)).*1
  = filter (λ p, p ≠ "") members.
Proof.
  revert nonces. induction members as [|m members IH]; intros [|n nonces] Hlen;
    simplify_eq/=; [done|].
  rewrite !filter_cons. simpl. case_decide; csimpl; by rewrite IH.
Qed.

(** The ids the second loop keeps are the first components of the sorted
    pairs. *)
Lemma sorted_members_fst members nonces :
  length members = length nonces →
  filter (λ p, p ≠ "") (merge_sort String.le members)
  = (Ske.sorted_pairs members nonces).*1.
Proof.
  intros Hlen. apply (StronglySorted_unique String.le).
  - apply StronglySorted_filter, StronglySorted_merge_sort; apply _.
  - eapply StronglySorted_fmap, sorted_pairs_sorted. done.
  - rewrite sorted_pairs_perm, filter_fst_zip by done.
    by rewrite merge_sort_Permutation.
Qed.

Lemma sorted_pairs_nonces members nonces :
  NoDup members →
  Ske.mapping_str (Ske.sid_mapping members nonces 0 ∅)
    <$> (Ske.sorted_pairs members nonces).*1
  = Ske.hashed_nonce <$> Ske.sorted_pairs members nonces.
Proof.
  intros Hnd. rewrite <-list_fmap_compose. apply list_fmap_ext.
  intros k [p n] Hk. unfold Ske.mapping_str, Ske.hashed_nonce. simpl.
  destruct (decide (p = "__proto__")) as [|Hp]; [done|].
  assert ((p, n) ∈ zip members nonces) as Hin.
  { apply list_elem_of_lookup_2 in Hk. rewrite sorted_pairs_perm in Hk.
    by apply list_elem_of_filter in Hk as [_ Hk]. }
  apply list_elem_of_lookup in Hin as [j Hj].
  apply lookup_zip_with_Some in Hj as (p' & n' & ? & Hp' & Hn). simplify_eq.
  rewrite (sid_mapping_lookup _ _ _ _ j) by done. simpl. by rewrite Hn.
Qed.

(** What [_computeSid] hashes: the sorted non-empty ids, then for each of
    them its nonce, or ['[object Object]'] for the id ['__proto__']. *)
Lemma computeSid_hashes members nonces :
  NoDup members → length members = length nonces →
  _computeSid members nonces
  = Ske.sha256 (concat_strings ((Ske.sorted_pairs members nonces).*1)
                +:+ concat_strings (Ske.hashed_nonce <$> Ske.sorted_pairs members nonces)).
Proof.
  intros Hnd Hlen. unfold Ske._computeSid.
  rewrite sid_items_spec. simpl.
  rewrite (sorted_members_fst members nonces) by done.
  by rewrite sorted_pairs_nonces.
Qed.

Lemma hashed_nonce_snd members nonces :
  "__proto__" ∉ members →
  Ske.hashed_nonce <$> Ske.sorted_pairs members nonces
  = (Ske.sorted_pairs members nonces).*2.
Proof.
  intros Hproto. apply list_fmap_ext. intros k [p n] Hk.
  unfold Ske.hashed_nonce. simpl. rewrite decide_False; [done|].
  intros ->. apply Hproto.
  apply list_elem_of_lookup_2 in Hk. rewrite sorted_pairs_perm in Hk.
  apply list_elem_of_filter in Hk as [_ Hk].
  apply list_elem_of_lookup in Hk as [j Hj].
  apply lookup_zip_with_Some in Hj as (p' & n' & ? & Hp' & Hn). simplify_eq.
  by eapply list_elem_of_lookup_2.
Qed.

Lemma computeSid_refines members nonces :
  NoDup members → length members = length nonces → "__proto__" ∉ members →
  _computeSid members nonces = sid_spec members nonces.
Proof.
  intros Hnd Hlen Hproto. rewrite computeSid_hashes by done.
  unfold Ske.sid_spec. by rewrite hashed_nonce_snd.
Qed.

Lemma sorted_pairs_permutation members nonces members' nonces' :
  NoDup members → length members = length nonces →
  length members' = length nonces' →
  zip members nonces ≡ₚ zip members' nonces' →
  Ske.sorted_pairs members nonces = Ske.sorted_pairs members' nonces'.
Proof.
  intros Hnd Hlen Hlen' Hperm.
  apply (StronglySorted_unique_strong Ske.pid_le); [|apply sorted_pairs_sorted..|].
  - intros [p n] [p' n'] H1 H2 Hle Hle'. unfold Ske.pid_le in *. simpl in *.
    assert (p = p') as <- by (by apply (anti_symm String.le)).
    rewrite sorted_pairs_perm in H1, H2.
    apply list_elem_of_filter in H1 as [_ H1]. apply list_elem_of_filter in H2 as [_ H2].
    rewrite <-Hperm in H2.
    apply list_elem_of_lookup in H1 as [i Hi]. apply list_elem_of_lookup in H2 as [j Hj].
    apply lookup_zip_with_Some in Hi as (? & ? & ? & Hi & Hin).
    apply lookup_zip_with_Some in Hj as (? & ? & ? & Hj & Hjn). simplify_eq.
    assert (i = j) as -> by (eapply NoDup_lookup; eauto). congruence.
  - by rewrite !sorted_pairs_perm, Hperm.
Qed.

(** C6, at the members ['__proto__'] and ['a']: the session id is the hash
    of the sorted ids followed by ['[object Object]'] and the nonce of
    ['a'], where the claim has the two nonces; the nonce of ['__proto__']
    does not enter the session id. *)
Theorem computeSid_loses_proto_nonce :
  _computeSid ["__proto__"; "a"] ["n1"; "n2"]
  = Ske.sha256 "__proto__a[object Object]n2" ∧
  sid_spec ["__proto__"; "a"] ["n1"; "n2"] = Ske.sha256 "__proto__an1n2" ∧
  _computeSid ["__proto__"; "a"] ["another nonce"; "n2"]
  = _computeSid ["__proto__"; "a"] ["n1"; "n2"].
Proof. split_and!; reflexivity. Qed.

(** X29: on pairwise-distinct member ids with one nonce each, [_computeSid]
    does not change when the (member, nonce) pairs are permuted; when none
    of the ids is ['__proto__'], it is the hash of the sorted non-empty ids
    followed by their nonces in the same order. *)
Theorem computeSid_sorted_and_permutation_invariant
    (members nonces members' nonces' : list string) :
  NoDup members → length members = length nonces →
  length members' = length nonces' →
  zip members nonces ≡ₚ zip members' nonces' →
  ("__proto__" ∉ members → _computeSid members nonces = sid_spec members nonces) ∧
  _computeSid members' nonces' = _computeSid members nonces.
Proof.
  intros Hnd Hlen Hlen' Hperm.
  assert (NoDup members') as Hnd'.
  { rewrite <-(fst_zip members' nonces') by lia. rewrite <-Hperm.
    rewrite fst_zip by lia. done. }
  split; [by apply computeSid_refines|].
  rewrite !computeSid_hashes by done.
  by rewrite (sorted_pairs_permutation members nonces members' nonces').
Qed.

End SidProperties.

Lemma computeSid_sorted_and_permutation_invariant_witness :
  Ske._computeSid (crypto := Ske.Toy.crypto) ["bob"; "alice"] ["n1"; "n2"]
  = Ske.sid_spec ["bob"; "alice"] ["n1"; "n2"] ∧
  Ske._computeSid (crypto := Ske.Toy.crypto) ["alice"; "bob"] ["n2"; "n1"]
  = Ske._computeSid ["bob"; "alice"] ["n1"; "n2"].
Proof.
  destruct (computeSid_sorted_and_permutation_invariant (crypto := Ske.Toy.crypto)
              ["bob"; "alice"] ["n1"; "n2"] ["alice"; "bob"] ["n2"; "n1"])
    as [Hspec Hperm].
  - refine (bool_decide_unpack _ _). vm_compute. exact I.
  - reflexivity.
  - reflexivity.
  - apply perm_swap.
  - split; [|exact Hperm]. apply Hspec.
    refine (bool_decide_unpack _ _). vm_compute. exact I.
Defined.

(** ** The member state machine *)

Section SkeProperties.

Context {G : Type} {crypto : Ske.Crypto G}.

Import Ske.

Local Abbreviation Env := (Ske.Env G).

Ltac unfold_M :=
  unfold mbind, M_bind, bind, _assert, this_get, this_set, gets, modify, ret,
    throw, deref, assert_found, draw, lift in *.

(** The random source is all a signature touches. *)
Lemma random_padding_ok n (e : Env) :
  ∃ g padding, random_padding n e = ({| this := this e; rng := g |}, Ok padding).
Proof.
  revert e. induction n as [|n IH]; intros e; simpl.
  { exists (rng e), "". by destruct e. }
  unfold_M. destruct (random_floor 255 (rng e)) as [r g1]. simpl.
  destruct (IH {| this := this e; rng := g1 |}) as (g & p & ->). simpl. eauto.
Qed.

Lemma smallrsasign_ok cleartext privkey (e : Env) :
  (Z.of_nat (String.length cleartext) < sign_keyLength privkey - 10)%Z →
  ∃ g sig, _smallrsasign cleartext (Some privkey) e
           = ({| this := this e; rng := g |}, Ok sig).
Proof.
  intros Hlen. unfold _smallrsasign, _pkcs1v15_encode. unfold_M. simpl.
  rewrite bool_decide_true by done. simpl.
  match goal with |- context [random_padding ?n ?e'] =>
    destruct (random_padding_ok n e') as (g & p & ->) end.
  simpl. eauto.
Qed.

Lemma truthy_length s n : String.length s = S n → truthy s = true.
Proof. by destruct s. Qed.

Lemma bytes2string_truthy bs : bs ≠ [] → truthy (bytes2string bs) = true.
Proof. by destruct bs. Qed.

Lemma computeSessionSig_ok (e : Env) sid pub :
  crypto_sane → can_sign (this e) →
  Member.sessionId (this e) = Some sid → truthy sid = true →
  Member.ephemeralPubKey (this e) = Some pub → truthy pub = true →
  ∃ g sig, _computeSessionSig e = ({| this := this e; rng := g |}, Ok sig).
Proof.
  intros [Hsha _] (k & Hk & Hlen) Hsid Hsidt Hpub Hpubt.
  unfold _computeSessionSig. unfold_M. simpl.
  rewrite Hsid. simpl. rewrite Hsidt. simpl.
  rewrite Hpub. simpl. rewrite Hpubt. simpl. rewrite Hk.
  apply smallrsasign_ok. rewrite Hsha. lia.
Qed.

Lemma indexOf_Some `{EqDecision A} (x : A) l i :
  indexOf x l = Some i ↔ l !! i = Some x ∧ ∀ j, j < i → l !! j ≠ Some x.
Proof.
  unfold indexOf. rewrite fmap_Some. split.
  - intros [[i' y] [Hf ->]]. apply list_find_Some in Hf as (Hi & -> & Hmin).
    split; [done|]. intros j Hj Hl. by eapply Hmin.
  - intros [Hi Hmin]. exists (i, x). split; [|done].
    apply list_find_Some. split_and!; [done..|]. intros j y Hj Hlt ->. by eapply Hmin.
Qed.






Lemma verifySessionSig_readonly memberId signature (e : Env) :
  (_verifySessionSig memberId signature e).1 = e.
Proof.
  unfold _verifySessionSig, _smallrsaverify, _pkcs1v15_decode. unfold_M. simpl.
  repeat (case_match; simpl; try done); unfold_M; by simplify_eq.
Qed.

(** What [downflow] does for the session the member is already in: the slot
    it marks is the sender's position in the message's member list. *)
Lemma downflow_existing_session (e : Env) (message : Msg.t) auth :
  NoDup (Msg.members message) →
  Member.sessionId (this e)
  = Some (_computeSid (Msg.members message) (Msg.nonces message)) →
  (_verifySessionSig (Msg.source message) (Msg.sessionSignature message) e).2
  = Ok true →
  Member.authenticatedMembers (this e) = Some auth →
  downflow message e
  = ({| this := Member.set_authenticatedMembers
                  (Some (array_set (indexOf (Msg.source message) (Msg.members message))
                           true auth)) (this e);
        rng := rng e |}, Ok None).
Proof.
  intros Hnd Hsid Hver Hauth. unfold downflow, _noDuplicatesInList.
  rewrite bool_decide_true by done. unfold_M. simpl.
  rewrite bool_decide_true by done. simpl.
  pose proof (verifySessionSig_readonly (Msg.source message)
                (Msg.sessionSignature message) e) as Hro.
  destruct (_verifySessionSig _ _ e) as [e1 r]. simpl in *. subst e1 r. simpl.
  unfold authenticate. unfold_M. simpl. by rewrite Hauth.
Qed.

(** C10: a downflow for a new session whose signature does not verify
    raises the authentication error after the member has adopted the
    session of the rejected message: session id, members, nonces and
    ephemeral public keys are the message's, and the authentication list
    has been reset with the member's own slot only. *)
Theorem downflow_new_session_not_atomic (e : Env) (message : Msg.t) (myPos : nat) :
  NoDup (Msg.members message) →
  indexOf (Member.id (this e)) (Msg.members message) = Some myPos →
  Member.sessionId (this e)
  ≠ Some (_computeSid (Msg.members message) (Msg.nonces message)) →
  (_verifySessionSig (Msg.source message) (Msg.sessionSignature message)
     {| this := adopt_session message (this e); rng := rng e |}).2 = Ok false →
  ∃ e',
    downflow message e
    = (e', Throw (AssertionError "Authentication of member failed")) ∧
    Member.sessionId (this e')
    = Some (_computeSid (Msg.members message) (Msg.nonces message)) ∧
    Member.members (this e') = Msg.members message ∧
    Member.nonces (this e') = Some (Msg.nonces message) ∧
    Member.ephemeralPubKeys (this e') = Some (Msg.pubKeys message) ∧
    Member.authenticatedMembers (this e')
    = Some (<[myPos := Some true]>
              (replicate (length (Msg.members message)) (Some false))).
Proof.
  intros Hnd Hpos Hsid Hver.
  assert (myPos < length (Msg.members message)) as Hlt.
  { apply indexOf_Some in Hpos as [Hpos _]. by eapply lookup_lt_Some. }
  exists {| this := adopt_session message (this e); rng := rng e |}.
  split.
  - unfold downflow, _noDuplicatesInList.
    rewrite bool_decide_true by done. unfold_M. simpl.
    rewrite bool_decide_false by done. simpl.
    unfold authenticate. unfold_M. simpl.
    pose proof (verifySessionSig_readonly (Msg.source message)
                  (Msg.sessionSignature message)
                  {| this := adopt_session message (this e); rng := rng e |}) as Hro.
    unfold adopt_session in *. simpl in *.
    destruct (_verifySessionSig _ _ _) as [e1 r]. simpl in *. by subst e1 r.
  - simpl. split_and!; try done.
    rewrite Hpos. unfold array_set, _arrayMaker.
    rewrite decide_True; [done|]. by rewrite length_replicate.
Qed.

End SkeProperties.

(** The toy capabilities are sane, and the toy key can sign. *)
Lemma toy_take_pad_length n s : String.length (Ske.Toy.take_pad n s) = n.
Proof.
  revert s. induction n as [|n IH]; intros s; [done|].
  destruct s; simpl; by rewrite IH.
Qed.

Lemma toy_crypto_sane : Ske.crypto_sane (crypto := Ske.Toy.crypto).
Proof. split; [apply toy_take_pad_length|done]. Qed.



(** C8, at bob's acknowledgement with carol and bob swapped in the
    positional arrays: alice, already in that session and holding no
    acknowledgement from carol, returns [null] and marks carol's slot
    instead of bob's. *)
Theorem downflow_marks_position_in_message :
  Ske.Msg.source Ske.Toy.bob_ack_swapped = "bob" ∧
  Ske.Member.members (Ske.this Ske.Toy.alice1.1) = ["bob"; "carol"; "alice"] ∧
  Ske.Member.authenticatedMembers (Ske.this Ske.Toy.alice1.1)
  = Some [Some false; Some false; Some true] ∧
  (Ske.downflow Ske.Toy.bob_ack_swapped Ske.Toy.alice1.1).2 = Ok None ∧
  Ske.Member.authenticatedMembers
    (Ske.this (Ske.downflow Ske.Toy.bob_ack_swapped Ske.Toy.alice1.1).1)
  = Some [Some false; Some true; Some true].
Proof. vm_compute. by split_and!. Qed.

Lemma downflow_new_session_not_atomic_witness :
  ∃ e',
    Ske.downflow Ske.Toy.forged Ske.Toy.alice0
    = (e', Throw (AssertionError "Authentication of member failed")) ∧
    Ske.Member.members (Ske.this e') = ["alice"; "bob"] ∧
    Ske.Member.authenticatedMembers (Ske.this e') = Some [Some true; Some false].
Proof.
  destruct (downflow_new_session_not_atomic Ske.Toy.alice0 Ske.Toy.forged 0)
    as (e' & Hdown & _ & Hm & _ & _ & Ha).
  - refine (bool_decide_unpack _ _). vm_compute. exact I.
  - vm_compute. reflexivity.
  - vm_compute. discriminate.
  - vm_compute. reflexivity.
  - exists e'. split; [exact Hdown|]. split; [exact Hm|]. exact Ha.
Defined.

(** ** More on the member state machine *)

Section SkeInvariants.

Context {G : Type} {crypto : Ske.Crypto G}.

Import Ske.

Local Abbreviation Env := (Ske.Env G).

Ltac unfold_M :=
  unfold mbind, M_bind, bind, _assert, this_get, this_set, gets, modify, ret,
    throw, deref, assert_found, draw, lift in *.

Lemma index_of_zero_app a b :
  index_of_zero (a +:+ b)
  = match index_of_zero a with
    | Some i => Some i
    | None => (λ i, String.length a + i) <$> index_of_zero b
    end.
Proof.
  induction a as [|c a IH].
  { change ("" +:+ b) with b. simpl. by destruct (index_of_zero b). }
  change (String c a +:+ b) with (String c (a +:+ b)). simpl.
  destruct (Ascii.eqb c zero); [done|]. rewrite IH.
  destruct (index_of_zero a); [done|]. by destruct (index_of_zero b).
Qed.

Lemma slice_from_app a b : slice_from (String.length a) (a +:+ b) = b.
Proof.
  induction a as [|c a IH]; [by destruct b|].
  change (String c a +:+ b) with (String c (a +:+ b)). done.
Qed.

Lemma length_append a b : String.length (a +:+ b) = String.length a + String.length b.
Proof.
  induction a as [|c a IH]; [done|].
  change (String c a +:+ b) with (String c (a +:+ b)). simpl. by rewrite IH.
Qed.

Lemma fromCharCode_nonzero n :
  (0 < n < 256)%Z → index_of_zero (fromCharCode n) = None.
Proof.
  intros Hn. unfold fromCharCode. simpl.
  rewrite Z.mod_small by lia.
  destruct (Ascii.eqb _ zero) eqn:Heq; [|done].
  apply Ascii.eqb_eq in Heq. apply (f_equal N_of_ascii) in Heq.
  rewrite N_ascii_embedding in Heq by lia. simpl in Heq. lia.
Qed.

(** The padding is as long as asked and holds no zero byte. *)
Lemma random_padding_spec n (e : Env) :
  random_in_range →
  ∃ g padding,
    random_padding n e = ({| this := this e; rng := g |}, Ok padding) ∧
    String.length padding = n ∧ index_of_zero padding = None.
Proof.
  intros Hrange. revert e. induction n as [|n IH]; intros e; simpl.
  { exists (rng e), "". by destruct e. }
  unfold_M. pose proof (Hrange (rng e)) as Hr.
  destruct (random_floor 255 (rng e)) as [r g1]. simpl in *.
  destruct (IH {| this := this e; rng := g1 |}) as (g & p & -> & Hlen & Hzero). simpl.
  exists g, (fromCharCode (1 + r) +:+ p). split_and!; [done| |].
  - rewrite length_append, Hlen. done.
  - rewrite index_of_zero_app, fromCharCode_nonzero by lia. by rewrite Hzero.
Qed.

Lemma index_of_zero_cons c s :
  index_of_zero (String c s)
  = if Ascii.eqb c zero then Some 0 else S <$> index_of_zero s.
Proof. reflexivity. Qed.

(** The block [_pkcs1v15_encode] builds: the first zero byte is the one
    before the message. *)
Lemma padded_block p message :
  index_of_zero p = None →
  index_of_zero (fromCharCode 2 +:+ p +:+ fromCharCode 0 +:+ message)
  = Some (S (String.length p)) ∧
  slice_from (S (String.length p) + 1)
             (fromCharCode 2 +:+ p +:+ fromCharCode 0 +:+ message) = message.
Proof.
  intros Hzero.
  assert (fromCharCode 2 +:+ p +:+ fromCharCode 0 +:+ message
          = String (ascii_of_N 2) (p +:+ String zero message)) as -> by reflexivity.
  split.
  - rewrite index_of_zero_cons. change (Ascii.eqb (ascii_of_N 2) zero) with false.
    cbv iota. rewrite index_of_zero_app, Hzero, index_of_zero_cons.
    change (Ascii.eqb zero zero) with true. cbv iota. simpl. f_equal. lia.
  - replace (S (String.length p) + 1) with (S (S (String.length p))) by lia.
    change (slice_from (S (S (String.length p)))
              (String (ascii_of_N 2) (p +:+ String zero message)))
      with (slice_from (S (String.length p)) (p +:+ String zero message)).
    replace (p +:+ String zero message) with ((p +:+ String zero "") +:+ message).
    + replace (S (String.length p)) with (String.length (p +:+ String zero "")).
      * apply slice_from_app.
      * rewrite length_append. simpl. lia.
    + rewrite append_assoc. reflexivity.
Qed.

Lemma pkcs1v15_encode_block (message : string) (length : Z) (e : Env) :
  random_in_range →
  (Z.of_nat (String.length message) < length - 10)%Z →
  ∃ g encoded,
    _pkcs1v15_encode message length e = ({| this := this e; rng := g |}, Ok encoded) ∧
    pkcs_block length encoded ∧
    ∀ e' : Env, _pkcs1v15_decode encoded e' = (e', Ok message).
Proof.
  intros Hrange Hlen. unfold _pkcs1v15_encode. unfold_M.
  rewrite bool_decide_true by done. simpl.
  match goal with |- context [random_padding ?n ?e'] =>
    destruct (random_padding_spec n e' Hrange) as (g & p & -> & Hp & Hzero) end.
  simpl. eexists _, _. split_and!; [done| |].
  - split; [|by eexists]. rewrite !length_append, Hp. simpl. lia.
  - intros e'. unfold _pkcs1v15_decode. unfold_M.
    rewrite bool_decide_true.
    2:{ rewrite !length_append, Hp. simpl. lia. }
    destruct (padded_block p message Hzero) as [-> Hslice].
    cbv beta iota. by rewrite Hslice.
Qed.

Lemma pkcs1v15_encode_decode (message : string) (length : Z) (e : Env) :
  random_in_range →
  (Z.of_nat (String.length message) < length - 10)%Z →
  ∃ g encoded,
    _pkcs1v15_encode message length e = ({| this := this e; rng := g |}, Ok encoded) ∧
    Z.of_nat (String.length encoded) = length ∧
    ∀ e' : Env, _pkcs1v15_decode encoded e' = (e', Ok message).
Proof.
  intros Hrange Hlen.
  destruct (pkcs1v15_encode_block message length e Hrange Hlen)
    as (g & encoded & Henc & [Hblock _] & Hdec).
  by exists g, encoded.
Qed.

(** X16: the padding round trip: [_pkcs1v15_decode] gives back the message
    that [_pkcs1v15_encode] padded, whatever the random padding, and the
    padded block is [length] bytes long. *)
Theorem pkcs1v15_round_trip (message : string) (length : Z) (e : Env) :
  random_in_range →
  (Z.of_nat (String.length message) < length - 10)%Z →
  ∃ g encoded,
    _pkcs1v15_encode message length e = ({| this := this e; rng := g |}, Ok encoded) ∧
    Z.of_nat (String.length encoded) = length ∧
    ∀ e' : Env, _pkcs1v15_decode encoded e' = (e', Ok message).
Proof. apply pkcs1v15_encode_decode. Qed.

Lemma smallrsa_sign_verify cleartext privkey pubkey (e : Env) :
  random_in_range → rsa_inverts privkey pubkey →
  (Z.of_nat (String.length cleartext) < sign_keyLength privkey - 10)%Z →
  ∃ g sig,
    _smallrsasign cleartext (Some privkey) e = ({| this := this e; rng := g |}, Ok sig) ∧
    ∀ e' : Env, _smallrsaverify (Some sig) pubkey e' = (e', Ok cleartext).
Proof.
  intros Hrange Hinv Hlen.
  destruct (pkcs1v15_encode_block cleartext (sign_keyLength privkey) e Hrange Hlen)
    as (g & encoded & Henc & Hblock & Hdec).
  unfold _smallrsasign. unfold_M. simpl. rewrite Henc. simpl.
  eexists _, _. split; [done|]. intros e'.
  unfold _smallrsaverify. unfold_M. simpl. rewrite Hinv by done. apply Hdec.
Qed.

(** X17: a signature made with [_smallrsasign] is read back by
    [_smallrsaverify]: with padding bytes in range, a text that fits the
    key length and a key pair on which the RSA primitives undo each other
    on the padded blocks of that length, verifying the signature of a text
    gives that text. *)
Theorem smallrsa_round_trip cleartext privkey pubkey (e : Env) :
  random_in_range → rsa_inverts privkey pubkey →
  (Z.of_nat (String.length cleartext) < sign_keyLength privkey - 10)%Z →
  ∃ g sig,
    _smallrsasign cleartext (Some privkey) e = ({| this := this e; rng := g |}, Ok sig) ∧
    ∀ e' : Env, _smallrsaverify (Some sig) pubkey e' = (e', Ok cleartext).
Proof. apply smallrsa_sign_verify. Qed.

Lemma session_sig_accepted (signer verifier : Env) privkey pubkey
    sid pub nonce pos pubKeys nonces dir :
  crypto_sane → random_in_range → rsa_inverts privkey pubkey →
  (42 < sign_keyLength privkey)%Z →
  truthy sid = true → truthy pub = true →
  Member.sessionId (this signer) = Some sid →
  Member.ephemeralPubKey (this signer) = Some pub →
  Member.nonce (this signer) = Some nonce →
  Member.staticPrivKey (this signer) = Some privkey →
  Member.sessionId (this verifier) = Some sid →
  indexOf (Member.id (this signer)) (Member.members (this verifier)) = Some pos →
  Member.ephemeralPubKeys (this verifier) = Some pubKeys → pubKeys !! pos = Some pub →
  Member.nonces (this verifier) = Some nonces → nonces !! pos = Some nonce →
  Member.staticPubKeyDir (this verifier) = Some dir →
  dir !! Member.id (this signer) = Some pubkey →
  ∃ g sig,
    _computeSessionSig signer = ({| this := this signer; rng := g |}, Ok sig) ∧
    _verifySessionSig (Member.id (this signer)) (Some sig) verifier
    = (verifier, Ok true).
Proof.
  intros [Hsha _] Hrange Hinv Hkey Hsidt Hpubt Hsid Hpub Hnonce Hpriv Hsid' Hpos
    Hpubs Hpubpos Hnonces Hnoncepos Hdir Hdirpos.
  set (ack := Member.id (this signer) +:+ pub +:+ nonce +:+ sid).
  destruct (smallrsa_sign_verify (sha256 ack) privkey pubkey signer Hrange Hinv)
    as (g & sig & Hsign & Hverify).
  { rewrite Hsha. lia. }
  exists g, sig. split.
  - unfold _computeSessionSig. unfold_M. simpl.
    rewrite Hsid. simpl. rewrite Hsidt. simpl.
    rewrite Hpub. simpl. rewrite Hpubt. simpl. rewrite Hnonce, Hpriv. simpl.
    exact Hsign.
  - unfold _verifySessionSig. unfold_M. simpl.
    rewrite Hsid'. simpl. rewrite Hsidt. simpl. rewrite Hpos. simpl.
    rewrite Hpubs. simpl. rewrite Hpubpos. simpl. rewrite Hpubt. simpl.
    rewrite Hdir. simpl. rewrite Hdirpos.
    rewrite Hverify. simpl. rewrite Hnonces. simpl. rewrite Hnoncepos. simpl.
    by rewrite bool_decide_true.
Qed.

(** X18: the session acknowledgement a member signs is accepted by every
    member that holds the same session: the same session id, the signer's
    ephemeral public key and nonce at the signer's position, and the
    signer's static public key. This is for digests of 32 characters,
    padding bytes in range, a static key longer than 42 bytes, and a key
    pair on which the RSA primitives undo each other on the padded blocks
    of the key length. *)
Theorem session_signature_verifies (signer verifier : Env) privkey pubkey
    sid pub nonce pos pubKeys nonces dir :
  crypto_sane → random_in_range → rsa_inverts privkey pubkey →
  (42 < sign_keyLength privkey)%Z →
  truthy sid = true → truthy pub = true →
  Member.sessionId (this signer) = Some sid →
  Member.ephemeralPubKey (this signer) = Some pub →
  Member.nonce (this signer) = Some nonce →
  Member.staticPrivKey (this signer) = Some privkey →
  Member.sessionId (this verifier) = Some sid →
  indexOf (Member.id (this signer)) (Member.members (this verifier)) = Some pos →
  Member.ephemeralPubKeys (this verifier) = Some pubKeys → pubKeys !! pos = Some pub →
  Member.nonces (this verifier) = Some nonces → nonces !! pos = Some nonce →
  Member.staticPubKeyDir (this verifier) = Some dir →
  dir !! Member.id (this signer) = Some pubkey →
  ∃ g sig,
    _computeSessionSig signer = ({| this := this signer; rng := g |}, Ok sig) ∧
    _verifySessionSig (Member.id (this signer)) (Some sig) verifier
    = (verifier, Ok true).
Proof. apply session_sig_accepted. Qed.

(** X19: [upflow] checks the message before it writes: on a member list
    with duplicates, with more nonces or public keys than members, or
    without the member itself, it throws an assertion error and the member
    is as it was. *)
Theorem upflow_rejects_unchanged (e : Env) (message : Msg.t) :
  ¬ NoDup (Msg.members message) ∨
  length (Msg.members message) < length (Msg.nonces message) ∨
  length (Msg.members message) < length (Msg.pubKeys message) ∨
  Member.id (this e) ∉ Msg.members message →
  ∃ text, upflow message e = (e, Throw (AssertionError text)).
Proof.
  intros Hbad. unfold upflow, _noDuplicatesInList. unfold_M. simpl.
  case_bool_decide as Hnd; simpl; [|eauto].
  case_bool_decide as Hnonces; simpl; [|eauto].
  case_bool_decide as Hkeys; simpl; [|eauto].
  destruct (indexOf _ _) as [pos|] eqn:Hpos; simpl; [|eauto].
  exfalso. destruct Hbad as [?|[?|[?|Hid]]]; [done|lia|lia|].
  apply Hid. apply indexOf_Some in Hpos as [Hpos _]. by eapply list_elem_of_lookup_2.
Qed.

(** X20: [commit] resets the nonce, the nonces and the ephemeral public
    keys, then runs the first upflow: with other members that are distinct
    and not the member itself, the message goes to the first of them and
    carries the whole member list and the one nonce and public key of the
    member, those [upflow] draws from the random source; with a duplicate it
    throws, and the reset is already done. *)
Theorem commit_starts_upflow (e : Env) (otherMembers : list string) (first : string)
    (rest : list string) :
  otherMembers = first :: rest →
  let members := Member.id (this e) :: otherMembers in
  let reset := Member.set_ephemeralPubKeys (Some [])
                 (Member.set_nonces (Some []) (Member.set_nonce None (this e))) in
  let nonce := upflow_nonce (rng e) in
  let priv := upflow_privKey (rng e) in
  if decide (NoDup members) then
    commit otherMembers e
    = ({| this := contribute (Msg.mk (Member.id (this e)) "" "upflow" members [] [] None)
                             nonce priv reset;
          rng := upflow_rng (rng e) |},
       Ok (Msg.mk (Member.id (this e)) first "upflow" members [nonce]
                  [bytes2string (publickey priv)] None))
  else
    commit otherMembers e
    = ({| this := reset; rng := rng e |},
       Throw (AssertionError "Duplicates in member list detected!")).
Proof.
  intros -> members reset nonce priv. subst members reset nonce priv.
  unfold commit, upflow, _noDuplicatesInList, newKey, push_nonce,
    push_ephemeralPubKey. unfold_M. simpl.
  destruct (decide (NoDup (Member.id (this e) :: first :: rest))) as [Hnd|Hnd].
  - rewrite bool_decide_true by done. simpl.
    unfold indexOf. simpl. rewrite decide_True by done. simpl.
    unfold upflow_nonce, upflow_privKey, upflow_rng.
    destruct (_newKey08 256 (rng e)) as [n1 g1]. simpl.
    destruct (_newKey08 512 g1) as [n2 g2]. simpl.
    rewrite bool_decide_false by lia. simpl. by destruct e as [[] ?].
  - rewrite bool_decide_false by done. simpl. by destruct e as [[] ?].
Qed.

Lemma indexOf_NoDup `{EqDecision A} (l : list A) i x :
  NoDup l → l !! i = Some x → indexOf x l = Some i.
Proof.
  intros Hnd Hi. apply indexOf_Some. split; [done|]. intros j Hj Hx.
  assert (j = i); [|lia]. by eapply NoDup_lookup.
Qed.

Lemma filter_all {A} (P : A → Prop) `{∀ x, Decision (P x)} (l : list A) :
  (∀ x, x ∈ l → P x) → filter P l = l.
Proof.
  induction l as [|x l IH]; intros HP; [done|].
  rewrite filter_cons_True by (apply HP; left). f_equal. apply IH.
  intros; apply HP; by right.
Qed.

(** Removing the entry of a member from two aligned arrays. *)
Lemma delete_zip_key {B} (ms : list string) (bs : list B) i x :
  NoDup ms → ms !! i = Some x →
  zip (delete i ms) (delete i bs) = filter (λ p, p.1 ≠ x) (zip ms bs).
Proof.
  revert i bs. induction ms as [|m ms IH]; intros i bs Hnd Hi; [done|].
  apply NoDup_cons in Hnd as [Hm Hnd]. destruct bs as [|b bs].
  { by destruct i, ms. }
  destruct i as [|i]; simpl in *.
  - simplify_eq. rewrite filter_cons_False by (simpl; tauto).
    symmetry. apply filter_all. intros [m' b'] Hin%elem_of_zip_l. simpl.
    by intros ->.
  - rewrite filter_cons_True.
    + f_equal. by apply IH.
    + simpl. intros ->. apply Hm. by eapply list_elem_of_lookup_2.
Qed.

Lemma delete_key (ms : list string) i x :
  NoDup ms → ms !! i = Some x → delete i ms = filter (λ m, m ≠ x) ms.
Proof.
  revert i. induction ms as [|m ms IH]; intros i Hnd Hi; [done|].
  apply NoDup_cons in Hnd as [Hm Hnd]. destruct i as [|i]; simpl in *.
  - simplify_eq. rewrite filter_cons_False by tauto.
    symmetry. apply filter_all. by intros m' Hin ->.
  - rewrite filter_cons_True.
    + f_equal. by apply IH.
    + intros ->. apply Hm. by eapply list_elem_of_lookup_2.
Qed.

Lemma length_delete_lt {A} (l : list A) i :
  i < length l → length (delete i l) = length l - 1.
Proof.
  revert i. induction l as [|x l IH]; intros i Hi; simpl in *; [lia|].
  destruct i as [|i]; simpl; [lia|]. rewrite IH by lia. lia.
Qed.

Lemma object_lookup_set_eq {V} key (v : V) (o : object V) :
  object_set key v o !! key = Some v.
Proof.
  unfold object_set, lookup, object_lookup.
  destruct (decide (key = "__proto__")); simpl; [done|apply lookup_insert_eq].
Qed.

Lemma object_lookup_set_ne {V} key key' (v : V) (o : object V) :
  key ≠ key' → object_set key v o !! key' = o !! key'.
Proof.
  intros Hne. unfold object_set, lookup, object_lookup.
  destruct (decide (key = "__proto__")) as [->|], (decide (key' = "__proto__"));
    simpl; try done.
  by apply lookup_insert_ne.
Qed.

Lemma object_own_set_ne {V} key key' (v : V) (o : object V) :
  key ≠ key' → object_own (object_set key v o) !! key' = object_own o !! key'.
Proof.
  intros Hne. unfold object_set. destruct (decide (key = "__proto__")); simpl; [done|].
  by apply lookup_insert_ne.
Qed.

Lemma object_proto_set_ne {V} key (v : V) (o : object V) :
  key ≠ "__proto__" → object_proto (object_set key v o) = object_proto o.
Proof. intros Hne. unfold object_set. by rewrite decide_False. Qed.

(** One turn of the loop of [exclude], on aligned arrays. *)
Lemma exclude_one_step (m : Member.t) (g : G) x i ns ks auth :
  Member.members m !! i = Some x → NoDup (Member.members m) →
  Member.nonces m = Some ns → Member.ephemeralPubKeys m = Some ks →
  Member.authenticatedMembers m = Some auth →
  exclude_one x {| this := m; rng := g |}
  = ({| this := Member.mk (Member.id m) (delete i (Member.members m))
                   (Member.authenticatedMembers m)
                   (Member.ephemeralPrivKey m) (Member.ephemeralPubKey m)
                   (Member.nonce m) (Some (delete i ns)) (Some (delete i ks))
                   (Member.sessionId m) (Member.staticPrivKey m)
                   (Member.staticPubKeyDir m)
                   (object_set x (or_null (ks !! i), or_false (auth !! i))
                      (Member.oldEphemeralKeys m));
        rng := g |}, Ok tt).
Proof.
  intros Hi Hnd Hns Hks Hauth. unfold exclude_one. unfold_M. simpl.
  rewrite (indexOf_NoDup _ i x Hnd Hi). rewrite Hks. simpl. rewrite Hauth. simpl.
  rewrite Hns. simpl.
  unfold Member.set_ephemeralPubKeys, Member.set_nonces, Member.set_members,
    set_oldEphemeralKeys. simpl. by rewrite Hauth.
Qed.

Lemma aligned_lookup {B} (P : string * B → Prop) `{∀ p, Decision (P p)}
    (ms ms' : list string) (ks ks' : list B) i' i y :
  NoDup ms → zip ms' ks' = filter P (zip ms ks) →
  length ks' = length ms' → length ks = length ms →
  ms' !! i' = Some y → ms !! i = Some y → ks' !! i' = ks !! i.
Proof.
  intros Hnd Hzip Hlen' Hlen Hi' Hi.
  assert (is_Some (ks' !! i')) as [k Hk].
  { apply lookup_lt_is_Some. rewrite Hlen'. by eapply lookup_lt_Some. }
  rewrite Hk.
  assert (zip ms' ks' !! i' = Some (y, k)) as Hz by (by apply lookup_zip_Some).
  apply list_elem_of_lookup_2 in Hz. rewrite Hzip in Hz.
  apply list_elem_of_filter in Hz as [_ Hz].
  apply list_elem_of_lookup in Hz as [j [Hj Hkj]%lookup_zip_Some].
  assert (j = i) as -> by (by eapply NoDup_lookup). done.
Qed.

Lemma filter_filter_not_in (x : string) (l : list string) (ms : list string) :
  filter (λ m, m ∉ l) (filter (λ m, m ≠ x) ms) = filter (λ m, m ∉ x :: l) ms.
Proof.
  rewrite list_filter_filter. apply list_filter_iff. intros m.
  rewrite not_elem_of_cons. tauto.
Qed.

Lemma filter_filter_key_not_in {B} (x : string) (l : list string)
    (ps : list (string * B)) :
  filter (λ p, p.1 ∉ l) (filter (λ p, p.1 ≠ x) ps) = filter (λ p, p.1 ∉ x :: l) ps.
Proof.
  rewrite list_filter_filter. apply list_filter_iff. intros p.
  rewrite not_elem_of_cons. tauto.
Qed.

(** The loop of [exclude] on aligned arrays: the entries of the excluded
    members leave the three arrays together. The key recorded for an
    excluded member is its own; the flag is read from
    [authenticatedMembers], which the loop does not shorten, at the
    position the member has in the member list once those excluded before
    it are gone. *)
Lemma exclude_loop (todo : list string) (m : Member.t) (g : G) ns ks auth :
  NoDup todo → todo ⊆ Member.members m → NoDup (Member.members m) →
  Member.nonces m = Some ns → Member.ephemeralPubKeys m = Some ks →
  Member.authenticatedMembers m = Some auth →
  length ns = length (Member.members m) → length ks = length (Member.members m) →
  ∃ m',
    exclude_each todo {| this := m; rng := g |}
    = ({| this := m'; rng := g |}, Ok tt) ∧
    Member.members m' = filter (λ x, x ∉ todo) (Member.members m) ∧
    Member.nonces m'
    = Some ((filter (λ p, p.1 ∉ todo) (zip (Member.members m) ns)).*2) ∧
    Member.ephemeralPubKeys m'
    = Some ((filter (λ p, p.1 ∉ todo) (zip (Member.members m) ks)).*2) ∧
    zip (Member.members m') (default [] (Member.nonces m'))
    = filter (λ p, p.1 ∉ todo) (zip (Member.members m) ns) ∧
    zip (Member.members m') (default [] (Member.ephemeralPubKeys m'))
    = filter (λ p, p.1 ∉ todo) (zip (Member.members m) ks) ∧
    (Member.id m' = Member.id m ∧
     Member.authenticatedMembers m' = Member.authenticatedMembers m ∧
     Member.ephemeralPrivKey m' = Member.ephemeralPrivKey m ∧
     Member.ephemeralPubKey m' = Member.ephemeralPubKey m ∧
     Member.nonce m' = Member.nonce m ∧ Member.sessionId m' = Member.sessionId m ∧
     Member.staticPrivKey m' = Member.staticPrivKey m ∧
     Member.staticPubKeyDir m' = Member.staticPubKeyDir m) ∧
    (∀ y, y ∉ todo → Member.oldEphemeralKeys m' !! y = Member.oldEphemeralKeys m !! y) ∧
    (∀ y, y ∉ todo →
          object_own (Member.oldEphemeralKeys m') !! y
          = object_own (Member.oldEphemeralKeys m) !! y) ∧
    ("__proto__" ∉ todo →
     object_proto (Member.oldEphemeralKeys m') = object_proto (Member.oldEphemeralKeys m)) ∧
    (∀ l1 y l2 i,
       todo = l1 ++ y :: l2 → Member.members m !! i = Some y →
       Member.oldEphemeralKeys m' !! y
       = Some (or_null (ks !! i),
               or_false (array_get
                           (indexOf y (filter (λ x, x ∉ l1) (Member.members m)))
                           auth))).
Proof.
  revert m ns ks. induction todo as [|x rest IH];
    intros m ns ks Hndt Hsub Hnd Hns Hks Hauth Hlenn Hlenk.
  { exists m. cbn [exclude_each]. unfold ret. split; [by destruct m|].
    rewrite Hns, Hks. simpl.
    rewrite !filter_all by (intros ??; apply not_elem_of_nil).
    rewrite !snd_zip by lia. split_and!; try done.
    intros l1 y l2 i Hl. by destruct l1. }
  apply NoDup_cons in Hndt as [Hx Hndt].
  assert (x ∈ Member.members m) as [i Hi]%list_elem_of_lookup by (apply Hsub; left).
  cbn [exclude_each]. unfold mbind, M_bind, bind.
  rewrite (exclude_one_step m g x i ns ks auth Hi Hnd Hns Hks Hauth).
  set (m1 := Member.mk _ _ _ _ _ _ _ _ _ _ _ _).
  pose proof (lookup_lt_Some _ _ _ Hi) as Hlt.
  pose proof (delete_key (Member.members m) i x Hnd Hi) as Hdel.
  pose proof (delete_zip_key (Member.members m) ns i x Hnd Hi) as Hdeln.
  pose proof (delete_zip_key (Member.members m) ks i x Hnd Hi) as Hdelk.
  destruct (IH m1 (delete i ns) (delete i ks)) as
    (m' & -> & Hm' & Hn' & Hk' & Hzn' & Hzk' & Hfields & Hold & Hown & Hproto & Hnew);
    subst m1; simpl; try done.
  { intros y Hy. rewrite Hdel. apply list_elem_of_filter. split.
    - by intros ->.
    - apply Hsub. by right. }
  { rewrite Hdel. by apply NoDup_filter. }
  { rewrite !length_delete_lt by lia. lia. }
  { rewrite !length_delete_lt by lia. lia. }
  simpl in *. exists m'. split; [done|].
  rewrite Hdel in Hm'. rewrite Hdeln in Hn', Hzn'. rewrite Hdelk in Hk', Hzk'.
  rewrite filter_filter_not_in in Hm'.
  rewrite filter_filter_key_not_in in Hn', Hzn', Hk', Hzk'.
  destruct Hfields as (? & ? & ? & ? & ? & ? & ? & ?).
  split_and!; try done.
  - intros y [Hyx Hy]%not_elem_of_cons. rewrite Hold by done.
    by rewrite object_lookup_set_ne.
  - intros y [Hyx Hy]%not_elem_of_cons. rewrite Hown by done.
    by rewrite object_own_set_ne.
  - intros [Hyx Hy]%not_elem_of_cons. rewrite Hproto by done.
    by rewrite object_proto_set_ne.
  - intros l1 y l2 j Hl Hj. destruct l1 as [|x' l1]; simplify_eq/=.
    + rewrite Hold by done. rewrite object_lookup_set_eq.
      assert (j = i) as -> by (by eapply NoDup_lookup).
      rewrite filter_all by (intros ??; apply not_elem_of_nil).
      by rewrite (indexOf_NoDup _ i y Hnd Hi).
    + assert (y ∈ delete i (Member.members m)) as [j' Hj']%list_elem_of_lookup.
      { rewrite Hdel. apply list_elem_of_filter. split.
        - intros ->. apply Hx. set_solver.
        - by eapply list_elem_of_lookup_2. }
      rewrite (Hnew l1 y l2 j' eq_refl Hj'). rewrite Hdel, filter_filter_not_in.
      do 3 f_equal.
      eapply (aligned_lookup _ (Member.members m) _ ks _ j' j y Hnd Hdelk); eauto.
      all: rewrite ?length_delete_lt by lia; lia.
Qed.

Lemma exclude_spec (e : Env) (excludeMembers : list string) ns ks auth :
  crypto_sane → can_sign (this e) →
  (∃ pub, Member.ephemeralPubKey (this e) = Some pub ∧ truthy pub = true) →
  excludeMembers ≠ [] → NoDup excludeMembers →
  excludeMembers ⊆ Member.members (this e) →
  Member.id (this e) ∉ excludeMembers →
  NoDup (Member.members (this e)) →
  Member.nonces (this e) = Some ns → Member.ephemeralPubKeys (this e) = Some ks →
  Member.authenticatedMembers (this e) = Some auth →
  length ns = length (Member.members (this e)) →
  length ks = length (Member.members (this e)) →
  ∃ e' members' nonces' pubKeys' sig,
    exclude excludeMembers e
    = (e', Ok (Msg.mk (Member.id (this e)) "" "downflow" members' nonces' pubKeys'
                      (Some sig))) ∧
    _computeSessionSig {| this := this e'; rng := rng e |} = (e', Ok sig) ∧
    members' = filter (λ m, m ∉ excludeMembers) (Member.members (this e)) ∧
    zip members' nonces'
    = filter (λ p, p.1 ∉ excludeMembers) (zip (Member.members (this e)) ns) ∧
    zip members' pubKeys'
    = filter (λ p, p.1 ∉ excludeMembers) (zip (Member.members (this e)) ks) ∧
    Member.members (this e') = members' ∧
    Member.nonces (this e') = Some nonces' ∧
    Member.ephemeralPubKeys (this e') = Some pubKeys' ∧
    Member.sessionId (this e') = Some (_computeSid members' nonces') ∧
    Member.authenticatedMembers (this e')
    = Some (array_set (indexOf (Member.id (this e)) members') true
                      (_arrayMaker (length members') false)) ∧
    (∀ y, y ∉ excludeMembers →
          object_own (Member.oldEphemeralKeys (this e')) !! y
          = object_own (Member.oldEphemeralKeys (this e)) !! y) ∧
    ("__proto__" ∉ excludeMembers →
     object_proto (Member.oldEphemeralKeys (this e'))
     = object_proto (Member.oldEphemeralKeys (this e))) ∧
    (∀ l1 y l2 i,
       excludeMembers = l1 ++ y :: l2 → Member.members (this e) !! i = Some y →
       Member.oldEphemeralKeys (this e') !! y
       = Some (or_null (ks !! i),
               or_false (array_get
                           (indexOf y (filter (λ x, x ∉ l1) (Member.members (this e))))
                           auth))).
Proof.
  intros Hsane Hsign (pub & Hpub & Hpubt) Hne Hnd Hsub Hself Hndm Hns Hks Hauth
    Hlenn Hlenk.
  destruct e as [m g]. simpl in *.
  destruct (exclude_loop excludeMembers m g ns ks auth)
    as (m' & Hloop & Hm' & Hn' & Hk' & Hzn & Hzk & Hfields & Hold & Hown & Hproto
        & Hnew); try done.
  destruct Hfields as (Hid & _ & _ & Hpub' & Hnonce' & _ & Hpriv' & _).
  rewrite Hn' in Hzn. rewrite Hk' in Hzk. simpl in Hzn, Hzk.
  unfold exclude, _arrayIsSubSet, authenticate. unfold_M. simpl.
  rewrite bool_decide_false by done. simpl.
  rewrite bool_decide_true by done. simpl.
  rewrite bool_decide_true.
  2:{ destruct (indexOf (Member.id m) excludeMembers) as [j|] eqn:Hj; [|done].
      apply indexOf_Some in Hj as [Hj _]. by apply list_elem_of_lookup_2 in Hj. }
  simpl. unfold mbind, M_bind, bind in Hloop. rewrite Hloop. simpl.
  rewrite Hn'. simpl. rewrite Hk'. simpl.
  match goal with |- context [_computeSessionSig ?e1] =>
    destruct (computeSessionSig_ok e1 (_computeSid (Member.members m')
                (filter (λ p, p.1 ∉ excludeMembers) (zip (Member.members m) ns)).*2)
                pub Hsane)
      as (g' & sig & Hsig)
  end; simpl; try done.
  { destruct Hsign as (k & Hk & Hlen). exists k. split; [simpl; congruence|done]. }
  { destruct Hsane as [Hsha _]. unfold _computeSid.
    destruct (sid_items _ _ _). by eapply truthy_length, Hsha. }
  { congruence. }
  rewrite Hsig. simpl.
  eexists _, _, _, _, _. split; [done|]. simpl.
  split_and!; try done.
Qed.

(** X21: [exclude], at a member that can sign, removes the excluded members
    from the member list and their entries from the nonces and the
    ephemeral public keys, so that the three arrays stay aligned; it
    derives the session id from what is left, restarts the authentication
    list with the member's own slot, and returns the downflow broadcast
    with the new arrays and the member's session signature on the new
    state. It records the public key of every excluded member in
    [oldEphemeralKeys] and leaves the properties of the other ids; the
    prototype of [oldEphemeralKeys] stays unless ['__proto__'] is
    excluded. *)
Theorem exclude_keeps_alignment (e : Env) (excludeMembers : list string) ns ks auth :
  crypto_sane → can_sign (this e) →
  (∃ pub, Member.ephemeralPubKey (this e) = Some pub ∧ truthy pub = true) →
  excludeMembers ≠ [] → NoDup excludeMembers →
  excludeMembers ⊆ Member.members (this e) →
  Member.id (this e) ∉ excludeMembers →
  NoDup (Member.members (this e)) →
  Member.nonces (this e) = Some ns → Member.ephemeralPubKeys (this e) = Some ks →
  Member.authenticatedMembers (this e) = Some auth →
  length ns = length (Member.members (this e)) →
  length ks = length (Member.members (this e)) →
  ∃ e' members' nonces' pubKeys' sig,
    exclude excludeMembers e
    = (e', Ok (Msg.mk (Member.id (this e)) "" "downflow" members' nonces' pubKeys'
                      (Some sig))) ∧
    _computeSessionSig {| this := this e'; rng := rng e |} = (e', Ok sig) ∧
    members' = filter (λ m, m ∉ excludeMembers) (Member.members (this e)) ∧
    zip members' nonces'
    = filter (λ p, p.1 ∉ excludeMembers) (zip (Member.members (this e)) ns) ∧
    zip members' pubKeys'
    = filter (λ p, p.1 ∉ excludeMembers) (zip (Member.members (this e)) ks) ∧
    Member.members (this e') = members' ∧
    Member.nonces (this e') = Some nonces' ∧
    Member.ephemeralPubKeys (this e') = Some pubKeys' ∧
    Member.sessionId (this e') = Some (_computeSid members' nonces') ∧
    Member.authenticatedMembers (this e')
    = Some (array_set (indexOf (Member.id (this e)) members') true
                      (_arrayMaker (length members') false)) ∧
    (∀ y i, y ∈ excludeMembers → Member.members (this e) !! i = Some y →
            ∃ flag, Member.oldEphemeralKeys (this e') !! y
                    = Some (or_null (ks !! i), flag)) ∧
    (∀ y, y ∉ excludeMembers →
          object_own (Member.oldEphemeralKeys (this e')) !! y
          = object_own (Member.oldEphemeralKeys (this e)) !! y) ∧
    ("__proto__" ∉ excludeMembers →
     object_proto (Member.oldEphemeralKeys (this e'))
     = object_proto (Member.oldEphemeralKeys (this e))).
Proof.
  intros Hsane Hsign Hpub Hne Hnd Hsub Hself Hndm Hns Hks Hauth Hlenn Hlenk.
  destruct (exclude_spec e excludeMembers ns ks auth)
    as (e' & members' & nonces' & pubKeys' & sig & Hex & Hsig & H1 & H2 & H3 & H4 & H5
        & H6 & H7 & H8 & Hown & Hproto & Hnew); try done.
  exists e', members', nonces', pubKeys', sig. split_and!; try done.
  intros y i [l1 [l2 ->]]%list_elem_of_split Hi. eauto.
Qed.


(** *** A round of the key agreement *)

Lemma sid_truthy members nonces : crypto_sane → truthy (_computeSid members nonces) = true.
Proof.
  intros [Hsha _]. eapply truthy_length. unfold _computeSid.
  destruct (sid_items _ _ _). apply Hsha.
Qed.

Lemma upflow_last (e : Env) (message : Msg.t) g sig :
  NoDup (Msg.members message) →
  length (Msg.nonces message) ≤ length (Msg.members message) →
  length (Msg.pubKeys message) ≤ length (Msg.members message) →
  indexOf (Member.id (this e)) (Msg.members message)
  = Some (length (Msg.members message) - 1) →
  let k1 := _newKey08 256 (rng e) in
  let k2 := _newKey08 512 k1.2 in
  let st := close_chain message (bytes2string k1.1) (bytes2string k2.1) (this e) in
  _computeSessionSig {| this := st; rng := k2.2 |} = ({| this := st; rng := g |}, Ok sig) →
  upflow message e
  = ({| this := st; rng := g |},
     Ok (Msg.mk (Member.id (this e)) "" "downflow" (Msg.members message)
                (Msg.nonces message ++ [bytes2string k1.1])
                (Msg.pubKeys message ++ [bytes2string (publickey (bytes2string k2.1))])
                (Some sig))).
Proof.
  intros Hnd Hn Hp Hpos k1 k2 st Hsig.
  unfold upflow, _noDuplicatesInList. rewrite !bool_decide_true by done.
  unfold_M. simpl. rewrite Hpos. simpl.
  unfold newKey, push_nonce, push_ephemeralPubKey. unfold_M. simpl.
  subst k1 k2 st.
  destruct (_newKey08 256 (rng e)) as [bytes g1]. simpl in *.
  destruct (_newKey08 512 g1) as [bytes' g2]. simpl in *.
  assert (length (Msg.members message) - 1 < length (Msg.members message)) as Hlt.
  { apply indexOf_Some in Hpos as [Hpos _]. by eapply lookup_lt_Some. }
  rewrite bool_decide_true by lia. simpl.
  unfold authenticate. unfold_M. simpl.
  unfold close_chain in Hsig. rewrite Hpos in Hsig.
  destruct e as [[] ?]. simpl in *.
  unfold Member.set_authenticatedMembers, Member.set_sessionId in *. simpl in *.
  rewrite Hsig. unfold close_chain. simpl. rewrite Hpos. reflexivity.
Qed.

Lemma array_set_lt {A} i (v : A) a :
  i < length a → array_set (Some i) v a = <[i := Some v]> a.
Proof. intros Hi. unfold array_set. by rewrite decide_True. Qed.

(** What [downflow] does with a broadcast for a session the member is not
    in yet, once the sender's signature has verified. *)
Lemma downflow_new_session_ok (e : Env) (message : Msg.t) g sig :
  NoDup (Msg.members message) →
  Member.sessionId (this e)
  ≠ Some (_computeSid (Msg.members message) (Msg.nonces message)) →
  (_verifySessionSig (Msg.source message) (Msg.sessionSignature message)
     {| this := adopt_session message (this e); rng := rng e |}).2 = Ok true →
  let st := Member.set_authenticatedMembers
              (Some (array_set (indexOf (Msg.source message) (Msg.members message)) true
                       (array_set (indexOf (Member.id (this e)) (Msg.members message))
                          true (_arrayMaker (length (Msg.members message)) false))))
              (adopt_session message (this e)) in
  _computeSessionSig {| this := st; rng := rng e |} = ({| this := st; rng := g |}, Ok sig) →
  downflow message e
  = ({| this := st; rng := g |},
     Ok (Some (Msg.set_sessionSignature (Some sig)
                 (Msg.set_source (Member.id (this e)) message)))).
Proof.
  intros Hnd Hsid Hver st Hsig. subst st.
  unfold downflow, _noDuplicatesInList.
  rewrite bool_decide_true by done. unfold_M. simpl.
  rewrite bool_decide_false by done. simpl.
  unfold authenticate. unfold_M. simpl.
  pose proof (verifySessionSig_readonly (Msg.source message)
                (Msg.sessionSignature message)
                {| this := adopt_session message (this e); rng := rng e |}) as Hro.
  unfold adopt_session in *. simpl in *.
  destruct (_verifySessionSig _ _ _) as [e1 r]. simpl in *. subst e1 r. simpl.
  unfold Member.set_authenticatedMembers in *. simpl in *.
  rewrite Hsig. reflexivity.
Qed.

(** X23: a downflow broadcast for a session the member is not in yet, with
    a signature of the sender that verifies, at a member that can sign: the
    member adopts the members, nonces, public keys and session id of the
    message, marks itself and the sender as authenticated, and returns the
    message with itself as source and its own session signature, the one
    [_computeSessionSig] makes on the new state. *)
Theorem downflow_adopts_new_session (e : Env) (message : Msg.t) pub :
  crypto_sane → can_sign (this e) →
  Member.ephemeralPubKey (this e) = Some pub → truthy pub = true →
  NoDup (Msg.members message) →
  Member.sessionId (this e)
  ≠ Some (_computeSid (Msg.members message) (Msg.nonces message)) →
  (_verifySessionSig (Msg.source message) (Msg.sessionSignature message)
     {| this := adopt_session message (this e); rng := rng e |}).2 = Ok true →
  ∃ e' sig,
    downflow message e
    = (e', Ok (Some (Msg.set_sessionSignature (Some sig)
                       (Msg.set_source (Member.id (this e)) message)))) ∧
    _computeSessionSig {| this := this e'; rng := rng e |} = (e', Ok sig) ∧
    this e'
    = Member.set_authenticatedMembers
        (Some (array_set (indexOf (Msg.source message) (Msg.members message)) true
                 (array_set (indexOf (Member.id (this e)) (Msg.members message)) true
                    (_arrayMaker (length (Msg.members message)) false))))
        (adopt_session message (this e)) ∧
    Member.sessionId (this e')
    = Some (_computeSid (Msg.members message) (Msg.nonces message)) ∧
    Member.members (this e') = Msg.members message ∧
    Member.nonces (this e') = Some (Msg.nonces message) ∧
    Member.ephemeralPubKeys (this e') = Some (Msg.pubKeys message) ∧
    Member.nonce (this e') = Member.nonce (this e) ∧
    Member.ephemeralPubKey (this e') = Some pub.
Proof.
  intros Hsane Hsign Hpub Hpubt Hnd Hsid Hver.
  set (st := Member.set_authenticatedMembers
              (Some (array_set (indexOf (Msg.source message) (Msg.members message)) true
                       (array_set (indexOf (Member.id (this e)) (Msg.members message))
                          true (_arrayMaker (length (Msg.members message)) false))))
              (adopt_session message (this e))).
  destruct (computeSessionSig_ok {| this := st; rng := rng e |}
              (_computeSid (Msg.members message) (Msg.nonces message)) pub)
    as (g & sig & Hsig); [done|done|done|by apply sid_truthy|done|done|].
  exists {| this := st; rng := g |}, sig. split.
  - by apply downflow_new_session_ok.
  - done.
Qed.

(** X24: a downflow message for the session the member is already in: with
    a signature that verifies, the member marks the slot at the position
    the sender has in the member list of the message, changes nothing else
    and returns [null]; otherwise the call fails and the member is as it
    was. The marked slot is the sender's own only where the message lists
    the members in the member's own order. *)
Theorem downflow_existing_session_atomic (e : Env) (message : Msg.t) auth :
  NoDup (Msg.members message) →
  Member.sessionId (this e)
  = Some (_computeSid (Msg.members message) (Msg.nonces message)) →
  Member.authenticatedMembers (this e) = Some auth →
  ((_verifySessionSig (Msg.source message) (Msg.sessionSignature message) e).2
   = Ok true →
   downflow message e
   = ({| this := Member.set_authenticatedMembers
                   (Some (array_set
                            (indexOf (Msg.source message) (Msg.members message))
                            true auth)) (this e);
         rng := rng e |}, Ok None)) ∧
  ((_verifySessionSig (Msg.source message) (Msg.sessionSignature message) e).2
   ≠ Ok true →
   (downflow message e).1 = e ∧ ∀ v, (downflow message e).2 ≠ Ok v).
Proof.
  intros Hnd Hsid Hauth. split; intros Hver.
  - by apply downflow_existing_session.
  - unfold downflow, _noDuplicatesInList.
    rewrite bool_decide_true by done. unfold_M. simpl.
    rewrite bool_decide_true by done. simpl.
    pose proof (verifySessionSig_readonly (Msg.source message)
                  (Msg.sessionSignature message) e) as Hro.
    destruct (_verifySessionSig _ _ e) as [e1 r]. simpl in *. subst e1.
    destruct r as [[]| |]; simpl; try done.
Qed.

Local Arguments array_set : simpl never.

(** X25: one round of the key agreement, between two members that can
    sign, each holding the static public key of the other, with key pairs
    on which the RSA primitives undo each other on the signed blocks. The
    last member of the chain closes the upflow with its broadcast, signed
    with its session signature; a member that contributed its nonce and
    ephemeral public key earlier accepts the broadcast and answers with
    the same message under its own name and session signature; the last
    member accepts that acknowledgement. Both then hold the same session
    id, members, nonces and public keys, and each has marked itself and
    the other as authenticated; in a group of two the session is then
    acknowledged on both sides. *)
Theorem handshake_round (last other : Env) (message : Msg.t)
    privL pubL privR pubR dirL dirR posR nR pR :
  crypto_sane → random_in_range →
  NoDup (Msg.members message) →
  length (Msg.nonces message) = length (Msg.members message) - 1 →
  length (Msg.pubKeys message) = length (Msg.members message) - 1 →
  indexOf (Member.id (this last)) (Msg.members message)
  = Some (length (Msg.members message) - 1) →
  indexOf (Member.id (this other)) (Msg.members message) = Some posR →
  Member.id (this other) ≠ Member.id (this last) →
  Member.nonce (this other) = Some nR → Msg.nonces message !! posR = Some nR →
  Member.ephemeralPubKey (this other) = Some pR →
  Msg.pubKeys message !! posR = Some pR → truthy pR = true →
  (∀ nonce, Member.sessionId (this other)
            ≠ Some (_computeSid (Msg.members message) (Msg.nonces message ++ [nonce]))) →
  Member.staticPrivKey (this last) = Some privL → (42 < sign_keyLength privL)%Z →
  Member.staticPrivKey (this other) = Some privR → (42 < sign_keyLength privR)%Z →
  Member.staticPubKeyDir (this last) = Some dirL →
  dirL !! Member.id (this other) = Some pubR →
  Member.staticPubKeyDir (this other) = Some dirR →
  dirR !! Member.id (this last) = Some pubL →
  rsa_inverts privL pubL → rsa_inverts privR pubR →
  let nonces' := Msg.nonces message ++ [upflow_nonce (rng last)] in
  let pubKeys' := Msg.pubKeys message
                  ++ [bytes2string (publickey (upflow_privKey (rng last)))] in
  let sid := _computeSid (Msg.members message) nonces' in
  ∃ last1 sigL other1 sigR last2,
    upflow message last
    = (last1, Ok (Msg.mk (Member.id (this last)) "" "downflow" (Msg.members message)
                         nonces' pubKeys' (Some sigL))) ∧
    _computeSessionSig {| this := this last1; rng := upflow_rng (rng last) |}
    = (last1, Ok sigL) ∧
    downflow (Msg.mk (Member.id (this last)) "" "downflow" (Msg.members message)
                     nonces' pubKeys' (Some sigL)) other
    = (other1, Ok (Some (Msg.mk (Member.id (this other)) "" "downflow"
                                (Msg.members message) nonces' pubKeys' (Some sigR)))) ∧
    _computeSessionSig {| this := this other1; rng := rng other |}
    = (other1, Ok sigR) ∧
    downflow (Msg.mk (Member.id (this other)) "" "downflow" (Msg.members message)
                     nonces' pubKeys' (Some sigR)) last1
    = (last2, Ok None) ∧
    Member.sessionId (this last2) = Some sid ∧
    Member.sessionId (this other1) = Some sid ∧
    Member.members (this last2) = Msg.members message ∧
    Member.members (this other1) = Msg.members message ∧
    Member.nonces (this last2) = Some nonces' ∧
    Member.nonces (this other1) = Some nonces' ∧
    Member.ephemeralPubKeys (this last2) = Some pubKeys' ∧
    Member.ephemeralPubKeys (this other1) = Some pubKeys' ∧
    Member.authenticatedMembers (this last2)
    = Some (<[posR := Some true]>
              (<[length (Msg.members message) - 1 := Some true]>
                 (replicate (length (Msg.members message)) (Some false)))) ∧
    Member.authenticatedMembers (this other1)
    = Member.authenticatedMembers (this last2) ∧
    (length (Msg.members message) = 2 →
     isSessionAcknowledged last2 = (last2, Ok true) ∧
     isSessionAcknowledged other1 = (other1, Ok true)).
Proof.
  intros Hsane Hrange Hnd Hn Hp HposL HposR Hids HnR HnRm HpR HpRm HpRt Hfresh
    HprivL HlenL HprivR HlenR HdirL HdirLR HdirR HdirRL HinvL HinvR.
  cbv zeta. unfold upflow_nonce, upflow_privKey, upflow_rng.
  set (n := length (Msg.members message)) in *.
  assert (posR < n - 1) as HltR.
  { apply indexOf_Some in HposR as [HR _]. apply indexOf_Some in HposL as [HL _].
    pose proof (lookup_lt_Some _ _ _ HR) as Hlt. fold n in Hlt.
    destruct (decide (posR = n - 1)) as [->|]; [congruence|lia]. }
  set (k1 := _newKey08 256 (rng last)). set (k2 := _newKey08 512 k1.2).
  set (nL := bytes2string k1.1).
  set (pL := bytes2string (publickey (bytes2string k2.1))).
  set (stL := close_chain message nL (bytes2string k2.1) (this last)).
  set (sid := _computeSid (Msg.members message) (Msg.nonces message ++ [nL])).
  set (proto := Msg.mk (Member.id (this last)) "" "downflow" (Msg.members message)
                       (Msg.nonces message ++ [nL]) (Msg.pubKeys message ++ [pL]) None).
  (* the broadcast of the last member, and its check by the other one *)
  destruct (session_sig_accepted {| this := stL; rng := k2.2 |}
              {| this := adopt_session proto (this other); rng := rng other |}
              privL pubL sid pL nL (n - 1) (Msg.pubKeys message ++ [pL])
              (Msg.nonces message ++ [nL]) dirR)
    as (gL & sigL & HsigL & HverL); try done.
  { by apply sid_truthy. }
  { apply bytes2string_truthy, Hsane. }
  { rewrite lookup_app_r by lia. by replace (n - 1 - length (Msg.pubKeys message)) with 0 by lia. }
  { rewrite lookup_app_r by lia. by replace (n - 1 - length (Msg.nonces message)) with 0 by lia. }
  simpl in HsigL, HverL.
  set (broadcast := Msg.set_sessionSignature (Some sigL) proto).
  pose proof (upflow_last last message gL sigL Hnd ltac:(lia) ltac:(lia) HposL HsigL)
    as Hup.
  (* the acknowledgement of the other member, and its check by the last one *)
  set (stR := Member.set_authenticatedMembers
                (Some (array_set (indexOf (Msg.source broadcast) (Msg.members broadcast))
                         true
                         (array_set (indexOf (Member.id (this other))
                                       (Msg.members broadcast))
                            true (_arrayMaker (length (Msg.members broadcast)) false))))
                (adopt_session broadcast (this other))).
  destruct (session_sig_accepted {| this := stR; rng := rng other |}
              {| this := stL; rng := gL |}
              privR pubR sid pR nR posR (Msg.pubKeys message ++ [pL])
              (Msg.nonces message ++ [nL]) dirL)
    as (gR & sigR & HsigR & HverR); try done.
  { by apply sid_truthy. }
  { rewrite lookup_app_l by lia. done. }
  { rewrite lookup_app_l by lia. done. }
  simpl in HsigR, HverR.
  pose proof (downflow_new_session_ok other broadcast gR sigR Hnd (Hfresh nL)) as Hdown.
  assert (adopt_session broadcast (this other) = adopt_session proto (this other))
    as Hadopt by reflexivity.
  simpl in Hdown. specialize (Hdown ltac:(by rewrite Hadopt, HverL) HsigR).
  set (ack := Msg.set_sessionSignature (Some sigR)
                (Msg.set_source (Member.id (this other)) broadcast)) in *.
  pose proof (downflow_existing_session {| this := stL; rng := gL |} ack
                (array_set (Some (n - 1)) true (_arrayMaker n false)) Hnd eq_refl)
    as Hack.
  simpl in Hack. specialize (Hack ltac:(by rewrite HverR)).
  rewrite HposL in Hack. specialize (Hack eq_refl).
  rewrite HposR in Hack.
  exists {| this := stL; rng := gL |}, sigL, {| this := stR; rng := gR |}, sigR.
  eexists. split; [exact Hup|]. split; [exact HsigL|]. split; [exact Hdown|].
  split; [exact HsigR|]. split; [exact Hack|].
  assert (array_set (Some posR) true (array_set (Some (n - 1)) true (_arrayMaker n false))
          = <[posR := Some true]> (<[n - 1 := Some true]> (replicate n (Some false))))
    as Hauth.
  { unfold _arrayMaker.
    rewrite (array_set_lt (n - 1)) by (rewrite length_replicate; lia).
    by rewrite array_set_lt by (rewrite length_insert, length_replicate; lia). }
  assert (array_set (Some (n - 1)) true (array_set (Some posR) true (_arrayMaker n false))
          = <[posR := Some true]> (<[n - 1 := Some true]> (replicate n (Some false))))
    as Hauth'.
  { unfold _arrayMaker.
    rewrite (array_set_lt posR) by (rewrite length_replicate; lia).
    rewrite array_set_lt by (rewrite length_insert, length_replicate; lia).
    apply list_insert_insert_ne. lia. }
  simpl. fold n. rewrite HposL, HposR, Hauth, Hauth'. split_and!; try done.
  intros Hn2. subst stR. unfold isSessionAcknowledged. unfold_M. simpl.
  fold n. rewrite ?HposL, ?HposR, ?Hauth, ?Hauth'.
  assert (posR = 0) as -> by lia. rewrite Hn2. done.
Qed.

(** *** Encryption *)

(** X26: [_smallrsaencrypt] refuses a text that is too long for the key
    before anything is drawn from the random source. For a text that fits,
    with padding bytes in range and a key pair on which the RSA primitives
    undo each other on the blocks of the key length, [_smallrsadecrypt]
    gives back the text that [_smallrsaencrypt] encrypted. *)
Theorem smallrsa_encrypt_decrypt cleartext privkey pubkey (e : Env) :
  (¬ (Z.of_nat (String.length cleartext) < encrypt_keyLength pubkey - 10)%Z →
   _smallrsaencrypt cleartext pubkey e
   = (e, Throw (AssertionError "message too long for encoding scheme"))) ∧
  ((Z.of_nat (String.length cleartext) < encrypt_keyLength pubkey - 10)%Z →
   random_in_range → rsa_decrypts privkey pubkey →
   ∃ g cipher,
     _smallrsaencrypt cleartext pubkey e
     = ({| this := this e; rng := g |}, Ok cipher) ∧
     ∀ e' : Env, _smallrsadecrypt cipher privkey e' = (e', Ok cleartext)).
Proof.
  split.
  - intros Hlen. unfold _smallrsaencrypt, _pkcs1v15_encode. unfold_M. simpl.
    by rewrite bool_decide_false.
  - intros Hlen Hrange Hinv.
    destruct (pkcs1v15_encode_block cleartext (encrypt_keyLength pubkey) e Hrange Hlen)
      as (g & encoded & Henc & Hblock & Hdec).
    unfold _smallrsaencrypt. unfold_M. simpl. rewrite Henc. simpl.
    eexists _, _. split; [done|]. intros e'.
    unfold _smallrsadecrypt. rewrite Hinv by done. apply Hdec.
Qed.

End SkeInvariants.

(** *** On the toy session *)

Lemma toy_random_in_range : Ske.random_in_range (crypto := Ske.Toy.crypto).
Proof. intros g. simpl. apply Z.mod_pos_bound. lia. Qed.

Lemma toy_codes_round_trip s : Ske.Toy.codes_string (Ske.Toy.string_codes s) = s.
Proof.
  induction s as [|c s IH]; [done|]. simpl. rewrite IH, N2Z.id.
  by rewrite ascii_N_embedding.
Qed.

Lemma toy_rsa_inverts :
  Ske.rsa_inverts (crypto := Ske.Toy.crypto) Ske.Toy.privkey Ske.Toy.pubkey.
Proof.
  intros data. unfold Ske._mpi2binstring, Ske._binstring2mpi. simpl.
  rewrite !toy_codes_round_trip. reflexivity.
Qed.

Lemma pkcs1v15_round_trip_witness :
  ∃ g encoded,
    Ske._pkcs1v15_encode "hello" 32 Ske.Toy.alice0
    = ({| Ske.this := Ske.this Ske.Toy.alice0; Ske.rng := g |}, Ok encoded) ∧
    Z.of_nat (String.length encoded) = 32%Z ∧
    ∀ e' : Ske.Toy.Env, Ske._pkcs1v15_decode encoded e' = (e', Ok "hello").
Proof.
  apply (pkcs1v15_round_trip (crypto := Ske.Toy.crypto)).
  - apply toy_random_in_range.
  - vm_compute. reflexivity.
Defined.

Lemma session_signature_verifies_witness :
  ∃ g sig,
    Ske._computeSessionSig Ske.Toy.alice1.1
    = ({| Ske.this := Ske.this Ske.Toy.alice1.1; Ske.rng := g |}, Ok sig) ∧
    Ske._verifySessionSig (Ske.Member.id (Ske.this Ske.Toy.alice1.1)) (Some sig)
      Ske.Toy.bob2.1
    = (Ske.Toy.bob2.1, Ok true).
Proof.
  eapply (session_signature_verifies (crypto := Ske.Toy.crypto)
            Ske.Toy.alice1.1 Ske.Toy.bob2.1 Ske.Toy.privkey Ske.Toy.pubkey).
  1: exact toy_crypto_sane.
  1: exact toy_random_in_range.
  1: exact toy_rsa_inverts.
  1: vm_compute; reflexivity.
  3-14: vm_compute; reflexivity.
  all: vm_compute; reflexivity.
Defined.

Lemma smallrsa_round_trip_witness :
  ∃ g sig,
    Ske._smallrsasign "hello" (Some Ske.Toy.privkey) Ske.Toy.alice0
    = ({| Ske.this := Ske.this Ske.Toy.alice0; Ske.rng := g |}, Ok sig) ∧
    ∀ e' : Ske.Toy.Env, Ske._smallrsaverify (Some sig) Ske.Toy.pubkey e' = (e', Ok "hello").
Proof.
  apply (smallrsa_round_trip (crypto := Ske.Toy.crypto)).
  - exact toy_random_in_range.
  - exact toy_rsa_inverts.
  - vm_compute. reflexivity.
Defined.

Lemma upflow_rejects_unchanged_witness :
  ∃ text,
    Ske.upflow (Ske.Msg.mk "bob" "carol" "upflow" ["bob"; "carol"] ["n"] ["k"] None)
      Ske.Toy.alice0
    = (Ske.Toy.alice0, Throw (AssertionError text)).
Proof.
  apply (upflow_rejects_unchanged (crypto := Ske.Toy.crypto)).
  do 3 right. refine (bool_decide_unpack _ _). vm_compute. exact I.
Defined.

Lemma commit_starts_upflow_witness :
  ∃ e' message,
    Ske.commit ["carol"; "alice"] Ske.Toy.bob0 = (e', Ok message) ∧
    Ske.Msg.dest message = "carol" ∧
    Ske.Msg.members message = ["bob"; "carol"; "alice"].
Proof.
  pose proof (commit_starts_upflow (crypto := Ske.Toy.crypto) Ske.Toy.bob0
                ["carol"; "alice"] "carol" ["alice"] eq_refl) as Hcommit.
  cbv zeta in Hcommit.
  destruct (decide (NoDup (Ske.Member.id (Ske.this Ske.Toy.bob0) :: ["carol"; "alice"])))
    as [_|Hdup].
  - eexists _, _. split; [exact Hcommit|]. split; reflexivity.
  - exfalso. apply Hdup. refine (bool_decide_unpack _ _). vm_compute. exact I.
Defined.

Lemma exclude_keeps_alignment_witness :
  ∃ e' nonces' pubKeys' sig,
    Ske.exclude ["carol"] Ske.Toy.alice1.1
    = (e', Ok (Ske.Msg.mk "alice" "" "downflow" ["bob"; "alice"] nonces' pubKeys'
                          (Some sig))) ∧
    Ske.Member.members (Ske.this e') = ["bob"; "alice"].
Proof.
  destruct (exclude_keeps_alignment (crypto := Ske.Toy.crypto) Ske.Toy.alice1.1
              ["carol"]
              (default [] (Ske.Member.nonces (Ske.this Ske.Toy.alice1.1)))
              (default [] (Ske.Member.ephemeralPubKeys (Ske.this Ske.Toy.alice1.1)))
              (default [] (Ske.Member.authenticatedMembers (Ske.this Ske.Toy.alice1.1))))
    as (e' & members' & nonces' & pubKeys' & sig & Hex & _ & Hm & _ & _ & Hm' & _).
  - exact toy_crypto_sane.
  - exists Ske.Toy.privkey. split; [reflexivity|]. vm_compute. reflexivity.
  - eexists. split; vm_compute; reflexivity.
  - done.
  - refine (bool_decide_unpack _ _). vm_compute. exact I.
  - refine (bool_decide_unpack _ _). vm_compute. exact I.
  - refine (bool_decide_unpack _ _). vm_compute. exact I.
  - refine (bool_decide_unpack _ _). vm_compute. exact I.
  - vm_compute. reflexivity.
  - vm_compute. reflexivity.
  - vm_compute. reflexivity.
  - vm_compute. reflexivity.
  - vm_compute. reflexivity.
  - assert (members' = ["bob"; "alice"]) as Heq.
    { rewrite Hm. vm_compute. reflexivity. }
    rewrite Heq in Hex, Hm'. exists e', nonces', pubKeys', sig.
    split; [exact Hex|exact Hm'].
Defined.


Lemma downflow_adopts_new_session_witness :
  ∃ e' sig,
    Ske.downflow (Ske.Toy.message_of Ske.Toy.empty_message Ske.Toy.alice1) Ske.Toy.bob1.1
    = (e', Ok (Some (Ske.Msg.set_sessionSignature (Some sig)
                       (Ske.Msg.set_source "bob"
                          (Ske.Toy.message_of Ske.Toy.empty_message Ske.Toy.alice1))))) ∧
    Ske.Member.members (Ske.this e') = ["bob"; "carol"; "alice"] ∧
    Ske.Member.authenticatedMembers (Ske.this e')
    = Some [Some true; Some false; Some true].
Proof.
  destruct (downflow_adopts_new_session (crypto := Ske.Toy.crypto) Ske.Toy.bob1.1
              (Ske.Toy.message_of Ske.Toy.empty_message Ske.Toy.alice1)
              (default "" (Ske.Member.ephemeralPubKey (Ske.this Ske.Toy.bob1.1))))
    as (e' & sig & Hdown & _ & Hthis & _ & Hmembers & _).
  - exact toy_crypto_sane.
  - exists Ske.Toy.privkey. split; [reflexivity|]. vm_compute. reflexivity.
  - vm_compute. reflexivity.
  - vm_compute. reflexivity.
  - refine (bool_decide_unpack _ _). vm_compute. exact I.
  - vm_compute. discriminate.
  - vm_compute. reflexivity.
  - exists e', sig. split; [exact Hdown|]. split; [exact Hmembers|].
    rewrite Hthis. vm_compute. reflexivity.
Defined.

Lemma downflow_existing_session_atomic_witness :
  Ske.downflow Ske.Toy.bob_ack Ske.Toy.alice1.1
  = ({| Ske.this := Ske.Member.set_authenticatedMembers
                      (Some [Some true; Some false; Some true])
                      (Ske.this Ske.Toy.alice1.1);
        Ske.rng := Ske.rng Ske.Toy.alice1.1 |}, Ok None).
Proof.
  apply (downflow_existing_session_atomic (crypto := Ske.Toy.crypto) Ske.Toy.alice1.1
           Ske.Toy.bob_ack [Some false; Some false; Some true]).
  - refine (bool_decide_unpack _ _). vm_compute. exact I.
  - vm_compute. reflexivity.
  - vm_compute. reflexivity.
  - vm_compute. reflexivity.
Defined.

Lemma handshake_round_witness :
  ∃ last1 broadcast other1 ack last2 sid,
    Ske.upflow (Ske.Toy.message_of Ske.Toy.empty_message Ske.Toy.carol1) Ske.Toy.alice0
    = (last1, Ok broadcast) ∧
    Ske.downflow broadcast Ske.Toy.bob1.1 = (other1, Ok (Some ack)) ∧
    Ske.downflow ack last1 = (last2, Ok None) ∧
    Ske.Member.sessionId (Ske.this last2) = Some sid ∧
    Ske.Member.sessionId (Ske.this other1) = Some sid ∧
    Ske.Member.authenticatedMembers (Ske.this last2)
    = Some [Some true; Some false; Some true].
Proof.
  destruct (handshake_round (crypto := Ske.Toy.crypto) Ske.Toy.alice0 Ske.Toy.bob1.1
              (Ske.Toy.message_of Ske.Toy.empty_message Ske.Toy.carol1)
              Ske.Toy.privkey Ske.Toy.pubkey Ske.Toy.privkey Ske.Toy.pubkey
              Ske.Toy.directory Ske.Toy.directory 0
              (default "" (Ske.Member.nonce (Ske.this Ske.Toy.bob1.1)))
              (default "" (Ske.Member.ephemeralPubKey (Ske.this Ske.Toy.bob1.1))))
    as (last1 & sigL & other1 & sigR & last2 & Hup & _ & Hdown & _ & Hack & Hsid
        & Hsid' & _ & _ & _ & _ & _ & _ & Hauth & _).
  - exact toy_crypto_sane.
  - exact toy_random_in_range.
  - refine (bool_decide_unpack _ _). vm_compute. exact I.
  - vm_compute. reflexivity.
  - vm_compute. reflexivity.
  - vm_compute. reflexivity.
  - vm_compute. reflexivity.
  - vm_compute. discriminate.
  - vm_compute. reflexivity.
  - vm_compute. reflexivity.
  - vm_compute. reflexivity.
  - vm_compute. reflexivity.
  - vm_compute. reflexivity.
  - intros nonce.
    assert (Ske.Member.sessionId (Ske.this Ske.Toy.bob1.1) = None) as ->
      by (vm_compute; reflexivity).
    discriminate.
  - reflexivity.
  - vm_compute. reflexivity.
  - vm_compute. reflexivity.
  - vm_compute. reflexivity.
  - vm_compute. reflexivity.
  - vm_compute. reflexivity.
  - vm_compute. reflexivity.
  - vm_compute. reflexivity.
  - exact toy_rsa_inverts.
  - exact toy_rsa_inverts.
  - eexists last1, _, other1, _, last2, _.
    split; [exact Hup|]. split; [exact Hdown|]. split; [exact Hack|].
    split; [exact Hsid|]. split; [exact Hsid'|]. exact Hauth.
Defined.

Lemma toy_rsa_decrypts :
  Ske.rsa_decrypts (crypto := Ske.Toy.crypto) Ske.Toy.privkey Ske.Toy.pubkey.
Proof.
  intros data. unfold Ske._mpi2binstring, Ske._binstring2mpi. simpl.
  rewrite !toy_codes_round_trip. reflexivity.
Qed.

Lemma smallrsa_encrypt_decrypt_witness :
  ∃ g cipher,
    Ske._smallrsaencrypt "hello" Ske.Toy.pubkey Ske.Toy.alice0
    = ({| Ske.this := Ske.this Ske.Toy.alice0; Ske.rng := g |}, Ok cipher) ∧
    ∀ e' : Ske.Toy.Env, Ske._smallrsadecrypt cipher Ske.Toy.privkey e' = (e', Ok "hello").
Proof.
  destruct (smallrsa_encrypt_decrypt (crypto := Ske.Toy.crypto) "hello"
              Ske.Toy.privkey Ske.Toy.pubkey Ske.Toy.alice0) as [_ Hround].
  apply Hround.
  - vm_compute. reflexivity.
  - exact toy_random_in_range.
  - exact toy_rsa_decrypts.
Defined.

(** ** The causal transcript *)

Section TranscriptProperties.

Import BaseTranscript.

Context {merger : Merger}.

Implicit Types (s : t) (m p : string) (msg : Message.t).

Lemma wf_index_lt s m i : wf s → index s m = Some i → i < _length s.
Proof.
  intros Hwf Hi. rewrite (wf_length s Hwf).
  apply (wf_index s Hwf) in Hi. by eapply lookup_lt_Some.
Qed.

Lemma wf_has_index s m : wf s → m ∈ dom (_messages s) ↔ is_Some (index s m).
Proof.
  intros Hwf. rewrite <-(wf_index_dom s Hwf). unfold index. apply elem_of_dom.
Qed.

Lemma wf_index_inj s a b i : wf s → index s a = Some i → index s b = Some i → a = b.
Proof.
  intros Hwf Ha Hb. apply (wf_index s Hwf) in Ha, Hb. congruence.
Qed.

Lemma safeGet_Ok {V} (map : gmap string V) key v :
  safeGet map key = Ok v ↔ map !! key = Some v.
Proof. unfold safeGet. destruct (map !! key); naive_solver. Qed.

Lemma get_defined_Ok {V} (map : gmap string V) key v :
  get_defined map key = Ok v ↔ map !! key = Some v.
Proof. unfold get_defined. destruct (map !! key); naive_solver. Qed.

Lemma le_any_total (le : string → string → outcome bool) m0 l :
  (∀ p, p ∈ l → ∃ b, le m0 p = Ok b) → ∃ b, le_any le m0 l = Ok b.
Proof.
  induction l as [|p l IH]; intros Hl; simpl; [eauto|].
  destruct (Hl p) as [b ->]; [left|]. simpl. destruct b; [eauto|].
  apply IH. intros q Hq. apply Hl. by right.
Qed.

Lemma le_any_true (le : string → string → outcome bool) m0 l :
  le_any le m0 l = Ok true ↔
  ∃ l1 p l2, l = l1 ++ p :: l2 ∧ le m0 p = Ok true ∧ ∀ q, q ∈ l1 → le m0 q = Ok false.
Proof.
  induction l as [|p l IH]; simpl.
  { split; [done|]. intros (l1 & q & l2 & Hl & _). by destruct l1. }
  destruct (le m0 p) as [[]| |] eqn:Hp; simpl.
  - split; [|done]. intros _. exists [], p, l. split_and!; [done..|]. by intros ? ?%elem_of_nil.
  - rewrite IH. split.
    + intros (l1 & q & l2 & -> & Hq & Hl1). exists (p :: l1), q, l2.
      split_and!; [done..|]. intros q' [->|?]%elem_of_cons; auto.
    + intros (l1 & q & l2 & Hl & Hq & Hl1). destruct l1 as [|p' l1]; simplify_eq/=.
      { congruence. }
      exists l1, q, l2. split_and!; [done..|]. intros q' Hq'. apply Hl1. by right.
  - split; [done|]. intros (l1 & q & l2 & Hl & Hq & Hl1).
    destruct l1 as [|p' l1]; simplify_eq/=; [congruence|].
    specialize (Hl1 p'). rewrite Hp in Hl1. discriminate Hl1. by left.
  - split; [done|]. intros (l1 & q & l2 & Hl & Hq & Hl1).
    destruct l1 as [|p' l1]; simplify_eq/=; [congruence|].
    specialize (Hl1 p'). rewrite Hp in Hl1. discriminate Hl1. by left.
Qed.

Lemma le_any_false (le : string → string → outcome bool) m0 l :
  (∀ p, p ∈ l → le m0 p = Ok false) → le_any le m0 l = Ok false.
Proof.
  induction l as [|p l IH]; intros Hl; simpl; [done|].
  rewrite (Hl p) by left. simpl. apply IH. intros q Hq. apply Hl. by right.
Qed.

(** [le] answers on accepted messages: its calls nest no deeper than the
    accept index of the second argument. *)
Lemma le_fuel_total s fuel m0 m1 j :
  wf s → m0 ∈ dom (_messages s) → index s m1 = Some j → j < fuel →
  ∃ b, le_fuel fuel s m0 m1 = Ok b.
Proof.
  intros Hwf Hm0. revert m1 j. induction fuel as [|fuel IH]; intros m1 j Hj Hlt; [lia|].
  simpl. case_decide; [eauto|].
  assert (m1 ∈ dom (_messages s)) as Hm1 by (apply wf_has_index; eauto).
  apply elem_of_dom in Hm0 as [msg0 Hmsg0]. apply elem_of_dom in Hm1 as [msg1 Hmsg1].
  unfold author, safeGet, get_defined. rewrite Hmsg0, Hmsg1. simpl.
  case_decide; [eauto|]. simpl.
  destruct (set_has _ _).
  { assert (is_Some (_context s !! m1)) as [c ->]; [|simpl; eauto].
    apply elem_of_dom. rewrite (wf_context_dom s Hwf). by apply elem_of_dom. }
  destruct (js_gt _ _); [eauto|].
  unfold pre, safeGet. rewrite Hmsg1. simpl.
  apply le_any_total. intros p Hp%elem_of_elements.
  destruct (wf_parents s Hwf m1 msg1 p) as (i & j' & Hi & Hj' & Hij); [done..|].
  apply (IH p i); [done|]. simplify_eq. lia.
Qed.

Lemma le_total s m0 m1 :
  wf s → m0 ∈ dom (_messages s) → m1 ∈ dom (_messages s) →
  ∃ b, le s m0 m1 = Ok b.
Proof.
  intros Hwf Hm0 Hm1. apply wf_has_index in Hm1 as [j Hj]; [|done].
  apply (le_fuel_total s _ m0 m1 j); [done..|].
  apply wf_index_lt in Hj; [lia|done].
Qed.

Lemma js_le_true a b : js_le a b = true ↔ ∃ x y, a = Some x ∧ b = Some y ∧ x ≤ y.
Proof.
  unfold js_le.
  destruct a as [x|], b as [y|];
    try (split; [done|]; intros (? & ? & ? & ? & ?); done).
  rewrite bool_decide_eq_true. split; [eauto 6|].
  intros (? & ? & ? & ? & ?). by simplify_eq.
Qed.

(** Two messages of one author are accepted in the order of their author
    indices. *)
Lemma wf_author_index_order s a b u msga msgb x y i j :
  wf s →
  _messages s !! a = Some msga → Message.author msga = Some u →
  _messages s !! b = Some msgb → Message.author msgb = Some u →
  _authorIndex s !! a = Some x → _authorIndex s !! b = Some y → x ≤ y →
  index s a = Some i → index s b = Some j → i ≤ j.
Proof.
  intros Hwf Ha Hua Hb Hub Hx Hy Hxy Hi Hj.
  destruct (wf_authored s Hwf a msga Ha) as (u1 & l1 & x1 & ? & Hl1 & ? & Hx1).
  destruct (wf_authored s Hwf b msgb Hb) as (u2 & l2 & y1 & ? & Hl2 & ? & Hy1).
  simplify_eq. by eapply (wf_author_order s Hwf u l1 x y a b i j).
Qed.

(** Accept order extends [le], whatever the fuel. *)
Lemma le_fuel_index s fuel a b i j :
  wf s → index s a = Some i → index s b = Some j →
  le_fuel fuel s a b = Ok true → i ≤ j.
Proof.
  intros Hwf Hi. revert b j. induction fuel as [|fuel IH]; intros b j Hj; [done|].
  simpl. case_decide as Hab; [intros _; simplify_eq; lia|].
  assert (a ∈ dom (_messages s)) as [msga Ha]%elem_of_dom by (apply wf_has_index; eauto).
  assert (b ∈ dom (_messages s)) as [msgb Hb]%elem_of_dom by (apply wf_has_index; eauto).
  unfold author, safeGet, get_defined. rewrite Ha, Hb. simpl.
  destruct (wf_authored s Hwf a msga Ha) as (ua & la & x & Hua & Hla & Hx & Hxa).
  destruct (wf_authored s Hwf b msgb Hb) as (ub & lb & y & Hub & Hlb & Hy & Hyb).
  case_decide as Hu; simpl.
  { intros [= (x' & y' & ? & ? & ?)%js_le_true]. simplify_eq.
    eapply (wf_author_index_order s a b ub); eauto. congruence. }
  rewrite Hua. simpl. case_bool_decide as Hreader.
  - destruct (_context s !! b) as [c|] eqn:Hc; simpl; [|done].
    destruct (c !! ua) as [[p0|]|] eqn:Hp0; [|done..].
    intros [= (x' & y' & ? & Hy' & ?)%js_le_true]. simplify_eq.
    destruct (wf_context s Hwf b c ua p0 Hc Hp0)
      as ((msgp & Hp & Hup) & i' & j' & Hi' & Hj' & Hlt).
    assert (i ≤ i'); [|simplify_eq; lia].
    eapply (wf_author_index_order s a p0 ua); eauto.
  - destruct (js_gt _ _); [done|].
    unfold pre, safeGet. rewrite Hb. simpl.
    intros (l1 & p & l2 & Hl & Hp & _)%le_any_true.
    assert (p ∈ Message.parents msgb) as Hpin.
    { apply elem_of_elements. rewrite Hl. set_solver. }
    destruct (wf_parents s Hwf b msgb p Hb Hpin) as (i' & j' & Hi' & Hj' & Hlt).
    specialize (IH p i' Hi' Hp). simplify_eq. lia.
Qed.


(** *** Loops *)

Lemma foldM_total {A B} (P : B → Prop) (f : B → A → outcome B) b l :
  P b → (∀ b x, P b → x ∈ l → ∃ b', f b x = Ok b' ∧ P b') →
  ∃ b', foldM f b l = Ok b' ∧ P b'.
Proof.
  revert b. induction l as [|x l IH]; intros b Hb Hf; simpl; [eauto|].
  destruct (Hf b x Hb) as (b1 & -> & Hb1); [left|]. simpl.
  apply IH; [done|]. intros b2 y Hb2 Hy. apply Hf; [done|by right].
Qed.

Lemma foldM_Ok_inv {A B} (P : B → Prop) (f : B → A → outcome B) b l b' :
  foldM f b l = Ok b' → P b →
  (∀ b x b', P b → x ∈ l → f b x = Ok b' → P b') → P b'.
Proof.
  revert b. induction l as [|x l IH]; intros b Hfold Hb Hf; simpl in *.
  { by simplify_eq. }
  destruct (f b x) as [b1| |] eqn:Hb1; simplify_eq/=.
  apply (IH b1); [done| |].
  - apply (Hf b x); [done|left|done].
  - intros b2 y b3 Hb2 Hy. apply Hf; [done|by right].
Qed.

Lemma filterM_Ok_inv {A} (f : A → outcome bool) l r :
  filterM f l = Ok r →
  (∀ x, x ∈ l → ∃ b, f x = Ok b) ∧ (∀ x, x ∈ r ↔ x ∈ l ∧ f x = Ok true).
Proof.
  unfold filterM.
  assert (∀ acc,
    foldM (λ acc x, b ← f x; Ok (if b : bool then acc ++ [x] else acc)) acc l = Ok r →
    (∀ x, x ∈ l → ∃ b, f x = Ok b) ∧
    (∀ x, x ∈ r ↔ x ∈ acc ∨ (x ∈ l ∧ f x = Ok true))) as Hgen.
  { induction l as [|y l IH]; intros acc Hfold; simpl in *.
    - simplify_eq. split; [by intros ? ?%elem_of_nil|]. set_solver.
    - destruct (f y) as [b| |] eqn:Hy; simplify_eq/=.
      apply IH in Hfold as [Htot Hr]. split.
      + intros x [->|?]%elem_of_cons; eauto.
      + intros x. rewrite Hr, elem_of_cons. destruct b.
        * rewrite elem_of_app, list_elem_of_singleton. split.
          -- intros [[?| ->]|[? ?]]; eauto.
          -- intros [?|[[-> |?] ?]]; eauto.
        * split.
          -- intros [?|[? ?]]; eauto.
          -- intros [?|[[-> |?] ?]]; eauto. congruence. }
  intros [Htot Hr]%Hgen. split; [done|]. intros x. rewrite Hr. set_solver.
Qed.

Lemma filterM_total {A} (f : A → outcome bool) l :
  (∀ x, x ∈ l → ∃ b, f x = Ok b) → ∃ r, filterM f l = Ok r.
Proof.
  intros Hf. unfold filterM.
  destruct (foldM_total (λ _, True)
              (λ acc x, b ← f x; Ok (if b : bool then acc ++ [x] else acc)) [] l)
    as (r & Hr & _); [done| |eauto].
  intros acc x _ Hx. destruct (Hf x Hx) as [b ->]. simpl. eauto.
Qed.

Lemma mapM_Ok_inv {A B} (f : A → outcome B) l r :
  mapM f l = Ok r → Forall2 (λ x y, f x = Ok y) l r.
Proof.
  unfold mapM.
  assert (∀ acc,
    foldM (λ acc x, y ← f x; Ok (acc ++ [y])) acc l = Ok r →
    ∃ ys, r = acc ++ ys ∧ Forall2 (λ x y, f x = Ok y) l ys) as Hgen.
  { induction l as [|x l IH]; intros acc Hfold; simpl in *.
    - simplify_eq. exists []. by rewrite app_nil_r.
    - destruct (f x) as [y| |] eqn:Hy; simplify_eq/=.
      apply IH in Hfold as (ys & -> & Hys). exists (y :: ys).
      rewrite <-app_assoc. split; [done|]. by constructor. }
  intros (ys & -> & Hys)%Hgen. done.
Qed.

Lemma mapM_total {A B} (f : A → outcome B) l :
  (∀ x, x ∈ l → ∃ y, f x = Ok y) → ∃ r, mapM f l = Ok r.
Proof.
  intros Hf. unfold mapM.
  destruct (foldM_total (λ _, True) (λ acc x, y ← f x; Ok (acc ++ [y])) [] l)
    as (r & Hr & _); [done| |eauto].
  intros acc x _ Hx. destruct (Hf x Hx) as [y ->]. simpl. eauto.
Qed.

Lemma check_Ok cond e : check cond e = Ok tt ↔ cond = false.
Proof. unfold check. destruct cond; naive_solver. Qed.

(** A list with as many distinct elements as entries has no duplicates. *)
Lemma size_list_to_set_le `{Countable A} (l : list A) :
  base.size (list_to_set l : gset A) ≤ length l.
Proof.
  induction l as [|x l IH].
  { rewrite list_to_set_nil, size_empty. done. }
  rewrite list_to_set_cons, size_union_alt, size_singleton. cbn [length].
  assert (base.size (list_to_set l ∖ {[x]} : gset A) ≤ base.size (list_to_set l : gset A))
    as Hsub by (apply subseteq_size; set_solver).
  lia.
Qed.

Lemma size_list_to_set_NoDup `{Countable A} (l : list A) :
  length l ≤ base.size (list_to_set l : gset A) → NoDup l.
Proof.
  induction l as [|x l IH]; [constructor|].
  rewrite list_to_set_cons. cbn [length].
  intros Hlen. pose proof (size_list_to_set_le l) as Hle.
  destruct (decide (x ∈ l)) as [Hx|Hx].
  - assert ({[x]} ∪ list_to_set l = (list_to_set l : gset A)) as Heq by set_solver.
    rewrite Heq in Hlen. lia.
  - constructor; [done|]. apply IH.
    rewrite size_union, size_singleton in Hlen by set_solver. lia.
Qed.

(** *** The context of a new message *)

Lemma authored_by_dom s u p : authored_by s u p → p ∈ dom (_messages s).
Proof. intros (msg & Hmsg & _). apply elem_of_dom. eauto. Qed.

Lemma foldl_inv {A B} (P : B → Prop) (f : B → A → B) b l :
  P b → (∀ b x, P b → x ∈ l → P (f b x)) → P (foldl f b l).
Proof.
  revert b. induction l as [|x l IH]; intros b Hb Hf; simpl; [done|].
  apply IH; [apply Hf; [done|left]|]. intros b' y Hb' Hy. apply Hf; [done|by right].
Qed.

Lemma merge_entry_good s context u um :
  wf s → context_good s context → (∀ p, um = Some p → authored_by s u p) →
  ∃ context', merge_entry s context (u, um) = Ok context' ∧ context_good s context'.
Proof.
  intros Hwf Hc Hum. unfold merge_entry.
  assert (context_good s (<[u := um]> context)) as Hins.
  { intros u' p. rewrite lookup_insert. case_decide; [|by apply Hc].
    intros [= ->]. subst. by apply Hum. }
  destruct (context !! u) as [[cur|]|] eqn:Hcur; [|eauto..].
  destruct um as [um'|]; [|eauto].
  unfold ge. destruct (le_total s cur um' Hwf) as [b ->].
  - eapply authored_by_dom, Hc, Hcur.
  - eapply authored_by_dom, Hum. done.
  - simpl. destruct b; eauto.
Qed.

Lemma merge_parent_good s context m :
  wf s → m ∈ dom (_messages s) → context_good s context →
  ∃ context', merge_parent s context m = Ok context' ∧ context_good s context'.
Proof.
  intros Hwf Hm Hc. unfold merge_parent, get_defined.
  rewrite <-(wf_context_dom s Hwf) in Hm. apply elem_of_dom in Hm as [mc Hmc].
  rewrite Hmc. simpl. apply (foldM_total (context_good s)); [done|].
  intros c [u um] Hgood Hin%elem_of_map_to_list.
  apply merge_entry_good; [done..|]. intros p ->.
  by destruct (wf_context s Hwf m mc u p Hmc Hin).
Qed.

Lemma set_author_good s context m :
  m ∈ dom (_messages s) → context_good s context →
  ∃ context', set_author s context m = Ok context' ∧ context_good s context'.
Proof.
  intros [msg Hmsg]%elem_of_dom Hc. unfold set_author, author, safeGet.
  rewrite Hmsg. simpl. eexists. split; [done|].
  destruct (Message.author msg) as [u|] eqn:Hu; [|done].
  intros u' p. rewrite lookup_insert. case_decide; [|by apply Hc].
  intros [= <-]. subst. by exists msg.
Qed.

Lemma mergeContext_good s pmId ruId :
  wf s → pmId ⊆ dom (_messages s) →
  ∃ context, _mergeContext s pmId ruId = Ok context ∧ context_good s context.
Proof.
  intros Hwf Hpm. unfold _mergeContext.
  destruct (foldM_total (context_good s) (merge_parent s) ∅ (elements pmId))
    as (c1 & -> & Hc1).
  { by intros ??. }
  { intros c m Hc Hm%elem_of_elements. apply merge_parent_good; auto. }
  simpl.
  destruct (foldM_total (context_good s) (set_author s) c1 (elements pmId))
    as (c2 & -> & Hc2); [done| |].
  { intros c m Hc Hm%elem_of_elements. apply set_author_good; auto. }
  simpl. eexists. split; [done|].
  apply (foldl_inv (context_good s)).
  - apply (foldl_inv (context_good s)); [done|].
    intros c u Hc _. destruct (c !! u) eqn:Hu; [done|].
    intros u' p. rewrite lookup_insert. case_decide; [done|]. apply Hc.
  - intros c pu Hc _. case_bool_decide; [done|].
    intros u' p [_ Hl]%lookup_delete_Some. by apply Hc.
Qed.

(** *** The checks of [add] *)

Lemma last_by_Val s u q :
  wf s → last_by s (Some u) = Val q → authored_by s u q.
Proof.
  intros Hwf. unfold last_by. simpl.
  destruct (_authorMessages s !! u) as [l|] eqn:Hl; [|done].
  destruct (last l) as [q'|] eqn:Hlast; intros [= <-].
  apply last_Some in Hlast as [l' ->].
  destruct (wf_author_list s Hwf u _ (length l') q' Hl) as [? _]; [|done].
  apply list_lookup_middle. done.
Qed.

Lemma last_by_not_Undefined s u : wf s → last_by s u ≠ Undefined.
Proof.
  intros Hwf. unfold last_by. destruct u as [u|]; simpl; [|done].
  destruct (_authorMessages s !! u) as [l|] eqn:Hl; [|done].
  destruct l as [|x l] using rev_ind; [by apply wf_author_nonempty in Hl|].
  by rewrite last_snoc.
Qed.

Lemma check_total_order_total s u pmId :
  wf s → pmId ⊆ dom (_messages s) →
  check_total_order s (last_by s (Some u)) (elements pmId) ≠ Diverge.
Proof.
  intros Hwf Hpm. unfold check_total_order.
  destruct (last_by s (Some u)) as [| |q] eqn:Hq; [done| |].
  { by apply last_by_not_Undefined in Hq. }
  apply last_by_Val in Hq; [|done].
  destruct (le_any_total (le s) q (elements pmId)) as [b ->].
  - intros p Hp%elem_of_elements. apply le_total; [done| |by apply Hpm].
    by eapply authored_by_dom.
  - simpl. by destruct b.
Qed.

Lemma check_bind {B} cond e (k : unit → outcome B) :
  check cond e ≫= k = if cond then Throw e else k tt.
Proof. by destruct cond. Qed.

Lemma parents_found s (pmId : gset string) :
  ¬ 0 < base.size (filter (λ pm, pm ∉ dom (_messages s)) pmId) →
  pmId ⊆ dom (_messages s).
Proof.
  intros H404 p Hp. destruct (decide (p ∈ dom (_messages s))) as [|Hno]; [done|].
  exfalso. apply H404.
  assert (p ∈ filter (λ pm, pm ∉ dom (_messages s)) pmId) as Hin
    by (by apply elem_of_filter).
  apply elem_of_subseteq_singleton, subseteq_size in Hin.
  rewrite size_singleton in Hin. lia.
Qed.

Ltac step_check H :=
  rewrite check_bind;
  lazymatch goal with
  | |- (if bool_decide ?P then _ else _) ≠ _ =>
      destruct (bool_decide_reflect P) as [H|H]; [done|]
  | |- (if bool_decide ?P then _ else _) = _ → _ =>
      destruct (bool_decide_reflect P) as [H|H]; [done|]
  end.

(** [add]'s checks end, on a reachable transcript. *)
Lemma validate_total s msg : wf s → validate s msg ≠ Diverge.
Proof.
  intros Hwf. unfold validate.
  destruct (Message.mId msg) as [mId|]; simpl; [|done].
  step_check Hself. step_check Hdup.
  destruct (Message.author msg) as [uId|]; simpl; [|done].
  step_check Hreader. step_check H404.
  apply parents_found in H404 as Hpm.
  destruct (filterM_total (secret_parent s uId) (elements (Message.parents msg)))
    as [pmId403 ->].
  { intros p Hp%elem_of_elements. apply Hpm, elem_of_dom in Hp as [msgp Hp].
    unfold secret_parent, get_defined. rewrite Hp. simpl. eauto. }
  simpl. step_check H403.
  destruct (mapM_total (author s) (elements (Message.parents msg))) as [authors ->].
  { intros p Hp%elem_of_elements. apply Hpm, elem_of_dom in Hp as [msgp Hp].
    unfold author, safeGet. rewrite Hp. simpl. eauto. }
  simpl. step_check Hdistinct.
  pose proof (check_total_order_total s uId _ Hwf Hpm) as Hord.
  destruct (check_total_order _ _ _) as [[]| |]; simpl; [|done..].
  destruct (_merge s (Message.parents msg)); simpl; [done|].
  destruct (mergeContext_good s (Message.parents msg) (Message.readers msg))
    as (c & -> & _); done.
Qed.

(** What a message that passed the checks satisfies. *)
Lemma validate_Ok s msg mId uId pumId context :
  validate s msg = Ok (mId, uId, pumId, context) →
  Message.mId msg = Some mId ∧ Message.author msg = Some uId ∧
  (mId ∉ Message.parents msg) ∧ (mId ∉ dom (_messages s)) ∧
  (uId ∉ Message.readers msg) ∧
  Message.parents msg ⊆ dom (_messages s) ∧
  pumId = last_by s (Some uId) ∧
  (∀ p msgp, p ∈ Message.parents msg → _messages s !! p = Some msgp →
             uId ∈ Message.members msgp) ∧
  (∀ p1 p2 msg1 msg2,
     p1 ∈ Message.parents msg → p2 ∈ Message.parents msg →
     _messages s !! p1 = Some msg1 → _messages s !! p2 = Some msg2 →
     Message.author msg1 = Message.author msg2 → p1 = p2) ∧
  (match pumId with
   | Null => True
   | Undefined => False
   | Val q => ∃ p, p ∈ Message.parents msg ∧ le s q p = Ok true
   end) ∧
  (∃ merged, _merge s (Message.parents msg) = inr merged) ∧
  _mergeContext s (Message.parents msg) (Message.readers msg) = Ok context.
Proof.
  unfold validate.
  destruct (Message.mId msg) as [mId'|]; simpl; [|done].
  step_check Hself. step_check Hdup.
  destruct (Message.author msg) as [uId'|]; simpl; [|done].
  step_check Hreader. step_check H404.
  apply parents_found in H404 as Hpm.
  destruct (filterM _ _) as [pmId403| |] eqn:H403; simpl; [|done..].
  step_check Hsecret.
  destruct (mapM _ _) as [authors| |] eqn:Hauthors; simpl; [|done..].
  step_check Hdistinct.
  destruct (check_total_order _ _ _) as [[]| |] eqn:Hord; simpl; [|done..].
  destruct (_merge s (Message.parents msg)) as [|merged] eqn:Hmerge; simpl; [done|].
  destruct (_mergeContext _ _ _) as [c| |] eqn:Hc; simpl; [|done..].
  intros [= <- <- <- <-]. split_and!; try done.
  - intros p msgp Hp Hmsgp. apply filterM_Ok_inv in H403 as [_ H403].
    destruct (decide (uId' ∈ Message.members msgp)) as [|Hno]; [done|].
    assert (p ∈ pmId403) as Hin.
    { apply H403. split; [by apply elem_of_elements|].
      unfold secret_parent, get_defined. rewrite Hmsgp. simpl.
      by rewrite bool_decide_false. }
    destruct pmId403; [by apply elem_of_nil in Hin|]. simpl in Hsecret. lia.
  - intros p1 p2 msg1 msg2 Hp1 Hp2 Hm1 Hm2 Hauth.
    apply mapM_Ok_inv in Hauthors.
    assert (NoDup authors) as Hnd.
    { apply size_list_to_set_NoDup.
      rewrite <-(Forall2_length _ _ _ Hauthors).
      change (length (elements (Message.parents msg)))
        with (base.size (Message.parents msg)). lia. }
    apply elem_of_elements, list_elem_of_lookup in Hp1 as [i1 Hi1].
    apply elem_of_elements, list_elem_of_lookup in Hp2 as [i2 Hi2].
    destruct (Forall2_lookup_l _ _ _ _ _ Hauthors Hi1) as (a1 & Ha1 & Hf1).
    destruct (Forall2_lookup_l _ _ _ _ _ Hauthors Hi2) as (a2 & Ha2 & Hf2).
    unfold author, safeGet in Hf1, Hf2. rewrite Hm1 in Hf1. rewrite Hm2 in Hf2.
    simplify_eq/=. rewrite Hauth in Ha1.
    assert (i1 = i2) as -> by (eapply NoDup_lookup; eauto). congruence.
  - unfold check_total_order in Hord.
    destruct (last_by s (Some uId')) as [| |q]; [done| |].
    { by destruct (elements _). }
    destruct (le_any _ _ _) as [[]| |] eqn:Hany; simplify_eq/=.
    apply le_any_true in Hany as (l1 & p & l2 & Hl & Hp & _).
    exists p. split; [|done]. apply elem_of_elements. rewrite Hl. set_solver.
  - eauto.
Qed.

(** *** The writes of [add] *)

Ltac unfold_monad :=
  unfold mbind, M_bind, bind, gets, modify, ret, throw, lift, try_rethrow in *.

Lemma add_successor_step mId m s sucs :
  _successors s !! m = Some sucs →
  add_successor mId m s
  = (set_successors (<[m := sucs ∪ {[mId]}]> (_successors s)) s, Ok tt).
Proof.
  intros Hsucs. unfold add_successor. unfold_monad. unfold get_defined.
  by rewrite Hsucs.
Qed.

Lemma add_successors_ok mId l s :
  (∀ m, m ∈ l → m ∈ dom (_successors s)) →
  ∃ succ', forEach (add_successor mId) l s = (set_successors succ' s, Ok tt) ∧
           dom succ' = dom (_successors s).
Proof.
  revert s. induction l as [|m l IH]; intros s Hl; simpl.
  { exists (_successors s). by destruct s. }
  assert (m ∈ dom (_successors s)) as [sucs Hsucs]%elem_of_dom by (apply Hl; left).
  unfold mbind, M_bind, bind. rewrite (add_successor_step mId m s sucs Hsucs).
  set (s1 := set_successors _ s).
  destruct (IH s1) as (succ' & -> & Hdom).
  { intros m' Hm'. subst s1. simpl. rewrite dom_insert_L.
    apply elem_of_union_r, Hl. by right. }
  exists succ'. split; [done|]. rewrite Hdom. subst s1. simpl.
  rewrite dom_insert_L. apply elem_of_dom_2 in Hsucs. set_solver.
Qed.

Lemma set_add_elem_of x l y : y ∈ set_add x l ↔ y = x ∨ y ∈ l.
Proof.
  unfold set_add. case_bool_decide; [set_solver|].
  rewrite elem_of_app, list_elem_of_singleton. tauto.
Qed.

Lemma set_add_NoDup x l : NoDup l → NoDup (set_add x l).
Proof.
  intros Hl. unfold set_add. case_bool_decide; [done|].
  apply NoDup_app. split_and!; [done| |apply NoDup_singleton].
  intros y Hy ->%list_elem_of_singleton. done.
Qed.

Lemma ack_ancestors_ok uId anc acked s :
  NoDup anc → (∀ m, m ∈ anc → m ∈ dom (_unackby s)) →
  ∃ ub' acked',
    ack_ancestors uId anc acked s = (set_unackby ub' s, Ok acked') ∧
    dom ub' = dom (_unackby s) ∧
    (∀ m, ub' !! m = if decide (m ∈ anc)
                     then (λ ub, ub ∖ {[uId]}) <$> _unackby s !! m
                     else _unackby s !! m) ∧
    (∀ m, m ∈ acked' ↔
          m ∈ acked ∨ (m ∈ anc ∧ ∃ ub, _unackby s !! m = Some ub ∧ ub ∖ {[uId]} = ∅)) ∧
    (NoDup acked → NoDup acked').
Proof.
  revert acked s. induction anc as [|am anc IH]; intros acked s Hnd Hanc;
    cbn [ack_ancestors].
  { exists (_unackby s), acked. split_and!; [by destruct s|done| | |done].
    - intros m. by rewrite decide_False by set_solver.
    - intros m. set_solver. }
  apply NoDup_cons in Hnd as [Ham Hnd].
  unfold_monad. unfold get_defined.
  assert (am ∈ dom (_unackby s)) as [ub Hub]%elem_of_dom by (apply Hanc; left).
  cbn beta. rewrite Hub. simpl.
  rewrite lookup_insert_eq. simpl.
  set (s1 := set_unackby _ s).
  set (acked1 := if bool_decide _ then _ else _).
  destruct (IH acked1 s1 Hnd) as (ub' & acked' & -> & Hdom & Hub' & Hacked & Hndacked).
  { intros m Hm. subst s1. simpl. rewrite dom_insert_L.
    apply elem_of_union_r, Hanc. by right. }
  exists ub', acked'. split_and!; [done| | | |].
  - rewrite Hdom. subst s1. simpl. rewrite dom_insert_L.
    apply elem_of_dom_2 in Hub. set_solver.
  - intros m. rewrite Hub'. subst s1. simpl.
    destruct (decide (m = am)) as [->|Hne].
    + rewrite decide_False by done. rewrite decide_True by left.
      by rewrite lookup_insert_eq, Hub.
    + rewrite lookup_insert_ne by done.
      destruct (decide (m ∈ anc)).
      * by rewrite decide_True by (by right).
      * rewrite decide_False; [done|]. by intros [?|?]%elem_of_cons.
  - intros m. rewrite Hacked. subst s1 acked1. simpl.
    rewrite elem_of_cons.
    assert (base.size (ub ∖ {[uId]}) = 0 ↔ ub ∖ {[uId]} = ∅) as Hsize
      by (rewrite size_empty_iff; apply leibniz_equiv_iff).
    split.
    + intros [Hm|[Hm (ub0 & Hub0 & Hempty)]].
      * case_bool_decide as Hz; [|by left].
        apply set_add_elem_of in Hm as [->|?]; [|by left].
        right. split; [by left|]. exists ub. split; [done|]. by apply Hsize.
      * right. split; [by right|]. exists ub0. split; [|done].
        rewrite lookup_insert_ne in Hub0; [done|]. by intros ->.
    + intros [Hm|[[->|Hm] (ub0 & Hub0 & Hempty)]].
      * left. case_bool_decide; [|done]. apply set_add_elem_of. by right.
      * left. simplify_eq. rewrite bool_decide_true by (by apply Hsize).
        apply set_add_elem_of. by left.
      * right. split; [done|]. exists ub0. split; [|done].
        rewrite lookup_insert_ne; [done|]. by intros ->.
  - intros Hacked0. apply Hndacked. subst acked1.
    case_bool_decide; [by apply set_add_NoDup|done].
Qed.

(** The walk yields a node once, and only nodes for which [pred] holds. *)
Lemma iterAncestors_from_sound fuel s pred queue seen anc :
  iterAncestors_from fuel s pred queue seen = Ok anc →
  NoDup anc ∧ ∀ m, m ∈ anc → (m ∉ seen) ∧ pred m = Ok true.
Proof.
  revert queue seen anc. induction fuel as [|fuel IH]; intros queue seen anc; [done|].
  simpl. destruct queue as [|m queue].
  { intros [= <-]. split; [constructor|]. by intros ? ?%elem_of_nil. }
  case_bool_decide as Hseen; [apply IH|].
  destruct (pred m) as [[]| |] eqn:Hpred; simpl; [| |done..].
  - destruct (pre s m) as [parents| |]; simpl; [|done..].
    destruct (iterAncestors_from fuel s pred _ _) as [rest| |] eqn:Hrest;
      simpl; [|done..].
    intros [= <-]. apply IH in Hrest as [Hnd Hrest]. split.
    + constructor; [|done]. intros Hm. apply Hrest in Hm as [Hm _]. set_solver.
    + intros m' [->|Hm']%elem_of_cons; [done|].
      apply Hrest in Hm' as [Hm' ?]. split; [set_solver|done].
  - intros Hrest. apply IH in Hrest as [Hnd Hrest]. split; [done|].
    intros m' Hm'. apply Hrest in Hm' as [Hm' ?]. split; [set_solver|done].
Qed.

(** The walk does not throw when [pred] and [pre] answer on every node it
    can reach. *)
Lemma iterAncestors_from_no_throw fuel s pred queue seen (D : gset string) :
  (∀ m, m ∈ D → ∃ b, pred m = Ok b) →
  (∀ m, m ∈ D → ∃ parents, pre s m = Ok parents ∧ parents ⊆ D) →
  (∀ m, m ∈ queue → m ∈ D) →
  ¬ is_throw (iterAncestors_from fuel s pred queue seen).
Proof.
  intros Hpred Hpre. revert queue seen.
  induction fuel as [|fuel IH]; intros queue seen Hq; [by intros []|].
  simpl. destruct queue as [|m queue]; [by intros []|].
  case_bool_decide as Hseen.
  { apply IH. intros m' Hm'. apply Hq. by right. }
  destruct (Hpred m) as [b ->]; [apply Hq; left|]. simpl.
  destruct b.
  - destruct (Hpre m) as (parents & -> & Hsub); [apply Hq; left|]. simpl.
    specialize (IH (queue ++ elements parents) ({[m]} ∪ seen)).
    destruct (iterAncestors_from fuel s pred _ _); simpl; [by intros []| |by intros []].
    intros _. apply IH; [|done].
    intros m' [Hm'|Hm'%elem_of_elements]%elem_of_app.
    + apply Hq. by right.
    + by apply Hsub.
  - apply IH. intros m' Hm'. apply Hq. by right.
Qed.

Lemma last_by_lookup s u :
  wf s →
  match last_by s (Some u) with
  | Null => _authorMessages s !! u = None
  | Undefined => False
  | Val q => ∃ l, _authorMessages s !! u = Some (l ++ [q])
  end.
Proof.
  intros Hwf. unfold last_by. simpl.
  destruct (_authorMessages s !! u) as [l|] eqn:Hl; [|done].
  destruct l as [|x l _] using rev_ind; [by apply wf_author_nonempty in Hl|].
  rewrite last_snoc. eauto.
Qed.

Lemma length_snoc_pred {A} (x : list A) k : length (x ++ [k]) - 1 = length x.
Proof. rewrite length_app. cbn [length]. lia. Qed.

Lemma sum_filter_seen (f : string → nat) (l : list string) (m : string)
    (seen : gset string) :
  sum_list (f <$> filter (λ x, x ∉ {[m]} ∪ seen) l)
  ≤ sum_list (f <$> filter (λ x, x ∉ seen) l).
Proof.
  induction l as [|x l IH]; [done|].
  rewrite !filter_cons. repeat case_decide; csimpl; try lia. all: exfalso; set_solver.
Qed.

Lemma sum_filter_seen_elem (f : string → nat) (l : list string) (m : string)
    (seen : gset string) :
  m ∈ l → m ∉ seen →
  f m + sum_list (f <$> filter (λ x, x ∉ {[m]} ∪ seen) l)
  ≤ sum_list (f <$> filter (λ x, x ∉ seen) l).
Proof.
  intros Hm Hseen. induction l as [|x l IH]; [by apply elem_of_nil in Hm|].
  pose proof (sum_filter_seen f l m seen).
  rewrite !filter_cons. destruct (decide (x = m)) as [->|Hne].
  - repeat case_decide; csimpl; try lia; exfalso; set_solver.
  - apply elem_of_cons in Hm as [?|Hm]; [done|]. specialize (IH Hm).
    repeat case_decide; csimpl; try lia; exfalso; set_solver.
Qed.

(** The walk ends within the steps [walk_fuel] gives it. *)
Lemma iterAncestors_from_ends fuel s pred queue seen :
  (∀ m, pred m ≠ Diverge) →
  (∀ m, m ∈ queue → m ∈ _log s) →
  (∀ m msg p, _messages s !! m = Some msg → p ∈ Message.parents msg → p ∈ _log s) →
  length queue
  + sum_list ((λ m, default 0 (base.size ∘ Message.parents <$> _messages s !! m))
                <$> filter (λ m, m ∉ seen) (_log s)) < fuel →
  iterAncestors_from fuel s pred queue seen ≠ Diverge.
Proof.
  intros Hpred Hq Hclosed. revert queue seen Hq.
  induction fuel as [|fuel IH]; intros queue seen Hq Hfuel; [lia|].
  simpl. destruct queue as [|m queue]; [done|]. simpl in Hfuel.
  assert (∀ m', m' ∈ queue → m' ∈ _log s) as Hq' by (intros m' ?; apply Hq; by right).
  case_bool_decide as Hseen; [apply IH; [done|lia]|].
  specialize (Hpred m). destruct (pred m) as [[]| |]; simpl; [| |done..].
  - unfold pre, safeGet. destruct (_messages s !! m) as [msg|] eqn:Hm; simpl; [|done].
    match goal with |- context [iterAncestors_from fuel s pred ?q ?sn] =>
      specialize (IH q sn) end.
    destruct (iterAncestors_from fuel s pred _ _); simpl; [done..|].
    apply IH.
    + intros m' [?|Hm'%elem_of_elements]%elem_of_app; [by apply Hq'|].
      by eapply Hclosed.
    + pose proof (sum_filter_seen_elem
                    (λ m, default 0 (base.size ∘ Message.parents <$> _messages s !! m))
                    (_log s) m seen) as Hsum.
      simpl in Hsum. rewrite Hm in Hsum. simpl in Hsum.
      rewrite length_app.
      change (length (elements (Message.parents msg)))
        with (base.size (Message.parents msg)).
      specialize (Hsum (Hq m ltac:(left)) Hseen). lia.
  - apply IH; [done|].
    pose proof (sum_filter_seen
                  (λ m, default 0 (base.size ∘ Message.parents <$> _messages s !! m))
                  (_log s) m seen). lia.
Qed.

Lemma iterAncestors_ends s init pred :
  (∀ m, pred m ≠ Diverge) →
  (∀ m, m ∈ init → m ∈ _log s) →
  (∀ m msg p, _messages s !! m = Some msg → p ∈ Message.parents msg → p ∈ _log s) →
  iterAncestors s init pred ≠ Diverge.
Proof.
  intros Hpred Hinit Hclosed. apply iterAncestors_from_ends; [done..|].
  unfold walk_fuel.
  match goal with |- context [@filter _ _ _ ?P ?H ?l] =>
    assert (@filter _ _ _ P H l = l) as ->; [|lia] end.
  clear. induction (_log s) as [|x l IH]; [done|].
  rewrite filter_cons_True; [by rewrite IH|]. apply not_elem_of_empty.
Qed.

(** The acknowledgements of a new message: [anc] are the ancestors the
    walk yields, [acked] those of them (and the message itself, when it has
    no readers) that no reader has left to acknowledge. *)
Lemma update_unacked_spec msg mId uId st s' r :
  mId ∈ dom (_messages st) → mId ∉ dom (_unackby st) →
  dom (_messages st) = {[mId]} ∪ dom (_unackby st) →
  Message.parents msg ⊆ dom (_messages st) →
  (∀ m msgm p, _messages st !! m = Some msgm → p ∈ Message.parents msgm →
               p ∈ dom (_messages st)) →
  uId ∉ Message.readers msg →
  (∀ m, m ∈ dom (_messages st) → m ∈ _log st) →
  update_unacked msg mId uId st = (s', r) →
  ∃ ub' anc acked,
    r = Ok (_sortMIds st acked) ∧
    s' = set_cacheBy (if truthy uId then delete uId (_cacheBy st) else ∅)
           (set_cacheUnacked None
              (set_unacked ((_unacked st ∪ {[mId]}) ∖ list_to_set acked)
                 (set_unackby ub' st))) ∧
    dom ub' = {[mId]} ∪ dom (_unackby st) ∧
    NoDup anc ∧
    (∀ m, m ∈ anc → m ≠ mId ∧ ∃ ub, _unackby st !! m = Some ub ∧ uId ∈ ub) ∧
    ub' !! mId = Some (Message.readers msg) ∧
    (∀ m, m ≠ mId →
          ub' !! m = if decide (m ∈ anc)
                     then (λ ub, ub ∖ {[uId]}) <$> _unackby st !! m
                     else _unackby st !! m) ∧
    (∀ m, m ∈ acked ↔
          (m = mId ∧ Message.readers msg = ∅) ∨
          (m ∈ anc ∧ ∃ ub, _unackby st !! m = Some ub ∧ ub ∖ {[uId]} = ∅)) ∧
    NoDup acked.
Proof.
  intros HmId Hfresh Hdom Hpm Hclosed Hreader Hlog.
  unfold update_unacked. unfold_monad. cbn beta.
  set (st1 := set_unacked _ (set_unackby _ st)).
  match goal with |- context [iterAncestors st1 _ ?p] => set (pred := p) end.
  assert (∀ m, pred m = Ok true →
            m ≠ mId ∧ ∃ ub, _unackby st !! m = Some ub ∧ uId ∈ ub) as Hpred.
  { intros m. unfold pred, get_defined. subst st1. destruct st. simpl.
    rewrite lookup_insert. case_decide as Hm; simpl.
    - intros [= Hu%bool_decide_eq_true]. done.
    - destruct (_ !! m) as [ub|]; simpl; [|done].
      intros [= Hu%bool_decide_eq_true]. split; [done|]. eauto. }
  assert (∀ m, m ∈ dom (_messages st) → ∃ b, pred m = Ok b) as Htotal.
  { intros m Hm. unfold pred, get_defined. subst st1. destruct st. simpl in *.
    rewrite lookup_insert. case_decide; simpl; [eauto|].
    rewrite Hdom in Hm. apply elem_of_union in Hm as [?%elem_of_singleton|Hm]; [done|].
    apply elem_of_dom in Hm as [ub ->]. simpl. eauto. }
  assert (iterAncestors st1 (elements (Message.parents msg)) pred ≠ Diverge)
    as Hends.
  { apply iterAncestors_ends.
    - intros m. unfold pred, get_defined.
      destruct (_ !! m) as [ub|]; simpl; done.
    - intros m Hm%elem_of_elements. subst st1. destruct st. simpl in *.
      by apply Hlog, Hpm.
    - intros m msgm p Hm Hp. subst st1. destruct st. simpl in *.
      eapply Hlog, Hclosed; eauto. }
  pose proof (iterAncestors_from_sound
                (walk_fuel st1 (elements (Message.parents msg))) st1 pred
                (elements (Message.parents msg)) ∅) as Hsound.
  pose proof (iterAncestors_from_no_throw
                (walk_fuel st1 (elements (Message.parents msg))) st1 pred
                (elements (Message.parents msg)) ∅ (dom (_messages st))) as Hnothrow.
  change (iterAncestors_from (walk_fuel st1 (elements (Message.parents msg))) st1
            pred (elements (Message.parents msg)) ∅)
    with (iterAncestors st1 (elements (Message.parents msg)) pred) in Hsound, Hnothrow.
  destruct (iterAncestors st1 (elements (Message.parents msg)) pred) as [anc|e|].
  - destruct (Hsound anc eq_refl) as [Hnd Hanc]. clear Hsound Hnothrow.
    destruct (ack_ancestors_ok uId anc
                (if bool_decide (base.size (Message.readers msg) = 0)
                 then [mId] else []) st1 Hnd)
      as (ub' & acked & -> & Hdom' & Hub' & Hacked & Hndacked).
    { intros m Hm. apply Hanc in Hm as [_ (Hne & ub & Hub & _)%Hpred].
      subst st1. destruct st. simpl in *. rewrite dom_insert_L.
      apply elem_of_union_r. by eapply elem_of_dom_2. }
    unfold _invalidateCaches. unfold_monad.
    intros Heq. exists ub', anc, acked.
    assert (∀ m, m ∈ anc → m ≠ mId) as Hne.
    { intros m Hm. by apply Hanc in Hm as [_ [? _]%Hpred]. }
    subst st1. destruct st. simpl in *.
    split_and!.
    + destruct (truthy uId); by simplify_eq/=.
    + destruct (truthy uId); by simplify_eq/=.
    + by rewrite Hdom', dom_insert_L.
    + done.
    + intros m Hm. by apply Hanc in Hm as [_ ?%Hpred].
    + rewrite Hub'. rewrite decide_False; [by rewrite lookup_insert_eq|].
      intros Hm. by apply Hne in Hm.
    + intros m Hm. rewrite Hub'. by rewrite lookup_insert_ne.
    + intros m. rewrite Hacked. split.
      * intros [Hm|[Hm (ub & Hub & Hempty)]].
        -- left. case_bool_decide as Hz; [|by apply elem_of_nil in Hm].
           apply list_elem_of_singleton in Hm. split; [done|].
           apply size_empty_iff in Hz. by apply leibniz_equiv_iff.
        -- right. split; [done|]. exists ub. split; [|done].
           rewrite lookup_insert_ne in Hub; [done|]. intros <-. by apply Hne in Hm.
      * intros [[-> Hm]|[Hm (ub & Hub & Hempty)]].
        -- left. rewrite bool_decide_true; [by left|]. by rewrite Hm, size_empty.
        -- right. split; [done|]. exists ub. split; [|done].
           rewrite lookup_insert_ne; [done|]. intros <-. by apply Hne in Hm.
    + apply Hndacked. case_bool_decide; [apply NoDup_singleton|constructor].
  - exfalso. apply Hnothrow; [done| | |done].
    + intros m [msgm Hm]%elem_of_dom. unfold pre, safeGet. subst st1.
      destruct st. simpl in *. rewrite Hm. simpl. eexists. split; [done|].
      intros p Hp. by eapply Hclosed.
    + intros m Hm%elem_of_elements. by apply Hpm.
  - done.
Qed.

Lemma update_unacked_after_insert msg mId uId st messages s' r :
  _messages st = <[mId := msg]> messages →
  mId ∉ dom messages → dom (_unackby st) = dom messages →
  Message.parents msg ⊆ dom messages →
  (∀ m msgm p, messages !! m = Some msgm → p ∈ Message.parents msgm →
               p ∈ dom messages) →
  uId ∉ Message.readers msg →
  (∀ m, m ∈ {[mId]} ∪ dom messages → m ∈ _log st) →
  update_unacked msg mId uId st = (s', r) →
  ∃ ub' anc acked,
    r = Ok (_sortMIds st acked) ∧
    s' = set_cacheBy (if truthy uId then delete uId (_cacheBy st) else ∅)
           (set_cacheUnacked None
              (set_unacked ((_unacked st ∪ {[mId]}) ∖ list_to_set acked)
                 (set_unackby ub' st))) ∧
    dom ub' = {[mId]} ∪ dom (_unackby st) ∧
    NoDup anc ∧
    (∀ m, m ∈ anc → m ≠ mId ∧ ∃ ub, _unackby st !! m = Some ub ∧ uId ∈ ub) ∧
    ub' !! mId = Some (Message.readers msg) ∧
    (∀ m, m ≠ mId →
          ub' !! m = if decide (m ∈ anc)
                     then (λ ub, ub ∖ {[uId]}) <$> _unackby st !! m
                     else _unackby st !! m) ∧
    (∀ m, m ∈ acked ↔
          (m = mId ∧ Message.readers msg = ∅) ∨
          (m ∈ anc ∧ ∃ ub, _unackby st !! m = Some ub ∧ ub ∖ {[uId]} = ∅)) ∧
    NoDup acked.
Proof.
  intros Hmsgs Hfresh Hud Hpm Hclosed Hreader Hlog.
  apply update_unacked_spec; rewrite ?Hmsgs, ?Hud, ?dom_insert_L; try done.
  - apply elem_of_union_l, elem_of_singleton. done.
  - by apply union_subseteq_r'.
  - intros m msgm p. rewrite lookup_insert. case_decide as Hm.
    + intros [= <-] Hp. by apply elem_of_union_r, Hpm.
    + intros Hmsgm Hp. apply elem_of_union_r. by eapply Hclosed.
Qed.

(** What [add]'s writes leave behind, on a transcript that satisfies the
    invariant and for a message that passed the checks. *)
Lemma commit_spec s msg mId uId context s' r :
  wf s →
  mId ∉ dom (_messages s) → Message.parents msg ⊆ dom (_messages s) →
  uId ∉ Message.readers msg →
  commit msg mId uId (last_by s (Some uId)) context s = (s', r) →
  ∃ succ' ub' anc acked,
    r = Ok (_sortMIds s' acked) ∧
    s' = mk (_uIds s ∪ {[uId]}) (<[mId := msg]> (_messages s))
            (if bool_decide (base.size (Message.parents msg) = 0)
             then _minMessages s ∪ {[mId]} else _minMessages s)
            ((_maxMessages s ∪ {[mId]}) ∖ Message.parents msg)
            succ' (S (_length s)) (<[mId := _length s]> (_messageIndex s))
            (_log s ++ [mId])
            (<[uId := default [] (_authorMessages s !! uId) ++ [mId]]>
               (_authorMessages s))
            (<[mId := length (default [] (_authorMessages s !! uId))]>
               (_authorIndex s))
            (<[mId := context]> (_context s))
            ub' ((_unacked s ∪ {[mId]}) ∖ list_to_set acked)
            (_fubar s) None
            (if truthy uId then delete uId (_cacheBy s) else ∅) ∧
    dom succ' = {[mId]} ∪ dom (_successors s) ∧
    dom ub' = {[mId]} ∪ dom (_unackby s) ∧
    NoDup anc ∧
    (∀ m, m ∈ anc → m ≠ mId ∧ ∃ ub, _unackby s !! m = Some ub ∧ uId ∈ ub) ∧
    ub' !! mId = Some (Message.readers msg) ∧
    (∀ m, m ≠ mId →
          ub' !! m = if decide (m ∈ anc)
                     then (λ ub, ub ∖ {[uId]}) <$> _unackby s !! m
                     else _unackby s !! m) ∧
    (∀ m, m ∈ acked ↔
          (m = mId ∧ Message.readers msg = ∅) ∨
          (m ∈ anc ∧ ∃ ub, _unackby s !! m = Some ub ∧ ub ∖ {[uId]} = ∅)) ∧
    NoDup acked.
Proof.
  intros Hwf HmId Hpm Hreader.
  pose proof (wf_successors_dom s Hwf) as Hsd.
  pose proof (wf_unackby_dom s Hwf) as Hud.
  pose proof (last_by_lookup s uId Hwf) as Hlast.
  assert (∀ m msgm p, _messages s !! m = Some msgm → p ∈ Message.parents msgm →
                      p ∈ dom (_messages s)) as Hclosed.
  { intros m msgm p Hm Hp.
    destruct (wf_parents s Hwf m msgm p Hm Hp) as (i & _ & Hi & _).
    apply wf_has_index; eauto. }
  assert (∀ m, m ∈ dom (_messages s) → m ∈ _log s) as Hlog.
  { intros m [i Hi]%wf_has_index; [|done].
    apply (wf_index s Hwf) in Hi. by eapply list_elem_of_lookup_2. }
  clear Hwf.
  destruct s as [uIds messages minM maxM successors len mIndex log aMessages
                 aIndex contexts unackbys unackeds fubar cUnacked cBy].
  simpl in *. unfold commit. unfold_monad. simpl.
  destruct (bool_decide (base.size (Message.parents msg) = 0)) eqn:Hmin; simpl.
  all: match goal with |- context [forEach _ _ ?s1] =>
         destruct (add_successors_ok mId (elements (Message.parents msg)) s1)
           as (succ1 & -> & Hsucc1);
           [intros m Hm%elem_of_elements; simpl; rewrite Hsd; by apply Hpm|]
       end; simpl in *.
  all: destruct (last_by _ _) as [| |q]; [|done|destruct Hlast as [l Hlast]].
  all: simpl; unfold get_defined at 1; rewrite ?lookup_insert_eq, ?Hlast.
  all: rewrite ?insert_insert_eq, !length_snoc_pred; simpl.
  all: intros Htail.
  all: apply (update_unacked_after_insert _ _ _ _ messages) in Htail
         as (ub' & anc & acked & -> & -> & Hdom & Hnd & Hanc & HmId' & Hub' & Hacked
             & Hndacked); simpl in *; [|try done..].
  all: try (intros m [->%elem_of_singleton|Hm]%elem_of_union;
            [apply elem_of_app; right; left|apply elem_of_app; left; by apply Hlog]).
  all: exists (<[mId := ∅]> succ1), ub', anc, acked.
  all: split_and!; try done.
  all: by rewrite dom_insert_L, Hsucc1.
Qed.

(** *** The invariant *)

Lemma wf_new : wf new.
Proof.
  split; simpl; try done; try (by rewrite !dom_empty_L).
Qed.

(** The transcript after a successful [add] satisfies the invariant. *)
Lemma wf_commit s msg mId uId context succ' ub' unacked' :
  wf s →
  Message.mId msg = Some mId → Message.author msg = Some uId →
  mId ∉ dom (_messages s) → Message.parents msg ⊆ dom (_messages s) →
  context_good s context →
  dom succ' = {[mId]} ∪ dom (_successors s) →
  dom ub' = {[mId]} ∪ dom (_unackby s) →
  wf (mk (_uIds s ∪ {[uId]}) (<[mId := msg]> (_messages s))
         (if bool_decide (base.size (Message.parents msg) = 0)
          then _minMessages s ∪ {[mId]} else _minMessages s)
         ((_maxMessages s ∪ {[mId]}) ∖ Message.parents msg)
         succ' (S (_length s)) (<[mId := _length s]> (_messageIndex s))
         (_log s ++ [mId])
         (<[uId := default [] (_authorMessages s !! uId) ++ [mId]]>
            (_authorMessages s))
         (<[mId := length (default [] (_authorMessages s !! uId))]>
            (_authorIndex s))
         (<[mId := context]> (_context s))
         ub' unacked' (_fubar s) None
         (if truthy uId then delete uId (_cacheBy s) else ∅)).
Proof.
  intros Hwf HmsgId Hauthor Hfresh Hpm Hctx Hsucc Hub.
  assert (∀ m, m ∈ dom (_messages s) → m ≠ mId) as Hold by (by intros m ? ->).
  assert (∀ m i, index s m = Some i → m ≠ mId ∧ i < _length s) as Hidx.
  { intros m i Hi. split; [|by eapply wf_index_lt].
    apply Hold, wf_has_index; eauto. }
  assert (_messageIndex s !! mId = None) as Hnoidx.
  { apply not_elem_of_dom. by rewrite (wf_index_dom s Hwf). }
  assert (∀ u l i m, _authorMessages s !! u = Some l → l !! i = Some m → m ≠ mId)
    as Hlist.
  { intros u l i m Hl Hi.
    destruct (wf_author_list s Hwf u l i m Hl Hi) as [(msgm & Hm & _) _].
    apply Hold. by eapply elem_of_dom_2. }
  split; simpl.
  - apply (wf_fubar s Hwf).
  - rewrite length_app, (wf_length s Hwf). simpl. lia.
  - intros m i. unfold index. simpl.
    destruct (decide (m = mId)) as [->|Hm].
    + rewrite lookup_insert_eq. split.
      * intros [= <-]. rewrite (wf_length s Hwf). apply list_lookup_middle. done.
      * intros Hi. f_equal. apply lookup_snoc_Some in Hi as [[Hlt Hi]|[? _]].
        -- apply (wf_index s Hwf) in Hi. unfold index in Hi. congruence.
        -- by rewrite (wf_length s Hwf).
    + rewrite lookup_insert_ne by done. rewrite (wf_index s Hwf m i). split.
      * intros Hi. by apply lookup_app_l_Some.
      * intros [[_ Hi]|[_ ?]]%lookup_snoc_Some; [done|congruence].
  - by rewrite !dom_insert_L, (wf_index_dom s Hwf).
  - intros m msgm. destruct (decide (m = mId)) as [->|Hm].
    + rewrite lookup_insert_eq. by intros [= <-].
    + rewrite lookup_insert_ne by done. apply (wf_mId s Hwf).
  - intros m msgm p. unfold index. simpl.
    destruct (decide (m = mId)) as [->|Hm].
    + rewrite lookup_insert_eq.
      intros [= <-] Hp. apply Hpm, wf_has_index in Hp as [i Hi]; [|done].
      destruct (Hidx p i Hi) as [Hne Hlt].
      exists i, (_length s). rewrite lookup_insert_ne, lookup_insert_eq by done. done.
    + rewrite lookup_insert_ne by done. intros Hmsgm Hp.
      destruct (wf_parents s Hwf m msgm p Hmsgm Hp) as (i & j & Hi & Hj & Hlt).
      destruct (Hidx p i Hi) as [Hne _].
      exists i, j. by rewrite !lookup_insert_ne by done.
  - intros m msgm. destruct (decide (m = mId)) as [->|Hm].
    + rewrite lookup_insert_eq.
      intros [= <-]. exists uId, (default [] (_authorMessages s !! uId) ++ [mId]),
        (length (default [] (_authorMessages s !! uId))).
      rewrite !lookup_insert_eq. split_and!; [done..|]. apply list_lookup_middle. done.
    + rewrite lookup_insert_ne by done. intros Hmsgm.
      destruct (wf_authored s Hwf m msgm Hmsgm) as (u & l & i & Hu & Hl & Hi & Hli).
      rewrite (lookup_insert_ne (_authorIndex s)) by done.
      destruct (decide (u = uId)) as [->|Hne].
      * exists uId, (l ++ [mId]), i. rewrite Hl, lookup_insert_eq. simpl.
        split_and!; [done..|]. by apply lookup_app_l_Some.
      * exists u, l, i. by rewrite lookup_insert_ne.
  - intros u l i m. destruct (decide (u = uId)) as [->|Hu].
    + rewrite lookup_insert_eq.
      intros [= <-] Hi. apply lookup_snoc_Some in Hi as [[Hlt Hi]|[Hlen <-]].
      * destruct (_authorMessages s !! uId) as [l|] eqn:Hl; simpl in *; [|lia].
        destruct (wf_author_list s Hwf uId l i m Hl Hi) as [(msgm & Hm & Hum) Hai].
        assert (m ≠ mId) by (by eapply Hlist).
        rewrite !lookup_insert_ne by done. eauto.
      * rewrite !lookup_insert_eq. split; [eauto|]. by rewrite Hlen.
    + rewrite lookup_insert_ne by done. intros Hl Hi.
      destruct (wf_author_list s Hwf u l i m Hl Hi) as [(msgm & Hm & Hum) Hai].
      assert (m ≠ mId) by (by eapply Hlist).
      rewrite !lookup_insert_ne by done. eauto.
  - intros u l i j a b x y. unfold index. simpl.
    destruct (decide (u = uId)) as [->|Hu].
    + rewrite lookup_insert_eq. intros [= <-] Ha Hb Hij.
      apply lookup_snoc_Some in Ha as [[Hlta Ha]|[Hlena <-]];
        apply lookup_snoc_Some in Hb as [[Hltb Hb]|[Hlenb <-]].
      * destruct (_authorMessages s !! uId) as [l|] eqn:Hl; simpl in *; [|lia].
        assert (a ≠ mId) by (by eapply Hlist).
        assert (b ≠ mId) by (by eapply Hlist).
        rewrite !lookup_insert_ne by done. by eapply (wf_author_order s Hwf uId l i j).
      * destruct (_authorMessages s !! uId) as [l|] eqn:Hl; simpl in *; [|lia].
        assert (a ≠ mId) by (by eapply Hlist).
        rewrite lookup_insert_ne, lookup_insert_eq by done.
        intros Hx [= <-]. apply Hidx in Hx as [_ ?]. lia.
      * lia.
      * rewrite lookup_insert_eq. by intros [= <-] [= <-].
    + rewrite lookup_insert_ne by done. intros Hl Ha Hb Hij.
      assert (a ≠ mId) by (by eapply Hlist).
      assert (b ≠ mId) by (by eapply Hlist).
      rewrite !lookup_insert_ne by done. by eapply (wf_author_order s Hwf u l i j).
  - intros u. destruct (decide (u = uId)) as [->|Hu].
    + rewrite lookup_insert_eq. intros [= Hnil]. by destruct (default [] _).
    + rewrite lookup_insert_ne by done. apply (wf_author_nonempty s Hwf).
  - by rewrite !dom_insert_L, (wf_context_dom s Hwf).
  - intros m c u p. unfold index. simpl.
    destruct (decide (m = mId)) as [->|Hm].
    + rewrite lookup_insert_eq.
      intros [= <-] Hp. destruct (Hctx u p Hp) as (msgp & Hmsgp & Hup).
      assert (p ∈ dom (_messages s)) as Hpd by (by eapply elem_of_dom_2).
      apply wf_has_index in Hpd as [i Hi]; [|done].
      destruct (Hidx p i Hi) as [Hne Hlt].
      rewrite !lookup_insert_ne by done. rewrite lookup_insert_eq.
      split; [eauto|]. exists i, (_length s). done.
    + rewrite lookup_insert_ne by done. intros Hc Hp.
      destruct (wf_context s Hwf m c u p Hc Hp)
        as ((msgp & Hmsgp & Hup) & i & j & Hi & Hj & Hlt).
      destruct (Hidx p i Hi) as [Hne _].
      rewrite !lookup_insert_ne by done. split; [eauto|]. exists i, j. done.
  - by rewrite Hsucc, dom_insert_L, (wf_successors_dom s Hwf).
  - by rewrite Hub, dom_insert_L, (wf_unackby_dom s Hwf).
  - intros u l Hl.
    assert (u ≠ uId ∧ _cacheBy s !! u = Some l) as [Hne Hc].
    { destruct (truthy uId); [|by rewrite lookup_empty in Hl].
      apply lookup_delete_Some in Hl as [? ?]. split; congruence. }
    rewrite lookup_insert_ne by done. by apply (wf_cacheBy s Hwf).
  - done.
Qed.

(** What a call of [add] does, on a transcript that satisfies the
    invariant: it throws from the checks and writes nothing, or it passes
    them, writes and returns the sorted list of newly acknowledged messages. *)
Lemma add_cases s msg s' r :
  wf s → add msg s = (s', r) →
  (s' = s ∧ ∃ e, r = Throw e ∧ validate s msg = Throw e) ∨
  (∃ mId uId context succ' ub' anc acked,
     validate s msg = Ok (mId, uId, last_by s (Some uId), context) ∧
     r = Ok (_sortMIds s' acked) ∧
     s' = mk (_uIds s ∪ {[uId]}) (<[mId := msg]> (_messages s))
             (if bool_decide (base.size (Message.parents msg) = 0)
              then _minMessages s ∪ {[mId]} else _minMessages s)
             ((_maxMessages s ∪ {[mId]}) ∖ Message.parents msg)
             succ' (S (_length s)) (<[mId := _length s]> (_messageIndex s))
             (_log s ++ [mId])
             (<[uId := default [] (_authorMessages s !! uId) ++ [mId]]>
                (_authorMessages s))
             (<[mId := length (default [] (_authorMessages s !! uId))]>
                (_authorIndex s))
             (<[mId := context]> (_context s))
             ub' ((_unacked s ∪ {[mId]}) ∖ list_to_set acked)
             (_fubar s) None
             (if truthy uId then delete uId (_cacheBy s) else ∅) ∧
     dom succ' = {[mId]} ∪ dom (_successors s) ∧
     dom ub' = {[mId]} ∪ dom (_unackby s) ∧
     NoDup anc ∧
     (∀ m, m ∈ anc → m ≠ mId ∧ ∃ ub, _unackby s !! m = Some ub ∧ uId ∈ ub) ∧
     ub' !! mId = Some (Message.readers msg) ∧
     (∀ m, m ≠ mId →
           ub' !! m = if decide (m ∈ anc)
                      then (λ ub, ub ∖ {[uId]}) <$> _unackby s !! m
                      else _unackby s !! m) ∧
     (∀ m, m ∈ acked ↔
           (m = mId ∧ Message.readers msg = ∅) ∨
           (m ∈ anc ∧ ∃ ub, _unackby s !! m = Some ub ∧ ub ∖ {[uId]} = ∅)) ∧
     NoDup acked).
Proof.
  intros Hwf. unfold add. unfold_monad. rewrite (wf_fubar s Hwf).
  destruct (validate s msg) as [[[[mId uId] pumId] context]| |] eqn:Hval.
  - pose proof Hval as Hval'.
    apply validate_Ok in Hval'
      as (HmId & Hauthor & Hself & Hfresh & Hreader & Hpm & -> & _).
    destruct (commit msg mId uId (last_by s (Some uId)) context s) as [s1 r1] eqn:Hc.
    intros Heq.
    destruct (commit_spec s msg mId uId context s1 r1 Hwf Hfresh Hpm Hreader Hc)
      as (succ' & ub' & anc & acked & -> & Hs1 & Hrest).
    simpl in Heq. simplify_eq. right.
    destruct Hrest as (? & ? & ? & ? & ? & ? & ? & ?).
    exists mId, uId, context, succ', ub', anc, acked. split_and!; try done.
    by rewrite (wf_fubar s Hwf).
  - intros [= <- <-]. left. eauto.
  - by pose proof (validate_total s msg Hwf).
Qed.

Lemma wf_add s msg s' r : wf s → add msg s = (s', r) → wf s'.
Proof.
  intros Hwf Hadd.
  destruct (add_cases s msg s' r Hwf Hadd)
    as [[-> _]|(mId & uId & context & succ' & ub' & anc & acked & Hval & _ & -> &
                Hsucc & Hub & _)]; [done|].
  pose proof Hval as Hval'.
  apply validate_Ok in Hval'
    as (HmId & Hauthor & Hself & Hfresh & Hreader & Hpm & _ & _ & _ & _ & _ & Hctx).
  apply wf_commit; try done.
  destruct (mergeContext_good s (Message.parents msg) (Message.readers msg) Hwf Hpm)
    as (c & Hc & Hgood). rewrite Hc in Hctx. by simplify_eq.
Qed.

Lemma by_spec s uId s' r :
  wf s → by_ uId s = (s', r) →
  (r = Ok (default [] (_authorMessages s !! uId)) ∧ is_Some (_authorMessages s !! uId) ∨
   is_throw r ∧ _authorMessages s !! uId = None) ∧
  (∃ cacheBy, s' = set_cacheBy cacheBy s ∧
              ∀ u l, cacheBy !! u = Some l → _authorMessages s !! u = Some l).
Proof.
  intros Hwf. unfold by_. unfold_monad. cbn beta.
  destruct (_cacheBy s !! uId) as [l|] eqn:Hcache.
  - intros [= <- <-]. apply (wf_cacheBy s Hwf) in Hcache as Hl. rewrite Hl. split.
    + left. eauto.
    + exists (_cacheBy s). split; [by destruct s|]. apply (wf_cacheBy s Hwf).
  - unfold safeGet. destruct (_authorMessages s !! uId) as [l|] eqn:Hl.
    + intros [= <- <-]. split; [left; eauto|].
      eexists. split; [done|]. intros u l'. rewrite lookup_insert.
      case_decide; [congruence|]. apply (wf_cacheBy s Hwf).
    + intros [= <- <-]. split; [by right|].
      exists (_cacheBy s). split; [by destruct s|]. apply (wf_cacheBy s Hwf).
Qed.

Lemma wf_set_cacheBy s cacheBy :
  wf s → (∀ u l, cacheBy !! u = Some l → _authorMessages s !! u = Some l) →
  wf (set_cacheBy cacheBy s).
Proof. intros Hwf Hc. destruct s. destruct Hwf. by split. Qed.

Lemma wf_by s uId s' r : wf s → by_ uId s = (s', r) → wf s'.
Proof.
  intros Hwf Hby. destruct (by_spec s uId s' r Hwf Hby) as [_ (c & -> & Hc)].
  by apply wf_set_cacheBy.
Qed.

Lemma unacked_spec s s' r :
  wf s → unacked s = (s', r) →
  r = Ok (_sortMIds s (elements (_unacked s))) ∧
  s' = set_cacheUnacked (Some (_sortMIds s (elements (_unacked s)))) s.
Proof.
  intros Hwf. unfold unacked. unfold_monad. cbn beta.
  destruct (_cacheUnacked s) as [l|] eqn:Hcache.
  - intros [= <- <-]. pose proof (wf_cacheUnacked s Hwf l Hcache) as Hl.
    split; [by rewrite Hl|]. rewrite <-Hl. destruct s. simpl in *. by rewrite Hcache.
  - by intros [= <- <-].
Qed.

Lemma wf_unacked s s' r : wf s → unacked s = (s', r) → wf s'.
Proof.
  intros Hwf Hun. destruct (unacked_spec s s' r Hwf Hun) as [_ ->].
  destruct s. destruct Hwf. split; try done. simpl. by intros l [= <-].
Qed.

(** Every transcript a caller can get satisfies the invariant; in
    particular no call of [add] on it throws after its first write. *)
Lemma reachable_wf s : reachable s → wf s.
Proof.
  induction 1 as [|s msg s' r _ IH Hadd|s uId s' r _ IH Hby|s s' r _ IH Hun].
  - apply wf_new.
  - by eapply wf_add.
  - by eapply wf_by.
  - by eapply wf_unacked.
Qed.

(** [add] answers: it throws or returns, on every transcript that
    satisfies the invariant. *)
Lemma add_total s msg : wf s → (add msg s).2 ≠ Diverge.
Proof.
  intros Hwf. destruct (add msg s) as [s' r] eqn:Hadd.
  destruct (add_cases s msg s' r Hwf Hadd)
    as [(_ & e & -> & _)|(? & ? & ? & ? & ? & ? & ? & _ & -> & _)]; done.
Qed.

(** A message [add] must refuse is refused by the checks, before any
    write. *)
Lemma add_rejects s msg : wf s → invalid s msg → ∃ e, add msg s = (s, Throw e).
Proof.
  intros Hwf Hinv. destruct (add msg s) as [s' r] eqn:Hadd.
  destruct (add_cases s msg s' r Hwf Hadd)
    as [(-> & e & -> & _)|(mId & uId & context & ? & ? & ? & ? & Hval & _)];
    [eauto|].
  exfalso. clear Hadd.
  apply validate_Ok in Hval
    as (HmId & Hauthor & Hself & Hfresh & Hreader & Hpm & _ & Hsecret & Hdistinct
        & Horder & [merged Hmerge] & _).
  destruct Hinv as [H|[H|[H|[H|[H|[H|[H|[H|[H|H]]]]]]]]].
  - congruence.
  - congruence.
  - destruct H as (mId' & ? & ?). by simplify_eq.
  - destruct H as (mId' & ? & ?). by simplify_eq.
  - destruct H as (uId' & ? & ?). by simplify_eq.
  - destruct H as (p & Hp & Hnp). by apply Hnp, Hpm.
  - destruct H as (uId' & p & parent & ? & Hp & Hparent & Hmem). simplify_eq.
    by apply Hmem, (Hsecret p parent).
  - destruct H as (p1 & p2 & parent1 & parent2 & Hne & ? & ? & ? & ? & ?).
    by apply Hne, (Hdistinct p1 p2 parent1 parent2).
  - destruct H as (uId' & pumId & ? & Hlast & Hle). simplify_eq.
    rewrite Hlast in Horder. destruct Horder as (p & Hp & Hlep).
    by apply (Hle p).
  - destruct H as [e He]. congruence.
Qed.

(** [by(u)] is the list of [u]'s messages in the order [u] wrote them. *)
Lemma by_Ok s u s1 l :
  wf s → by_ u s = (s1, Ok l) → _authorMessages s !! u = Some l.
Proof.
  intros Hwf Hby. destruct (by_spec s u s1 (Ok l) Hwf Hby) as [[[Hl Hsome]|[[] _]] _].
  destruct Hsome as [l' Hl']. rewrite Hl' in Hl |- *. simpl in Hl. congruence.
Qed.

Lemma le_same_author s u l i j m0 m1 :
  wf s → _authorMessages s !! u = Some l →
  l !! i = Some m0 → l !! j = Some m1 → i ≤ j → le s m0 m1 = Ok true.
Proof.
  intros Hwf Hl Hi Hj Hij. unfold le. cbn [le_fuel].
  case_decide; [done|].
  destruct (wf_author_list s Hwf u l i m0 Hl Hi) as [(msg0 & Hm0 & Hu0) Hx].
  destruct (wf_author_list s Hwf u l j m1 Hl Hj) as [(msg1 & Hm1 & Hu1) Hy].
  unfold author, safeGet. rewrite Hm0, Hm1. simpl.
  rewrite decide_True by congruence. rewrite Hx, Hy. simpl.
  by rewrite bool_decide_true.
Qed.

(** The order [_sortMIds] sorts by is total; on ids that all have an index
    a list it sorted is sorted throughout. *)
Global Instance index_le_total (idx : gmap string nat) : Total (index_le idx).
Proof. intros a b. unfold index_le. repeat case_match; try lia; by left. Qed.

Lemma index_le_sorted (idx : gmap string nat) (l : list string) :
  (∀ m, m ∈ l → is_Some (idx !! m)) → NoDup l →
  (∀ a b x, idx !! a = Some x → idx !! b = Some x → a = b) →
  Sorted (index_le idx) l →
  StronglySorted (λ a b, ∃ x y, idx !! a = Some x ∧ idx !! b = Some y ∧ x < y) l.
Proof.
  intros Hidx Hnd Hinj Hsorted.
  induction Hsorted as [|a l Hsorted IH Hhd]; [constructor|].
  apply NoDup_cons in Hnd as [Ha Hnd].
  assert (StronglySorted
            (λ a b, ∃ x y, idx !! a = Some x ∧ idx !! b = Some y ∧ x < y) l) as Hl.
  { apply IH; [|done]. intros m Hm. apply Hidx. by right. }
  constructor; [done|].
  destruct (Hidx a) as [x Hx]; [by left|].
  destruct Hhd as [|b l Hab]; [constructor|].
  destruct (Hidx b) as [y Hy]; [right; by left|].
  assert (x < y) as Hxy.
  { unfold index_le in Hab. rewrite Hx, Hy in Hab.
    destruct (decide (x = y)) as [->|]; [|lia].
    exfalso. apply Ha. rewrite (Hinj a b y Hx Hy). by left. }
  constructor; [eauto 6|].
  apply StronglySorted_inv in Hl as [_ Hb].
  eapply Forall_impl; [exact Hb|]. simpl.
  intros c (y' & z & Hy' & Hz & Hlt). simplify_eq. exists x, z. split_and!; [done..|lia].
Qed.

Lemma sortMIds_spec s l :
  wf s → NoDup l → (∀ m, m ∈ l → m ∈ dom (_messages s)) →
  _sortMIds s l ≡ₚ l ∧
  StronglySorted (λ a b, ∃ x y, index s a = Some x ∧ index s b = Some y ∧ x < y)
                 (_sortMIds s l).
Proof.
  intros Hwf Hnd Hl. unfold _sortMIds.
  pose proof (merge_sort_Permutation (index_le (_messageIndex s)) l) as Hperm.
  split; [done|]. apply index_le_sorted.
  - intros m Hm. rewrite Hperm in Hm. by apply (wf_has_index s m Hwf), Hl.
  - by rewrite Hperm.
  - intros a b x. apply (wf_index_inj s a b x Hwf).
  - apply Sorted_merge_sort, _.
Qed.

Lemma le_any_ext (f g : string → string → outcome bool) m0 l :
  (∀ p, f m0 p = g m0 p) → le_any f m0 l = le_any g m0 l.
Proof. intros Hfg. induction l as [|p l IH]; [done|]. simpl. by rewrite Hfg, IH. Qed.

(** C1: a message that fails one of [add]'s checks, or whose parents the
    merger refuses, makes [add] throw, and the transcript after the call is
    the transcript before it: [size], [all], [min], [max], [pre], [suc],
    [by], [unackby], [unacked] and the context map answer as before. *)
Theorem add_invalid_leaves_transcript s msg :
  reachable s → invalid s msg → ∃ e, add msg s = (s, Throw e).
Proof. intros Hs%reachable_wf. by apply add_rejects. Qed.

(** C2: the messages of one author are totally ordered by [le], in the
    order of [by(u)]; and [add] refuses, without a write, a message of [u]
    none of whose parents succeeds the last message [u] wrote. *)
Theorem per_author_total_order s u s1 l :
  reachable s → by_ u s = (s1, Ok l) →
  (∀ i j m0 m1, l !! i = Some m0 → l !! j = Some m1 → i ≤ j → le s m0 m1 = Ok true) ∧
  (∀ msg q,
     Message.author msg = Some u → last l = Some q →
     (∀ p, p ∈ Message.parents msg → le s q p ≠ Ok true) →
     ∃ e, add msg s = (s, Throw e)).
Proof.
  intros Hwf%reachable_wf Hl%by_Ok; [|done]. split.
  - intros i j m0 m1. by apply le_same_author with u.
  - intros msg q Hu Hq Hle. apply add_rejects; [done|].
    do 8 right. left. exists u, q. split_and!; [done| |done].
    unfold last_by. simpl. by rewrite Hl, Hq.
Qed.

(** C3: [le] answers on any two accepted messages, and when it answers
    [true] the first was accepted no later than the second: the accept
    order is a linear extension of [le]. *)
Theorem accept_order_extends_le s log i j a b :
  reachable s → all s = Ok log → log !! i = Some a → log !! j = Some b →
  (∃ r, le s a b = Ok r) ∧ (le s a b = Ok true → i ≤ j).
Proof.
  intros Hwf%reachable_wf [= <-] Hi%(wf_index s Hwf) Hj%(wf_index s Hwf). split.
  - apply le_total; [done|apply wf_has_index; eauto..].
  - by apply le_fuel_index.
Qed.

(** X27: when [add] succeeds, the list it returns holds the message itself
    if it has no readers, and besides it exactly the messages accepted
    before the call that some reader had left to acknowledge before it and
    none has after it; the list is in ascending order of accept index. *)
Theorem add_returns_newly_acked s msg s' acked :
  reachable s → add msg s = (s', Ok acked) →
  ∃ mId,
    Message.mId msg = Some mId ∧
    (∀ m, m ∈ acked ↔
          (m = mId ∧ Message.readers msg = ∅) ∨
          (has s m = Ok true ∧ (∃ ub, unackby s m = Ok ub ∧ ub ≠ ∅) ∧
           unackby s' m = Ok ∅)) ∧
    StronglySorted (λ a b, ∃ x y, index s' a = Some x ∧ index s' b = Some y ∧ x < y)
                   acked.
Proof.
  intros Hwf%reachable_wf Hadd.
  pose proof (wf_add s msg s' _ Hwf Hadd) as Hwf'.
  destruct (add_cases s msg s' _ Hwf Hadd)
    as [(_ & e & ? & _)|(mId & uId & context & succ' & ub' & anc & acked0 & Hval & Hr
                         & Hs' & _ & Hdom & Hnd & Hanc & HmId & Hub' & Hacked & Hnd0)];
    [done|].
  apply validate_Ok in Hval as (HmId' & _ & _ & Hfresh & _).
  assert (∀ m, m ∈ acked0 → m ∈ dom (_messages s')) as Hin.
  { intros m [[-> _]|[(_ & ub & Hub & _)%Hanc _]]%Hacked; rewrite Hs'; simpl;
      rewrite dom_insert_L; [set_solver|].
    apply elem_of_union_r. rewrite <-(wf_unackby_dom s Hwf). by eapply elem_of_dom_2. }
  destruct (sortMIds_spec s' acked0 Hwf' Hnd0 Hin) as [Hperm Hsorted].
  injection Hr as ->. exists mId. split_and!; [done| |done].
  intros m. rewrite Hperm, Hacked. unfold has, unackby, safeGet.
  assert (_unackby s' = ub') as -> by (by rewrite Hs').
  split.
  - intros [?|[Hm (ub & Hub & Hempty)]]; [by left|right].
    destruct (Hanc m Hm) as (Hne & ub0 & Hub0 & Hu). simplify_eq.
    rewrite (Hub' m Hne), decide_True, Hub by done. simpl. split_and!.
    + rewrite bool_decide_true; [done|].
      rewrite <-(wf_unackby_dom s Hwf). by eapply elem_of_dom_2.
    + exists ub. split; [done|]. set_solver.
    + by rewrite Hempty.
  - intros [?|(Hm & (ub & Hub & Hne) & Hub'm)]; [by left|right].
    injection Hm as Hm%bool_decide_eq_true.
    assert (m ≠ mId) as HmmId by (by intros ->).
    rewrite (Hub' m HmmId) in Hub'm.
    destruct (_unackby s !! m) as [ub0|] eqn:Hub0; [|done]. simplify_eq.
    destruct (decide (m ∈ anc)) as [Hanc'|]; simpl in Hub'm; [|by simplify_eq].
    split; [done|]. exists ub. split; [done|]. by simplify_eq.
Qed.

(** X28: [add] never poisons a transcript a caller can build: it answers,
    the [_fubar] flag stays unset, and when it throws the error is one of
    its checks (the merge of the members included) and the transcript is as
    it was. The writes of [add] do not throw. *)
Theorem add_never_poisons s msg s' r :
  reachable s → add msg s = (s', r) →
  _fubar s' = false ∧ r ≠ Diverge ∧
  ∀ e, r = Throw e → s' = s ∧ validate s msg = Throw e.
Proof.
  intros Hwf%reachable_wf Hadd.
  pose proof (wf_fubar s' (wf_add s msg s' _ Hwf Hadd)) as Hfubar.
  split; [done|].
  destruct (add_cases s msg s' r Hwf Hadd)
    as [(-> & e & -> & Hval)|(? & ? & ? & ? & ? & ? & ? & _ & -> & _)].
  - split; [done|]. by intros ? [= <-].
  - split; [done|]. by intros ? [=].
Qed.

End TranscriptProperties.

(** *** The properties on the toy conversation *)

Import BaseTranscript.

(** The toy conversation is one a caller can have. *)
Lemma toy_reachable_s1 : reachable (merger := Toy.merger) Toy.s1.1.
Proof. exact (reachable_add _ _ _ _ reachable_new (surjective_pairing Toy.s1)). Qed.

Lemma toy_reachable_s2 : reachable (merger := Toy.merger) Toy.s2.1.
Proof. exact (reachable_add _ _ _ _ toy_reachable_s1 (surjective_pairing Toy.s2)). Qed.

Lemma toy_reachable_s3 : reachable (merger := Toy.merger) Toy.s3.1.
Proof. exact (reachable_add _ _ _ _ toy_reachable_s2 (surjective_pairing Toy.s3)). Qed.

Lemma add_invalid_leaves_transcript_witness :
  ∃ e, Toy.add (Toy.message "m3" "A" [] ["B"; "C"]) Toy.s2.1 = (Toy.s2.1, Throw e).
Proof.
  apply (add_invalid_leaves_transcript (merger := Toy.merger)).
  - apply toy_reachable_s2.
  - do 8 right. left. exists "A", "m2". split_and!.
    + reflexivity.
    + vm_compute. reflexivity.
    + intros p Hp. by apply not_elem_of_empty in Hp.
Defined.

Lemma per_author_total_order_witness :
  (∀ i j m0 m1,
     ["m1"; "m2"] !! i = Some m0 → ["m1"; "m2"] !! j = Some m1 → i ≤ j →
     le Toy.s2.1 m0 m1 = Ok true) ∧
  (∀ msg q,
     Message.author msg = Some "A" → last ["m1"; "m2"] = Some q →
     (∀ p, p ∈ Message.parents msg → le Toy.s2.1 q p ≠ Ok true) →
     ∃ e, Toy.add msg Toy.s2.1 = (Toy.s2.1, Throw e)).
Proof.
  apply (per_author_total_order (merger := Toy.merger) Toy.s2.1 "A"
           (by_ "A" Toy.s2.1).1 ["m1"; "m2"]).
  - apply toy_reachable_s2.
  - vm_compute. reflexivity.
Defined.

Lemma accept_order_extends_le_witness :
  (∃ r, le Toy.s4.1 "m1" "m4" = Ok r) ∧ (le Toy.s4.1 "m1" "m4" = Ok true → 0 ≤ 3).
Proof.
  apply (accept_order_extends_le (merger := Toy.merger) Toy.s4.1
           ["m1"; "m2"; "m3"; "m4"] 0 3 "m1" "m4").
  - exact (reachable_add _ _ _ _ toy_reachable_s3 (surjective_pairing Toy.s4)).
  - vm_compute. reflexivity.
  - reflexivity.
  - reflexivity.
Defined.

(** C4, at a message without readers added to a new transcript: the list
    [add] returns holds the message itself, which is no older message
    and was not accepted before the call. *)
Lemma add_returns_own_id :
  (Toy.add (Toy.message "x" "A" [] []) new).2 = Ok ["x"] ∧
  Message.mId (Toy.message "x" "A" [] []) = Some "x".
Proof. split; [vm_compute|]; reflexivity. Qed.

Lemma add_returns_newly_acked_witness :
  ∃ mId,
    Message.mId (Toy.message "m4" "C" ["m3"] ["A"; "B"]) = Some mId ∧
    (∀ m, m ∈ ["m1"; "m2"] ↔
          (m = mId ∧ Message.readers (Toy.message "m4" "C" ["m3"] ["A"; "B"]) = ∅) ∨
          (has Toy.s3.1 m = Ok true ∧
           (∃ ub, unackby Toy.s3.1 m = Ok ub ∧ ub ≠ ∅) ∧
           unackby Toy.s4.1 m = Ok ∅)) ∧
    StronglySorted
      (λ a b, ∃ x y, index Toy.s4.1 a = Some x ∧ index Toy.s4.1 b = Some y ∧ x < y)
      ["m1"; "m2"].
Proof.
  apply (add_returns_newly_acked (merger := Toy.merger)).
  - apply toy_reachable_s3.
  - vm_compute. reflexivity.
Defined.

Lemma add_never_poisons_witness :
  _fubar Toy.s2.1 = false ∧ Toy.s2.2 ≠ Diverge ∧
  ∀ e, Toy.s2.2 = Throw e →
       Toy.s2.1 = Toy.s1.1 ∧
       validate (merger := Toy.merger) Toy.s1.1
         (Toy.message "m2" "A" ["m1"] ["B"; "C"]) = Throw e.
Proof.
  apply (add_never_poisons (merger := Toy.merger) Toy.s1.1
           (Toy.message "m2" "A" ["m1"] ["B"; "C"])).
  - apply toy_reachable_s1.
  - apply surjective_pairing.
Defined.

(** ** More on the causal transcript *)

Section TranscriptInvariants.

Import BaseTranscript.

Context {merger : Merger}.

Implicit Types (s : t) (m p : string) (msg : Message.t).

Ltac unfold_monad :=
  unfold mbind, M_bind, bind, gets, modify, ret, throw, lift, try_rethrow in *.

Lemma wf_log_dom s m : wf s → m ∈ _log s ↔ m ∈ dom (_messages s).
Proof.
  intros Hwf. rewrite (wf_has_index s m Hwf). split.
  - intros [i Hi]%list_elem_of_lookup. exists i. by apply (wf_index s Hwf).
  - intros [i Hi]. apply (wf_index s Hwf) in Hi. by eapply list_elem_of_lookup_2.
Qed.

Lemma wf_log_NoDup s : wf s → NoDup (_log s).
Proof.
  intros Hwf. apply NoDup_alt. intros i j m Hi Hj.
  apply (wf_index s Hwf) in Hi, Hj. unfold index in *. congruence.
Qed.

Lemma filter_ext_elem {A} (P Q : A → Prop) `{∀ x, Decision (P x)}
    `{∀ x, Decision (Q x)} (l : list A) :
  (∀ x, x ∈ l → P x ↔ Q x) → filter P l = filter Q l.
Proof.
  induction l as [|x l IH]; intros HPQ; [done|].
  rewrite !filter_cons.
  assert (filter P l = filter Q l) as -> by (apply IH; intros; apply HPQ; by right).
  destruct (decide (P x)) as [HP|HP], (decide (Q x)) as [HQ|HQ]; try done.
  - exfalso. apply HQ, HPQ; [left|done].
  - exfalso. apply HP, HPQ; [left|done].
Qed.

Lemma filter_nil_elem {A} (P : A → Prop) `{∀ x, Decision (P x)} (l : list A) :
  (∀ x, x ∈ l → ¬ P x) → filter P l = [].
Proof.
  induction l as [|x l IH]; intros HP; [done|].
  rewrite filter_cons_False by (apply HP; left). apply IH. intros; apply HP; by right.
Qed.

Lemma parent_of_insert s s' mId msg a b :
  _messages s' = <[mId := msg]> (_messages s) → mId ∉ dom (_messages s) →
  parent_of s a b → parent_of s' a b.
Proof.
  intros Hs' Hfresh (msgb & Hb & Ha). exists msgb. split; [|done].
  rewrite Hs', lookup_insert_ne; [done|]. intros <-. by apply Hfresh, elem_of_dom.
Qed.

Lemma ancestor_insert s s' mId msg a b :
  _messages s' = <[mId := msg]> (_messages s) → mId ∉ dom (_messages s) →
  ancestor s a b → ancestor s' a b.
Proof.
  intros Hs' Hfresh. induction 1 as [|a b c Hab _ IH]; [constructor|].
  eapply rtc_l; [|done]. by eapply parent_of_insert.
Qed.

Lemma ancestor_parent s a p m msg :
  _messages s !! m = Some msg → p ∈ Message.parents msg →
  ancestor s a p → ancestor s a m.
Proof. intros Hm Hp Hap. eapply rtc_r; [done|]. by exists msg. Qed.

(** [le] answers [true] only on a message and one of its descendants. *)
Lemma le_fuel_sound s fuel a b :
  wf s → coherent s → le_fuel fuel s a b = Ok true → ancestor s a b.
Proof.
  intros Hwf Hco. revert b. induction fuel as [|fuel IH]; intros b; [done|].
  simpl. case_decide as Hab; [intros _; subst; constructor|].
  unfold author, safeGet, get_defined.
  destruct (_messages s !! a) as [msga|] eqn:Ha; simpl; [|done].
  destruct (_messages s !! b) as [msgb|] eqn:Hb; simpl; [|done].
  destruct (wf_authored s Hwf a msga Ha) as (ua & la & x & Hua & Hla & Hx & Hxa).
  destruct (wf_authored s Hwf b msgb Hb) as (ub & lb & y & Hub & Hlb & Hy & Hyb).
  case_decide as Hu; simpl.
  { intros [= (x' & y' & Hx' & Hy' & Hle)%js_le_true].
    assert (ua = ub) as -> by congruence.
    rewrite Hla in Hlb. injection Hlb as ->.
    rewrite Hx in Hx'. injection Hx' as ->. rewrite Hy in Hy'. injection Hy' as ->.
    exact (co_author_anc s Hco _ _ _ _ _ _ Hla Hxa Hyb Hle). }
  rewrite Hua. simpl. case_bool_decide as Hreader.
  - destruct (_context s !! b) as [c|] eqn:Hc; simpl; [|done].
    destruct (c !! ua) as [[p0|]|] eqn:Hp0; [|done..].
    intros [= (x' & y' & Hx' & Hy' & Hle)%js_le_true].
    destruct (wf_context s Hwf b c ua p0 Hc Hp0) as ((msgp & Hp & Hup) & _).
    destruct (wf_authored s Hwf p0 msgp Hp) as (up & lp & z & Hup' & Hlp & Hz & Hzp).
    assert (up = ua) as -> by congruence.
    rewrite Hla in Hlp. injection Hlp as ->.
    rewrite Hx in Hx'. injection Hx' as ->. rewrite Hz in Hy'. injection Hy' as ->.
    etrans; [|by eapply (co_context_anc s Hco b c)].
    exact (co_author_anc s Hco _ _ _ _ _ _ Hla Hxa Hzp Hle).
  - destruct (js_gt _ _); [done|].
    unfold pre, safeGet. rewrite Hb. simpl.
    intros (l1 & p & l2 & Hl & Hp & _)%le_any_true.
    assert (p ∈ Message.parents msgb) as Hpin.
    { apply elem_of_elements. rewrite Hl. set_solver. }
    eapply ancestor_parent; [done..|]. by apply IH.
Qed.

(** The last two loops of [_mergeContext]. *)
Lemma fill_null_lookup (l : list string) (c : gmap string (option string)) u :
  foldl (λ c u, match c !! u with None => <[u := None]> c | Some _ => c end) c l !! u
  = match c !! u with
    | Some v => Some v
    | None => if decide (u ∈ l) then Some None else None
    end.
Proof.
  revert c. induction l as [|x l IH]; intros c; cbn [foldl].
  { destruct (c !! u); [done|]. by rewrite decide_False by apply not_elem_of_nil. }
  rewrite IH. destruct (c !! x) as [v|] eqn:Hx.
  - destruct (c !! u) eqn:Hu; [done|].
    destruct (decide (u ∈ l)).
    + by rewrite decide_True by (by right).
    + rewrite decide_False; [done|]. intros [->|?]%elem_of_cons; [congruence|done].
  - destruct (decide (u = x)) as [->|Hne].
    + rewrite lookup_insert_eq, Hx. by rewrite decide_True by left.
    + rewrite lookup_insert_ne by done. destruct (c !! u); [done|].
      destruct (decide (u ∈ l)).
      * by rewrite decide_True by (by right).
      * rewrite decide_False; [done|]. by intros [?|?]%elem_of_cons.
Qed.

Lemma prune_lookup (ruId : gset string) (l : list string)
    (c : gmap string (option string)) u :
  foldl (λ c pu, if bool_decide (pu ∈ ruId) then c else delete pu c) c l !! u
  = if decide (u ∈ l ∧ u ∉ ruId) then None else c !! u.
Proof.
  revert c. induction l as [|x l IH]; intros c; cbn [foldl].
  { rewrite decide_False; [done|]. intros [?%elem_of_nil _]. done. }
  rewrite IH. case_bool_decide as Hx.
  - destruct (decide (u ∈ l ∧ u ∉ ruId)) as [[? ?]|Hn].
    + rewrite decide_True; [done|]. split; [by right|done].
    + rewrite decide_False; [done|]. intros [[->|?]%elem_of_cons ?]; [done|].
      by apply Hn.
  - destruct (decide (u = x)) as [->|Hne].
    + rewrite lookup_delete_eq. rewrite (decide_True (P := x ∈ x :: l ∧ x ∉ ruId)).
      * by destruct (decide _).
      * split; [left|done].
    + rewrite lookup_delete_ne by done.
      destruct (decide (u ∈ l ∧ u ∉ ruId)) as [[? ?]|Hn].
      * rewrite decide_True; [done|]. split; [by right|done].
      * rewrite decide_False; [done|]. intros [[?|?]%elem_of_cons ?]; [done|].
        by apply Hn.
Qed.

(** What [_mergeContext] returns: an entry for each reader, and no other;
    an entry that is not [null] is a parent, or an entry of the context of
    a parent. *)
Lemma mergeContext_inv (Q : string → string → Prop) s pmId ruId context :
  (∀ m mc u p, m ∈ pmId → _context s !! m = Some mc → mc !! u = Some (Some p) → Q u p) →
  (∀ m msg u, m ∈ pmId → _messages s !! m = Some msg → Message.author msg = Some u →
              Q u m) →
  _mergeContext s pmId ruId = Ok context →
  (∀ u p, context !! u = Some (Some p) → Q u p) ∧ dom context = ruId.
Proof.
  intros Hctx Hpar. unfold _mergeContext.
  set (P := λ c : gmap string (option string), ∀ u p, c !! u = Some (Some p) → Q u p).
  destruct (foldM (merge_parent s) ∅ (elements pmId)) as [c1| |] eqn:Hc1; simpl; [|done..].
  assert (P c1) as HP1.
  { apply (foldM_Ok_inv P _ _ _ _ Hc1); [by intros ??|].
    intros c m c' Hc Hm%elem_of_elements. unfold merge_parent, get_defined.
    destruct (_context s !! m) as [mc|] eqn:Hmc; simpl; [|done].
    intros Hfold. apply (foldM_Ok_inv P _ _ _ _ Hfold Hc).
    intros c2 [u um] c3 Hc2 Hin%elem_of_map_to_list. unfold merge_entry.
    assert (P (<[u := um]> c2)) as Hins.
    { intros u' p. rewrite lookup_insert. case_decide; [|by apply Hc2].
      intros [= ->]. subst. by eapply Hctx. }
    destruct (c2 !! u) as [[cur|]|]; [|by intros [= <-]..].
    destruct um as [um|]; [|by intros [= <-]].
    destruct (ge s um cur) as [[]| |]; simpl; [|by intros [= <-]|done..].
    by intros [= <-]. }
  destruct (foldM (set_author s) c1 (elements pmId)) as [c2| |] eqn:Hc2; simpl; [|done..].
  assert (P c2) as HP2.
  { apply (foldM_Ok_inv P _ _ _ _ Hc2 HP1).
    intros c m c' Hc Hm%elem_of_elements. unfold set_author, author, safeGet.
    destruct (_messages s !! m) as [msg|] eqn:Hmsg; simpl; [|done].
    destruct (Message.author msg) as [u|] eqn:Hu; intros [= <-]; [|done].
    intros u' p. rewrite lookup_insert. case_decide; [|by apply Hc].
    intros [= <-]. subst. by eapply Hpar. }
  intros [= <-]. split.
  - intros u p. rewrite prune_lookup. case_decide; [done|].
    rewrite fill_null_lookup. destruct (c2 !! u) eqn:Hu; [|by case_decide].
    intros [= ->]. by apply HP2.
  - apply set_eq. intros u. rewrite elem_of_dom, prune_lookup.
    rewrite fill_null_lookup. destruct (decide (u ∈ ruId)) as [Hin|Hout].
    + rewrite decide_False by (by intros [_ ?]). split; [done|]. intros _.
      destruct (c2 !! u); [done|]. rewrite decide_True; [done|].
      by apply elem_of_elements.
    + split; [|done]. case_decide as Hd; [by intros [? ?]|].
      intros Hsome. exfalso. apply Hd. split; [|done].
      apply elem_of_elements, elem_of_dom. by rewrite fill_null_lookup.
Qed.

Lemma foldM_app {A B} (f : B → A → outcome B) b l1 l2 :
  foldM f b (l1 ++ l2) = (b' ← foldM f b l1; foldM f b' l2).
Proof.
  revert b. induction l1 as [|x l1 IH]; intros b; simpl; [done|].
  destruct (f b x); simpl; [apply IH|done..].
Qed.

(** The second loop of [_mergeContext] on parents of distinct authors: each
    parent is the entry of its author. *)
Lemma set_authors_lookup s l c c' :
  (∀ p1 p2 msg1 msg2,
     p1 ∈ l → p2 ∈ l → _messages s !! p1 = Some msg1 → _messages s !! p2 = Some msg2 →
     Message.author msg1 = Message.author msg2 → p1 = p2) →
  foldM (set_author s) c l = Ok c' →
  ∀ p msgp u, p ∈ l → _messages s !! p = Some msgp → Message.author msgp = Some u →
              c' !! u = Some (Some p).
Proof.
  revert c'. induction l as [|x l IH] using rev_ind; intros c' Hdistinct Hfold p msgp u Hp.
  { by apply elem_of_nil in Hp. }
  rewrite foldM_app in Hfold.
  destruct (foldM (set_author s) c l) as [c1| |] eqn:Hc1; simpl in Hfold; [|done..].
  unfold set_author, author, safeGet in Hfold.
  destruct (_messages s !! x) as [msgx|] eqn:Hx; simpl in Hfold; [|done].
  intros Hmsgp Hu.
  assert (∀ q, q ∈ l → q ∈ l ++ [x]) as Hsub by (intros; set_solver).
  destruct (Message.author msgx) as [ux|] eqn:Hux; simpl in Hfold; simplify_eq.
  - destruct (decide (u = ux)) as [->|Hne].
    + rewrite lookup_insert_eq.
      assert (p = x) as ->; [|done].
      apply (Hdistinct p x msgp msgx); [done|set_solver|done..|congruence].
    + rewrite lookup_insert_ne by done.
      apply elem_of_app in Hp as [Hp| ->%list_elem_of_singleton]; [|congruence].
      eapply (IH c1); eauto.
  - apply elem_of_app in Hp as [Hp| ->%list_elem_of_singleton]; [|congruence].
    eapply (IH c'); eauto.
Qed.

Lemma mergeContext_parent s pmId ruId context :
  (∀ p1 p2 msg1 msg2,
     p1 ∈ pmId → p2 ∈ pmId →
     _messages s !! p1 = Some msg1 → _messages s !! p2 = Some msg2 →
     Message.author msg1 = Message.author msg2 → p1 = p2) →
  _mergeContext s pmId ruId = Ok context →
  ∀ p msgp u, p ∈ pmId → _messages s !! p = Some msgp → Message.author msgp = Some u →
              u ∈ ruId → context !! u = Some (Some p).
Proof.
  intros Hdistinct. unfold _mergeContext.
  destruct (foldM (merge_parent s) ∅ (elements pmId)) as [c1| |]; simpl; [|done..].
  destruct (foldM (set_author s) c1 (elements pmId)) as [c2| |] eqn:Hc2; simpl; [|done..].
  intros [= <-] p msgp u Hp Hmsgp Hu Hr.
  rewrite prune_lookup, decide_False by (by intros [_ ?]).
  rewrite fill_null_lookup.
  erewrite (set_authors_lookup s _ c1 c2); [done| |done|by apply elem_of_elements|done..].
  intros p1 p2 msg1 msg2 ?%elem_of_elements ?%elem_of_elements. by apply Hdistinct.
Qed.

Lemma coherent_new : coherent new.
Proof.
  split; try done.
  - intros m. split; [set_solver|]. by intros (? & ? & ?).
  - intros u. split; [set_solver|]. by intros (? & ?).
  - intros m. split; [set_solver|]. by intros (? & ? & ?).
Qed.

Lemma coherent_set_cacheBy s cacheBy : coherent s → coherent (set_cacheBy cacheBy s).
Proof.
  destruct s. intros [H1 H2 H3 H4 H5 H6 H7 H8 H9 H10].
  split; [exact H1|exact H2|exact H3|exact H4|exact H5|exact H6|exact H7|exact H8
         |exact H9|exact H10].
Qed.

Lemma coherent_set_cacheUnacked s cache :
  coherent s → coherent (set_cacheUnacked cache s).
Proof.
  destruct s. intros [H1 H2 H3 H4 H5 H6 H7 H8 H9 H10].
  split; [exact H1|exact H2|exact H3|exact H4|exact H5|exact H6|exact H7|exact H8
         |exact H9|exact H10].
Qed.

Lemma by_author_insert s s' mId uId msg u m :
  _messages s' = <[mId := msg]> (_messages s) → Message.author msg = Some uId →
  by_author s' u m ↔ (m = mId ∧ u = uId) ∨ (m ≠ mId ∧ by_author s u m).
Proof.
  intros Hs' Hu. unfold by_author. rewrite Hs'.
  destruct (decide (m = mId)) as [->|Hne].
  - rewrite lookup_insert_eq. simpl. rewrite Hu. split.
    + intros [= ->]. by left.
    + intros [[_ ->]|[? _]]; done.
  - rewrite lookup_insert_ne by done. split; [by right|]. by intros [[? _]|[_ ?]].
Qed.

Lemma coherent_add s msg s' r :
  wf s → coherent s → add msg s = (s', r) → coherent s'.
Proof.
  intros Hwf Hco Hadd.
  destruct (add_cases s msg s' r Hwf Hadd)
    as [[-> _]|(mId & uId & context & succ' & ub' & anc & acked & Hval & _ & Hs'
                & _ & Hdom & Hnd & Hanc & HmId & Hub' & Hacked & Hnd0)]; [done|].
  pose proof (last_by_lookup s uId Hwf) as Hlast.
  apply validate_Ok in Hval
    as (HmId' & Hauthor & Hself & Hfresh & Hreader & Hpm & _ & _ & Hdistinct & Horder
        & _ & Hctx).
  assert (_messages s' = <[mId := msg]> (_messages s)) as Hmsgs by (by rewrite Hs').
  assert (_unackby s' = ub') as Hf1 by (by rewrite Hs').
  assert (_unacked s' = (_unacked s ∪ {[mId]}) ∖ list_to_set acked) as Hf2
    by (by rewrite Hs').
  assert (_log s' = _log s ++ [mId]) as Hf3 by (by rewrite Hs').
  assert (_authorMessages s'
          = <[uId := default [] (_authorMessages s !! uId) ++ [mId]]>
              (_authorMessages s)) as Hf4 by (by rewrite Hs').
  assert (_uIds s' = _uIds s ∪ {[uId]}) as Hf5 by (by rewrite Hs').
  assert (_minMessages s'
          = if bool_decide (base.size (Message.parents msg) = 0)
            then _minMessages s ∪ {[mId]} else _minMessages s) as Hf6
    by (by rewrite Hs').
  assert (_context s' = <[mId := context]> (_context s)) as Hf7 by (by rewrite Hs').
  clear Hs'.
  assert (∀ u m, by_author s' u m ↔ (m = mId ∧ u = uId) ∨ (m ≠ mId ∧ by_author s u m))
    as Hby by (intros; by eapply by_author_insert).
  assert (∀ m, m ∈ _log s → m ≠ mId) as Hlogne.
  { intros m Hm%(wf_log_dom s m Hwf) ->. done. }
  assert (∀ u, _authorMessages s !! u = None → ∀ m, ¬ by_author s u m) as Hnone.
  { intros u Hu m. unfold by_author.
    destruct (_messages s !! m) as [msgm|] eqn:Hm; simpl; [|done].
    destruct (wf_authored s Hwf m msgm Hm) as (u' & l & i & Hu' & Hl & _).
    rewrite Hu'. intros [= ->]. congruence. }
  split.
  - (* unackby within the readers *)
    intros m msgm ub. rewrite Hmsgs, Hf1.
    destruct (decide (m = mId)) as [->|Hne].
    + rewrite lookup_insert_eq, HmId. by intros [= <-] [= <-].
    + rewrite lookup_insert_ne, (Hub' m Hne) by done. intros Hm.
      destruct (_unackby s !! m) as [ub0|] eqn:Hub0; [|by destruct (decide _)].
      pose proof (co_unackby s Hco m msgm ub0 Hm Hub0).
      destruct (decide (m ∈ anc)); simpl; intros [= <-]; set_solver.
  - (* the author is no reader *)
    intros m msgm u. rewrite Hmsgs.
    destruct (decide (m = mId)) as [->|Hne].
    + rewrite lookup_insert_eq. intros [= <-] Hu. congruence.
    + rewrite lookup_insert_ne by done. apply (co_author_reader s Hco).
  - (* unacked *)
    intros m. rewrite Hf1, Hf2.
    rewrite elem_of_difference, elem_of_union, elem_of_singleton, elem_of_list_to_set.
    rewrite Hacked, (co_unacked s Hco m).
    destruct (decide (m = mId)) as [->|Hne].
    + rewrite HmId. split.
      * intros [_ Hn]. exists (Message.readers msg). split; [done|].
        intros Hempty. apply Hn. by left.
      * intros (ub & [= <-] & Hne). split; [by right|].
        intros [[_ ?]|[[? _]%Hanc _]]; done.
    + rewrite (Hub' m Hne). split.
      * intros [[(ub & Hub & Hnempty)|?] Hn]; [|done]. rewrite Hub.
        destruct (decide (m ∈ anc)) as [Hin|Hin]; simpl; [|eauto].
        eexists. split; [done|]. intros Hempty. apply Hn. right. eauto.
      * intros (ub1 & Hub1 & Hnempty).
        destruct (_unackby s !! m) as [ub0|] eqn:Hub0; [|by destruct (decide _)].
        split.
        -- left. exists ub0. split; [done|]. intros ->.
           destruct (decide (m ∈ anc)); simpl in Hub1; simplify_eq; set_solver.
        -- intros [[? _]|[Hin (ub & [= <-] & Hempty)]]; [done|].
           rewrite decide_True in Hub1 by done. simpl in Hub1. by simplify_eq.
  - (* by *)
    intros u l. rewrite Hf3, Hf4.
    rewrite filter_app, filter_cons, filter_nil.
    rewrite (filter_ext_elem (by_author s' u) (by_author s u) (_log s)).
    2:{ intros m Hm. rewrite Hby. split; [|right; split; [by apply Hlogne|done]].
        intros [[? _]|[_ ?]]; [by apply Hlogne in Hm|done]. }
    destruct (decide (u = uId)) as [->|Hne].
    + rewrite lookup_insert_eq. intros [= <-].
      rewrite decide_True by (apply Hby; by left).
      f_equal. destruct (_authorMessages s !! uId) as [l|] eqn:Hl; simpl.
      * by apply (co_by s Hco).
      * symmetry. apply filter_nil_elem. intros m _. by apply Hnone.
    + rewrite lookup_insert_ne by done. intros Hl.
      rewrite decide_False.
      * rewrite app_nil_r. by apply (co_by s Hco).
      * rewrite Hby. intros [[_ ?]|[? _]]; done.
  - (* allAuthors *)
    intros u. rewrite Hf5.
    rewrite elem_of_union, elem_of_singleton, (co_uIds s Hco u). split.
    + intros [[m Hm]| ->].
      * exists m. apply Hby. right. split; [|done].
        intros ->. unfold by_author in Hm.
        apply not_elem_of_dom in Hfresh. by rewrite Hfresh in Hm.
      * exists mId. apply Hby. by left.
    + intros [m [[_ ->]|[_ Hm]]%Hby]; [by right|left; eauto].
  - (* min *)
    intros m. rewrite Hf6, Hmsgs.
    destruct (decide (m = mId)) as [->|Hne].
    + rewrite lookup_insert_eq. case_bool_decide as Hsize.
      * split; [|set_solver]. intros _. exists msg. split; [done|].
        apply size_empty_iff in Hsize. by apply leibniz_equiv_iff.
      * rewrite (co_min s Hco mId). split.
        -- intros (msg0 & Hmsg0 & _). apply not_elem_of_dom in Hfresh. congruence.
        -- intros (? & [= <-] & Hempty). by rewrite Hempty, size_empty in Hsize.
    + rewrite lookup_insert_ne by done. rewrite <-(co_min s Hco m).
      case_bool_decide; set_solver.
  - (* the keys of a context *)
    intros m msgm c. rewrite Hmsgs, Hf7.
    destruct (decide (m = mId)) as [->|Hne].
    + rewrite !lookup_insert_eq. intros [= <-] [= <-].
      by apply (mergeContext_inv (λ _ _, True) s _ _ _) in Hctx as [_ ?].
    + rewrite !lookup_insert_ne by done. apply (co_context_dom s Hco).
  - (* the entry of a parent's author *)
    intros m msgm c p msgp u. rewrite Hmsgs, Hf7.
    destruct (decide (m = mId)) as [->|Hne].
    + rewrite !lookup_insert_eq. intros [= <-] [= <-] Hp.
      rewrite lookup_insert_ne by (by intros <-). intros Hmsgp Hu Hr.
      by eapply mergeContext_parent.
    + rewrite !lookup_insert_ne by done. intros Hm Hc Hp.
      rewrite lookup_insert_ne.
      * intros Hmsgp Hu Hr. by eapply (co_context_parent s Hco m msgm c p msgp u).
      * intros <-. destruct (wf_parents s Hwf m msgm mId Hm Hp) as (i & _ & Hi & _).
        apply Hfresh, wf_has_index; eauto.
  - (* the entries of a context are ancestors *)
    intros m c u p. rewrite Hf7.
    destruct (decide (m = mId)) as [->|Hne].
    + rewrite lookup_insert_eq. intros [= <-] Hp.
      apply (mergeContext_inv
               (λ _ p, ∃ par, par ∈ Message.parents msg ∧ ancestor s p par)) in Hctx
        as [Hentries _].
      * destruct (Hentries u p Hp) as (par & Hpar & Hanc').
        eapply ancestor_parent; [by rewrite Hmsgs, lookup_insert_eq|done|].
        by eapply ancestor_insert.
      * intros par mc u' p' Hpar Hmc Hp'. exists par. split; [done|].
        by eapply (co_context_anc s Hco).
      * intros par msgp u' Hpar _ _. exists par. split; [done|constructor].
    + rewrite lookup_insert_ne by done. intros Hc Hp.
      eapply ancestor_insert; [done..|]. by eapply (co_context_anc s Hco).
  - (* the messages of an author are a chain *)
    intros u l i j a b. rewrite Hf4.
    destruct (decide (u = uId)) as [->|Hne].
    2:{ rewrite lookup_insert_ne by done. intros Hl Hi Hj Hij.
        eapply ancestor_insert; [done..|]. by eapply (co_author_anc s Hco). }
    rewrite lookup_insert_eq. intros [= <-] Hi Hj Hij.
    set (old := default [] (_authorMessages s !! uId)) in *.
    assert (∀ k x, old !! k = Some x → ancestor s' x mId) as Hold.
    { intros k x Hk. destruct (_authorMessages s !! uId) as [l|] eqn:Hl; [|done].
      subst old. simpl in Hk.
      destruct (last_by s (Some uId)) as [| |q] eqn:Hq; [congruence|done|].
      destruct Hlast as [l0 Hl0]. destruct Horder as (p & Hp & Hle).
      assert (l = l0 ++ [q]) as -> by congruence.
      assert (ancestor s x q) as Hxq.
      { eapply (co_author_anc s Hco uId (l0 ++ [q]) k (length l0)); [done..| |].
        - by rewrite lookup_app_r, Nat.sub_diag by lia.
        - apply lookup_lt_Some in Hk. rewrite length_app in Hk. simpl in Hk. lia. }
      eapply ancestor_parent; [by rewrite Hmsgs, lookup_insert_eq|exact Hp|].
      eapply ancestor_insert; [done..|]. etrans; [exact Hxq|].
      by eapply le_fuel_sound. }
    destruct (decide (j < length old)) as [Hjlt|Hjge].
    + rewrite lookup_app_l in Hi, Hj by lia.
      destruct (_authorMessages s !! uId) as [l|] eqn:Hl; [|by destruct j].
      eapply ancestor_insert; [done..|]. by eapply (co_author_anc s Hco uId l i j).
    + assert (b = mId) as ->.
      { rewrite lookup_app_r in Hj by lia.
        destruct (j - length old) as [|[|]]; by simplify_eq/=. }
      destruct (decide (i < length old)) as [Hilt|Hige].
      * rewrite lookup_app_l in Hi by lia. by eapply Hold.
      * rewrite lookup_app_r in Hi by lia.
        destruct (i - length old) as [|[|]]; simplify_eq/=. constructor.
Qed.

Lemma reachable_coherent s : reachable s → coherent s.
Proof.
  induction 1 as [|s msg s' r Hs IH Hadd|s uId s' r Hs IH Hby|s s' r Hs IH Hun].
  - apply coherent_new.
  - eapply coherent_add; [by apply reachable_wf| |]; done.
  - destruct (by_spec s uId s' r (reachable_wf s Hs) Hby) as [_ (c & -> & _)].
    by apply coherent_set_cacheBy.
  - destruct (unacked_spec s s' r (reachable_wf s Hs) Hun) as [_ ->].
    by apply coherent_set_cacheUnacked.
Qed.

Lemma by_author_author s u m : by_author s u m ↔ author s m = Ok (Some u).
Proof.
  unfold by_author, author, safeGet. destruct (_messages s !! m) as [msg|]; simpl.
  - split; congruence.
  - split; congruence.
Qed.

(** X1: a message that [add] accepts is appended to [all()], which grows by
    one; [get], [pre], [author] and [unackby] answer on it with the message,
    its parents, its author and its readers, and [get], [pre] and [author]
    answer on every other message as before. *)
Theorem add_appends s msg s' acked :
  reachable s → add msg s = (s', Ok acked) →
  ∃ mId uId,
    Message.mId msg = Some mId ∧ Message.author msg = Some uId ∧
    has s mId = Ok false ∧ has s' mId = Ok true ∧
    all s' = (log ← all s; Ok (log ++ [mId])) ∧
    size s' = (n ← size s; Ok (S n)) ∧
    get s' mId = Ok msg ∧ pre s' mId = Ok (Message.parents msg) ∧
    author s' mId = Ok (Some uId) ∧ unackby s' mId = Ok (Message.readers msg) ∧
    ∀ m, m ≠ mId →
         has s' m = has s m ∧ get s' m = get s m ∧ pre s' m = pre s m ∧
         author s' m = author s m.
Proof.
  intros Hwf%reachable_wf Hadd.
  destruct (add_cases s msg s' _ Hwf Hadd)
    as [(_ & e & ? & _)|(mId & uId & context & succ' & ub' & anc & acked0 & Hval & _
                         & Hs' & _ & _ & _ & _ & HmId & _)]; [done|].
  apply validate_Ok in Hval as (HmId' & Hauthor & _ & Hfresh & _).
  exists mId, uId. rewrite Hs'.
  unfold has, all, size, get, pre, author, unackby, safeGet. simpl.
  rewrite lookup_insert_eq, HmId, Hauthor. simpl.
  split_and!; try done.
  - by rewrite bool_decide_false.
  - rewrite bool_decide_true; [done|]. rewrite dom_insert_L. set_solver.
  - by rewrite Hauthor.
  - intros m Hne. rewrite lookup_insert_ne by done. split_and!; try done.
    f_equal. apply bool_decide_ext. rewrite dom_insert_L. set_solver.
Qed.

(** X2: [all()] lists every accepted message once, [size()] is its length
    and [has] tells its members. *)
Theorem all_lists_accepted_once s :
  reachable s →
  ∃ log,
    all s = Ok log ∧ NoDup log ∧ size s = Ok (length log) ∧
    ∀ m, has s m = Ok (bool_decide (m ∈ log)).
Proof.
  intros Hwf%reachable_wf. exists (_log s). split_and!.
  - done.
  - by apply wf_log_NoDup.
  - unfold size. by rewrite (wf_length s Hwf).
  - intros m. unfold has. f_equal. apply bool_decide_ext. by rewrite wf_log_dom.
Qed.

(** X3: [le] is antisymmetric: when [le(a, b)] answers [true] on two
    different messages, [le(b, a)] answers [false]. *)
Theorem le_antisymmetric s a b :
  reachable s → a ≠ b → le s a b = Ok true → le s b a = Ok false.
Proof.
  intros Hwf%reachable_wf Hne Hab.
  assert (a ∈ dom (_messages s) ∧ b ∈ dom (_messages s)) as [Ha Hb].
  { unfold le in Hab. simpl in Hab. rewrite decide_False in Hab by done.
    unfold author, safeGet in Hab.
    destruct (_messages s !! a) eqn:Ha; simpl in Hab; [|done].
    destruct (_messages s !! b) eqn:Hb; simpl in Hab; [|done].
    split; by eapply elem_of_dom_2. }
  destruct (le_total s b a Hwf Hb Ha) as [[] Hba]; [|done]. exfalso.
  apply (wf_has_index s a Hwf) in Ha as [i Hi].
  apply (wf_has_index s b Hwf) in Hb as [j Hj].
  pose proof (le_fuel_index s _ a b i j Hwf Hi Hj Hab).
  pose proof (le_fuel_index s _ b a j i Hwf Hj Hi Hba).
  assert (i = j) as -> by lia. by apply Hne, (wf_index_inj s a b j).
Qed.

(** X4: [le] is sound for the causal order: when [le(a, b)] answers [true],
    [a] is [b] or is reached from [b] along [pre]. *)
Theorem le_sound s a b :
  reachable s → le s a b = Ok true → ancestor s a b.
Proof.
  intros Hs. apply le_fuel_sound; [by apply reachable_wf|by apply reachable_coherent].
Qed.

(** X5: [unacked()] lists, in accept order, exactly the accepted messages
    that some reader has not acknowledged yet. *)
Theorem unacked_lists_pending s :
  reachable s →
  ∃ l,
    (unacked s).2 = Ok l ∧
    (∀ m, m ∈ l ↔ ∃ ub, unackby s m = Ok ub ∧ ub ≠ ∅) ∧
    StronglySorted (λ a b, ∃ x y, index s a = Some x ∧ index s b = Some y ∧ x < y) l.
Proof.
  intros Hs. pose proof (reachable_wf s Hs) as Hwf.
  pose proof (reachable_coherent s Hs) as Hco.
  destruct (unacked s) as [s' r] eqn:Hun.
  destruct (unacked_spec s s' r Hwf Hun) as [-> _].
  destruct (sortMIds_spec s (elements (_unacked s)) Hwf) as [Hperm Hsorted].
  { apply NoDup_elements. }
  { intros m Hm%elem_of_elements. apply (co_unacked s Hco) in Hm as (ub & Hub & _).
    rewrite <-(wf_unackby_dom s Hwf). by eapply elem_of_dom_2. }
  eexists. split_and!; [done| |done].
  intros m. rewrite Hperm, elem_of_elements, (co_unacked s Hco).
  unfold unackby, safeGet. split.
  - intros (ub & -> & ?). eauto.
  - intros (ub & Hub & ?). destruct (_unackby s !! m); [|done]. simplify_eq. eauto.
Qed.

(** X6: the readers a message waits for are readers of that message: the
    author is never among them. *)
Theorem unackby_within_readers s m msg ub :
  reachable s → get s m = Ok msg → unackby s m = Ok ub →
  ub ⊆ Message.readers msg ∧ (∀ u, Message.author msg = Some u → u ∉ ub).
Proof.
  intros Hs. pose proof (reachable_coherent s Hs) as Hco.
  unfold get, unackby, safeGet.
  destruct (_messages s !! m) as [msg'|] eqn:Hm; [|done].
  destruct (_unackby s !! m) as [ub'|] eqn:Hub; [|done].
  intros [= <-] [= <-].
  pose proof (co_unackby s Hco m msg' ub' Hm Hub) as Hsub. split; [done|].
  intros u Hu Hin. by apply (co_author_reader s Hco m msg' u Hm Hu), Hsub.
Qed.

Lemma authorMessages_None s u :
  wf s → _authorMessages s !! u = None → ∀ m, ¬ by_author s u m.
Proof.
  intros Hwf Hu m. unfold by_author.
  destruct (_messages s !! m) as [msgm|] eqn:Hm; simpl; [|done].
  destruct (wf_authored s Hwf m msgm Hm) as (u' & l & i & Hu' & Hl & _).
  rewrite Hu'. intros [= ->]. congruence.
Qed.

(** X7: [by(u)] is [all()] restricted to the messages of [u], in the same
    order, and is not empty; it throws when [u] wrote no accepted
    message. *)
Theorem by_is_accept_order_of_author s u :
  reachable s →
  match (by_ u s).2 with
  | Ok l => l ≠ [] ∧ ∃ log, all s = Ok log ∧ l = filter (by_author s u) log
  | Throw e => e = ReferenceError "invalid key" ∧ ∀ m, author s m ≠ Ok (Some u)
  | Diverge => False
  end.
Proof.
  intros Hs. pose proof (reachable_wf s Hs) as Hwf.
  pose proof (reachable_coherent s Hs) as Hco.
  destruct (by_ u s) as [s' r] eqn:Hby. simpl.
  destruct (_authorMessages s !! u) as [l|] eqn:Hl.
  - destruct (by_spec s u s' r Hwf Hby) as [[[-> _]|[_ ?]] _]; [|congruence].
    rewrite Hl. simpl. split.
    + intros ->. by apply (wf_author_nonempty s Hwf u).
    + exists (_log s). split; [done|]. by apply (co_by s Hco).
  - revert Hby. unfold by_. unfold_monad. cbn beta.
    destruct (_cacheBy s !! u) as [c|] eqn:Hc.
    { apply (wf_cacheBy s Hwf) in Hc. congruence. }
    unfold safeGet. rewrite Hl. intros [= <- <-]. split; [done|].
    intros m Hm%by_author_author. by eapply authorMessages_None.
Qed.

(** X8: [pre_uId(m)] is [null] on the first message of an author, and on
    any later one it is [m] itself, not the message the author wrote
    before it. *)
Theorem pre_uId_is_the_message_itself s u s' l i m :
  reachable s → by_ u s = (s', Ok l) → l !! i = Some m →
  pre_uId s m = Ok (if decide (i = 0) then Null else Val m).
Proof.
  intros Hwf%reachable_wf Hl%by_Ok Hi; [|done].
  destruct (wf_author_list s Hwf u l i m Hl Hi) as [(msg & Hm & Hu) Hidx].
  unfold pre_uId, author, safeGet. rewrite Hidx, Hm. simpl.
  destruct (decide (i = 0)); [done|]. rewrite Hu. simpl. rewrite Hl. simpl.
  by rewrite Hi.
Qed.

(** X9: [pre_ruId(m, r)] answers exactly when [r] is a reader of [m]; its
    answer is [null] or a message of [r] that is an ancestor of [m], and
    it throws a [ReferenceError] for any other [r]. *)
Theorem pre_ruId_of_reader s m msg r :
  reachable s → get s m = Ok msg →
  if decide (r ∈ Message.readers msg)
  then ∃ v, pre_ruId_of s m r = Ok v ∧
            ∀ p, v = Some p → author s p = Ok (Some r) ∧ p ≠ m ∧ ancestor s p m
  else pre_ruId_of s m r = Throw (ReferenceError "invalid key").
Proof.
  intros Hs. pose proof (reachable_wf s Hs) as Hwf.
  pose proof (reachable_coherent s Hs) as Hco.
  unfold get, safeGet. destruct (_messages s !! m) as [msg'|] eqn:Hm; [|done].
  intros [= <-].
  assert (is_Some (_context s !! m)) as [c Hc].
  { apply elem_of_dom. rewrite (wf_context_dom s Hwf). by eapply elem_of_dom_2. }
  pose proof (co_context_dom s Hco m msg' c Hm Hc) as Hdom.
  unfold pre_ruId_of, safeGet. rewrite Hc. simpl.
  destruct (decide (r ∈ Message.readers msg')) as [Hr|Hr].
  - rewrite <-Hdom in Hr. apply elem_of_dom in Hr as [v Hv]. rewrite Hv.
    exists v. split; [done|]. intros p ->.
    destruct (wf_context s Hwf m c r p Hc Hv) as ((msgp & Hp & Hup) & i & j & Hi & Hj & Hlt).
    split_and!.
    + unfold author, safeGet. by rewrite Hp, <-Hup.
    + intros ->. unfold index in *. simplify_eq. lia.
    + by eapply (co_context_anc s Hco).
  - rewrite <-Hdom in Hr. apply not_elem_of_dom in Hr. by rewrite Hr.
Qed.

(** X10: [allAuthors()] holds the authors of the accepted messages, and
    [min()] the accepted messages without parents. *)
Theorem authors_and_minimal_messages s :
  reachable s →
  ∃ authors minimal,
    allAuthors s = Ok authors ∧ min s = Ok minimal ∧
    (∀ u, u ∈ authors ↔ ∃ m, author s m = Ok (Some u)) ∧
    (∀ m, m ∈ minimal ↔ pre s m = Ok ∅).
Proof.
  intros Hco%reachable_coherent. exists (_uIds s), (_minMessages s).
  split_and!; [done..| |].
  - intros u. rewrite (co_uIds s Hco). by setoid_rewrite by_author_author.
  - intros m. rewrite (co_min s Hco). unfold pre, safeGet.
    destruct (_messages s !! m) as [msg|]; simpl.
    + split; [by intros (? & [= <-] & ->)|]. intros [= ?]. eauto.
    + split; [by intros (? & ? & _)|done].
Qed.

(** The successors after the loop over the parents of a new message. *)
Lemma add_successors_lookup mId l s :
  (∀ m, m ∈ l → m ∈ dom (_successors s)) →
  ∃ succ', forEach (add_successor mId) l s = (set_successors succ' s, Ok tt) ∧
           ∀ m, succ' !! m
                = (λ sucs, if decide (m ∈ l) then sucs ∪ {[mId]} else sucs)
                    <$> _successors s !! m.
Proof.
  revert s. induction l as [|x l IH]; intros s Hl; cbn [forEach].
  { exists (_successors s). split; [by destruct s|].
    intros m. by destruct (_successors s !! m). }
  assert (x ∈ dom (_successors s)) as [sucs Hsucs]%elem_of_dom by (apply Hl; left).
  unfold mbind, M_bind, bind. rewrite (add_successor_step mId x s sucs Hsucs).
  set (s1 := set_successors _ s).
  destruct (IH s1) as (succ' & -> & Hsucc').
  { intros m' Hm'. subst s1. simpl. rewrite dom_insert_L.
    apply elem_of_union_r, Hl. by right. }
  exists succ'. split; [done|]. intros m. rewrite Hsucc'. subst s1. simpl.
  destruct (decide (m = x)) as [->|Hne].
  - rewrite lookup_insert_eq, Hsucs. simpl. rewrite (decide_True (P := x ∈ x :: l)) by left.
    f_equal. destruct (decide (x ∈ l)); set_solver.
  - rewrite lookup_insert_ne by done. destruct (_successors s !! m); [|done]. simpl.
    f_equal. destruct (decide (m ∈ l)).
    + by rewrite decide_True by (by right).
    + rewrite decide_False; [done|]. by intros [?|?]%elem_of_cons.
Qed.

(** The successors after the writes of [add]. *)
Lemma commit_successors s msg mId uId context s' acked :
  wf s →
  mId ∉ dom (_messages s) → Message.parents msg ⊆ dom (_messages s) →
  uId ∉ Message.readers msg →
  commit msg mId uId (last_by s (Some uId)) context s = (s', Ok acked) →
  ∀ m, _successors s' !! m
       = if decide (m = mId) then Some ∅
         else (λ sucs, if decide (m ∈ Message.parents msg) then sucs ∪ {[mId]} else sucs)
                <$> _successors s !! m.
Proof.
  intros Hwf HmId Hpm Hreader.
  pose proof (wf_successors_dom s Hwf) as Hsd.
  pose proof (wf_unackby_dom s Hwf) as Hud.
  pose proof (last_by_lookup s uId Hwf) as Hlast.
  assert (∀ m msgm p, _messages s !! m = Some msgm → p ∈ Message.parents msgm →
                      p ∈ dom (_messages s)) as Hclosed.
  { intros m msgm p Hm Hp.
    destruct (wf_parents s Hwf m msgm p Hm Hp) as (i & _ & Hi & _).
    apply wf_has_index; eauto. }
  assert (∀ m, m ∈ dom (_messages s) → m ∈ _log s) as Hlog.
  { intros m [i Hi]%wf_has_index; [|done].
    apply (wf_index s Hwf) in Hi. by eapply list_elem_of_lookup_2. }
  clear Hwf.
  destruct s as [uIds messages minM maxM successors len mIndex log aMessages
                 aIndex contexts unackbys unackeds fubar cUnacked cBy].
  simpl in *. unfold commit. unfold_monad. simpl.
  destruct (bool_decide (base.size (Message.parents msg) = 0)) eqn:Hmin; simpl.
  all: match goal with |- context [forEach _ _ ?s1] =>
         destruct (add_successors_lookup mId (elements (Message.parents msg)) s1)
           as (succ1 & -> & Hsucc1);
           [intros m Hm%elem_of_elements; simpl; rewrite Hsd; by apply Hpm|]
       end; simpl in *.
  all: destruct (last_by _ _) as [| |q]; [|done|destruct Hlast as [l Hlast]].
  all: simpl; unfold get_defined at 1; rewrite ?lookup_insert_eq, ?Hlast.
  all: rewrite ?insert_insert_eq, !length_snoc_pred; simpl.
  all: intros Htail.
  all: apply (update_unacked_after_insert _ _ _ _ messages) in Htail
         as (ub' & anc & acked' & _ & -> & _); simpl in *; [|try done..].
  all: try (intros m [->%elem_of_singleton|Hm]%elem_of_union;
            [apply elem_of_app; right; left|apply elem_of_app; left; by apply Hlog]).
  all: intros m; destruct (decide (m = mId)) as [->|Hne];
         [by rewrite lookup_insert_eq|rewrite lookup_insert_ne by done].
  all: rewrite Hsucc1; destruct (successors !! m); [|done]; simpl; f_equal.
  all: destruct (decide (m ∈ Message.parents msg)) as [Hin|Hout].
  all: try (rewrite decide_True by (by apply elem_of_elements); done).
  all: rewrite decide_False; [done|]; by intros ?%elem_of_elements.
Qed.

Lemma add_successors_field s msg s' acked :
  wf s → add msg s = (s', Ok acked) →
  ∃ mId,
    Message.mId msg = Some mId ∧
    ∀ m, _successors s' !! m
         = if decide (m = mId) then Some ∅
           else (λ sucs, if decide (m ∈ Message.parents msg) then sucs ∪ {[mId]}
                         else sucs) <$> _successors s !! m.
Proof.
  intros Hwf. unfold add. unfold_monad. rewrite (wf_fubar s Hwf).
  destruct (validate s msg) as [[[[mId uId] pumId] context]| |] eqn:Hval; [|done..].
  apply validate_Ok in Hval
    as (HmId & Hauthor & Hself & Hfresh & Hreader & Hpm & -> & _).
  destruct (commit msg mId uId (last_by s (Some uId)) context s) as [s1 r1] eqn:Hc.
  destruct r1 as [acked1| |]; [|done..]. intros [= <- <-].
  exists mId. split; [done|]. by eapply commit_successors.
Qed.

Lemma linked_new : linked new.
Proof. split; [done|]. intros m. split; [set_solver|done]. Qed.

Lemma linked_set_cacheBy s cacheBy : linked s → linked (set_cacheBy cacheBy s).
Proof. destruct s. intros [H1 H2]. split; [exact H1|exact H2]. Qed.

Lemma linked_set_cacheUnacked s cache : linked s → linked (set_cacheUnacked cache s).
Proof. destruct s. intros [H1 H2]. split; [exact H1|exact H2]. Qed.

Lemma linked_add s msg s' r : wf s → linked s → add msg s = (s', r) → linked s'.
Proof.
  intros Hwf Hli Hadd.
  destruct (add_cases s msg s' r Hwf Hadd)
    as [[-> _]|(mId & uId & context & succ' & ub' & anc & acked & Hval & -> & Hs'
                & _)]; [done|].
  destruct (add_successors_field s msg s' _ Hwf Hadd) as (mId' & HmId' & Hsucc).
  apply validate_Ok in Hval as (HmId & _ & Hself & Hfresh & _ & Hpm & _).
  assert (mId' = mId) as -> by congruence.
  assert (_messages s' = <[mId := msg]> (_messages s)) as Hmsgs by (by rewrite Hs').
  assert (_maxMessages s' = (_maxMessages s ∪ {[mId]}) ∖ Message.parents msg) as Hmax
    by (by rewrite Hs').
  clear Hs' Hadd.
  assert (∀ p, ¬ parent_of s mId p) as Hnochild.
  { intros p (msgp & Hp & Hin).
    destruct (wf_parents s Hwf p msgp mId Hp Hin) as (i & _ & Hi & _).
    apply Hfresh, wf_has_index; eauto. }
  assert (∀ p m, parent_of s' p m ↔
                 (m = mId ∧ p ∈ Message.parents msg) ∨ (m ≠ mId ∧ parent_of s p m))
    as Hparent.
  { intros p m. unfold parent_of. rewrite Hmsgs.
    destruct (decide (m = mId)) as [->|Hne].
    - rewrite lookup_insert_eq. split.
      + intros (? & [= <-] & ?). by left.
      + intros [[_ ?]|[? _]]; [eauto|done].
    - rewrite lookup_insert_ne by done. split; [by right|]. by intros [[? _]|[_ ?]]. }
  split.
  - intros p m sucs'. rewrite Hsucc, Hparent.
    destruct (decide (p = mId)) as [->|Hp].
    { intros [= <-]. split; [set_solver|].
      intros [[_ ?]|[_ ?]]; [done|]. by apply Hnochild in H. }
    destruct (_successors s !! p) as [sucs|] eqn:Hsucs; [|done]. simpl.
    intros [= <-].
    assert (mId ∉ sucs) as Hnot.
    { intros (msgm & Hm & _)%(li_suc s Hli p mId sucs Hsucs).
      by apply Hfresh, elem_of_dom. }
    pose proof (li_suc s Hli p m sucs Hsucs) as Hold.
    destruct (decide (m = mId)) as [->|Hm].
    + destruct (decide (p ∈ Message.parents msg)).
      * split; [by left|set_solver].
      * split; [done|]. intros [[_ ?]|[? _]]; done.
    + rewrite <-Hold. destruct (decide (p ∈ Message.parents msg)).
      * split; [set_solver|]. intros [[? _]|[_ ?]]; [done|set_solver].
      * split; [by right|]. by intros [[? _]|[_ ?]].
  - intros m. rewrite Hmax, Hsucc.
    destruct (decide (m = mId)) as [->|Hm]; [set_solver|].
    pose proof (li_max s Hli m) as Hold.
    destruct (_successors s !! m) as [sucs|] eqn:Hsucs; simpl.
    + destruct (decide (m ∈ Message.parents msg)).
      * split; [set_solver|]. intros [= Hempty]. set_solver.
      * split.
        -- intros [[Hin|?%elem_of_singleton]%elem_of_union _]%elem_of_difference;
             [by apply Hold|done].
        -- intros Hs. apply Hold in Hs. set_solver.
    + split; [|done]. intros [[Hin|?%elem_of_singleton]%elem_of_union _]%elem_of_difference;
        [by apply Hold in Hin|done].
Qed.

Lemma reachable_linked s : reachable s → linked s.
Proof.
  induction 1 as [|s msg s' r Hs IH Hadd|s uId s' r Hs IH Hby|s s' r Hs IH Hun].
  - apply linked_new.
  - eapply linked_add; [by apply reachable_wf| |]; done.
  - destruct (by_spec s uId s' r (reachable_wf s Hs) Hby) as [_ (c & -> & _)].
    by apply linked_set_cacheBy.
  - destruct (unacked_spec s s' r (reachable_wf s Hs) Hun) as [_ ->].
    by apply linked_set_cacheUnacked.
Qed.

(** X11: [suc] is the inverse of [pre]: [m] is a successor of [p] exactly
    when [p] is a parent of [m]; and [max()] holds the accepted messages
    without successors. *)
Theorem suc_is_inverse_of_pre s :
  reachable s →
  (∀ p m, (∃ sucs, suc s p = Ok sucs ∧ m ∈ sucs) ↔
          (∃ parents, pre s m = Ok parents ∧ p ∈ parents)) ∧
  ∃ maximal, max s = Ok maximal ∧ ∀ m, m ∈ maximal ↔ suc s m = Ok ∅.
Proof.
  intros Hs. pose proof (reachable_wf s Hs) as Hwf.
  pose proof (reachable_linked s Hs) as Hli. split.
  - intros p m. unfold suc, pre, safeGet. split.
    + intros (sucs & Hsucs & Hm).
      destruct (_successors s !! p) as [sucs'|] eqn:Hp; [|done]. simplify_eq.
      apply (li_suc s Hli p m sucs Hp) in Hm as (msg & -> & Hin). simpl. eauto.
    + intros (parents & Hpre & Hp).
      destruct (_messages s !! m) as [msg|] eqn:Hm; [|done]. simpl in Hpre.
      simplify_eq.
      assert (is_Some (_successors s !! p)) as [sucs Hsucs].
      { apply elem_of_dom. rewrite (wf_successors_dom s Hwf).
        destruct (wf_parents s Hwf m msg p Hm Hp) as (i & _ & Hi & _).
        apply wf_has_index; eauto. }
      rewrite Hsucs. exists sucs. split; [done|].
      apply (li_suc s Hli p m sucs Hsucs). by exists msg.
  - exists (_maxMessages s). split; [done|]. intros m.
    rewrite (li_max s Hli). unfold suc, safeGet.
    destruct (_successors s !! m); split; congruence.
Qed.

Lemma le_any_elem (le : string → string → outcome bool) m0 l p :
  (∀ q, q ∈ l → ∃ b, le m0 q = Ok b) → p ∈ l → le m0 p = Ok true →
  le_any le m0 l = Ok true.
Proof.
  induction l as [|x l IH]; intros Htotal Hp Hle; [by apply elem_of_nil in Hp|].
  simpl. destruct (Htotal x) as [b Hb]; [left|]. rewrite Hb. simpl.
  destruct b; [done|].
  apply elem_of_cons in Hp as [->|Hp]; [congruence|].
  apply IH; [|done..]. intros q Hq. apply Htotal. by right.
Qed.

(** X12: a parent precedes its child: [le(p, m)] answers [true] for every
    parent [p] of an accepted message [m]. *)
Theorem le_parent s m parents p :
  reachable s → pre s m = Ok parents → p ∈ parents → le s p m = Ok true.
Proof.
  intros Hs. pose proof (reachable_wf s Hs) as Hwf.
  pose proof (reachable_coherent s Hs) as Hco.
  unfold pre, safeGet. destruct (_messages s !! m) as [msg|] eqn:Hm; [|done].
  simpl. intros [= <-] Hp.
  destruct (wf_parents s Hwf m msg p Hm Hp) as (i & j & Hi & Hj & Hij).
  assert (p ∈ dom (_messages s)) as Hpdom by (apply wf_has_index; eauto).
  pose proof Hpdom as [msgp Hmsgp]%elem_of_dom.
  destruct (wf_authored s Hwf p msgp Hmsgp) as (up & lp & x & Hup & Hlp & Hx & Hxp).
  destruct (wf_authored s Hwf m msg Hm) as (um & lm & y & Hum & Hlm & Hy & Hym).
  unfold le. cbn [le_fuel].
  rewrite decide_False by (intros ->; unfold index in *; simplify_eq; lia).
  unfold author, safeGet, get_defined. rewrite Hmsgp, Hm. simpl.
  destruct (decide (Message.author msgp = Message.author msg)) as [Heq|Hne].
  { rewrite Hx, Hy. simpl. f_equal. apply bool_decide_eq_true.
    assert (up = um) as -> by congruence. assert (lp = lm) as -> by congruence.
    destruct (decide (x ≤ y)) as [|Hgt]; [done|]. exfalso.
    assert (j ≤ i); [|lia].
    eapply (wf_author_order s Hwf um lm y x m p); eauto. lia. }
  rewrite Hup. simpl. case_bool_decide as Hreader.
  - assert (is_Some (_context s !! m)) as [c Hc].
    { apply elem_of_dom. rewrite (wf_context_dom s Hwf). by eapply elem_of_dom_2. }
    rewrite Hc. simpl.
    rewrite (co_context_parent s Hco m msg c p msgp up Hm Hc Hp Hmsgp Hup Hreader).
    rewrite Hx. simpl. by rewrite bool_decide_true.
  - unfold index in Hi, Hj. rewrite Hi, Hj. simpl.
    rewrite bool_decide_false by lia.
    unfold pre, safeGet. rewrite Hm. simpl.
    assert (0 < _length s) as Hlen.
    { apply (wf_index_lt s m j Hwf) in Hj. lia. }
    apply (le_any_elem _ p _ p).
    + intros q Hq%elem_of_elements.
      destruct (wf_parents s Hwf m msg q Hm Hq) as (k & j' & Hk & Hj' & Hlt).
      apply (le_fuel_total s _ p q k); [done..|].
      apply (wf_index_lt s m j Hwf) in Hj as Hjlt. unfold index in *.
      simplify_eq. lia.
    + by apply elem_of_elements.
    + destruct (_length s); [lia|]. simpl. by rewrite decide_True.
Qed.

End TranscriptInvariants.

(** *** On the toy conversation *)

Lemma toy_reachable_s4 : reachable (merger := Toy.merger) Toy.s4.1.
Proof. exact (reachable_add _ _ _ _ toy_reachable_s3 (surjective_pairing Toy.s4)). Qed.

Lemma add_appends_witness :
  ∃ mId uId,
    Message.mId (Toy.message "m4" "C" ["m3"] ["A"; "B"]) = Some mId ∧
    Message.author (Toy.message "m4" "C" ["m3"] ["A"; "B"]) = Some uId ∧
    has Toy.s3.1 mId = Ok false ∧ has Toy.s4.1 mId = Ok true ∧
    all Toy.s4.1 = (log ← all Toy.s3.1; Ok (log ++ [mId])) ∧
    size Toy.s4.1 = (n ← size Toy.s3.1; Ok (S n)) ∧
    get Toy.s4.1 mId = Ok (Toy.message "m4" "C" ["m3"] ["A"; "B"]) ∧
    pre Toy.s4.1 mId = Ok (Message.parents (Toy.message "m4" "C" ["m3"] ["A"; "B"])) ∧
    author Toy.s4.1 mId = Ok (Some uId) ∧
    unackby Toy.s4.1 mId
    = Ok (Message.readers (Toy.message "m4" "C" ["m3"] ["A"; "B"])) ∧
    ∀ m, m ≠ mId →
         has Toy.s4.1 m = has Toy.s3.1 m ∧ get Toy.s4.1 m = get Toy.s3.1 m ∧
         pre Toy.s4.1 m = pre Toy.s3.1 m ∧ author Toy.s4.1 m = author Toy.s3.1 m.
Proof.
  apply (add_appends (merger := Toy.merger) Toy.s3.1 _ Toy.s4.1 ["m1"; "m2"]).
  - apply toy_reachable_s3.
  - vm_compute. reflexivity.
Defined.

Lemma all_lists_accepted_once_witness :
  ∃ log,
    all Toy.s4.1 = Ok log ∧ NoDup log ∧ size Toy.s4.1 = Ok (length log) ∧
    ∀ m, has Toy.s4.1 m = Ok (bool_decide (m ∈ log)).
Proof.
  apply (all_lists_accepted_once (merger := Toy.merger)). apply toy_reachable_s4.
Defined.

Lemma le_antisymmetric_witness : le Toy.s4.1 "m4" "m1" = Ok false.
Proof.
  apply (le_antisymmetric (merger := Toy.merger) Toy.s4.1 "m1" "m4").
  - apply toy_reachable_s4.
  - done.
  - vm_compute. reflexivity.
Defined.

Lemma le_sound_witness : ancestor Toy.s4.1 "m1" "m4".
Proof.
  apply (le_sound (merger := Toy.merger)).
  - apply toy_reachable_s4.
  - vm_compute. reflexivity.
Defined.

Lemma unacked_lists_pending_witness :
  ∃ l,
    (unacked Toy.s4.1).2 = Ok l ∧
    (∀ m, m ∈ l ↔ ∃ ub, unackby Toy.s4.1 m = Ok ub ∧ ub ≠ ∅) ∧
    StronglySorted
      (λ a b, ∃ x y, index Toy.s4.1 a = Some x ∧ index Toy.s4.1 b = Some y ∧ x < y) l.
Proof.
  apply (unacked_lists_pending (merger := Toy.merger)). apply toy_reachable_s4.
Defined.

Lemma unackby_within_readers_witness :
  ({["A"]} : gset string) ⊆ Message.readers (Toy.message "m3" "B" ["m2"] ["A"; "C"]) ∧
  (∀ u, Message.author (Toy.message "m3" "B" ["m2"] ["A"; "C"]) = Some u →
        u ∉ ({["A"]} : gset string)).
Proof.
  apply (unackby_within_readers (merger := Toy.merger) Toy.s4.1 "m3").
  - apply toy_reachable_s4.
  - vm_compute. reflexivity.
  - vm_compute. reflexivity.
Defined.

Lemma by_is_accept_order_of_author_witness :
  match (by_ "A" Toy.s4.1).2 with
  | Ok l => l ≠ [] ∧ ∃ log, all Toy.s4.1 = Ok log ∧ l = filter (by_author Toy.s4.1 "A") log
  | Throw e =>
      e = ReferenceError "invalid key" ∧ ∀ m, author Toy.s4.1 m ≠ Ok (Some "A")
  | Diverge => False
  end.
Proof.
  apply (by_is_accept_order_of_author (merger := Toy.merger)). apply toy_reachable_s4.
Defined.

Lemma pre_uId_is_the_message_itself_witness :
  pre_uId Toy.s2.1 "m2" = Ok (if decide (1 = 0) then Null else Val "m2").
Proof.
  apply (pre_uId_is_the_message_itself (merger := Toy.merger) Toy.s2.1 "A"
           (by_ "A" Toy.s2.1).1 ["m1"; "m2"]).
  - apply toy_reachable_s2.
  - vm_compute. reflexivity.
  - reflexivity.
Defined.

Lemma pre_ruId_of_reader_witness :
  if decide ("A" ∈ Message.readers (Toy.message "m4" "C" ["m3"] ["A"; "B"]))
  then ∃ v, pre_ruId_of Toy.s4.1 "m4" "A" = Ok v ∧
            ∀ p, v = Some p →
                 author Toy.s4.1 p = Ok (Some "A") ∧ p ≠ "m4" ∧ ancestor Toy.s4.1 p "m4"
  else pre_ruId_of Toy.s4.1 "m4" "A" = Throw (ReferenceError "invalid key").
Proof.
  apply (pre_ruId_of_reader (merger := Toy.merger)).
  - apply toy_reachable_s4.
  - vm_compute. reflexivity.
Defined.

Lemma authors_and_minimal_messages_witness :
  ∃ authors minimal,
    allAuthors Toy.s4.1 = Ok authors ∧ min Toy.s4.1 = Ok minimal ∧
    (∀ u, u ∈ authors ↔ ∃ m, author Toy.s4.1 m = Ok (Some u)) ∧
    (∀ m, m ∈ minimal ↔ pre Toy.s4.1 m = Ok ∅).
Proof.
  apply (authors_and_minimal_messages (merger := Toy.merger)). apply toy_reachable_s4.
Defined.

Lemma suc_is_inverse_of_pre_witness :
  (∀ p m, (∃ sucs, suc Toy.s4.1 p = Ok sucs ∧ m ∈ sucs) ↔
          (∃ parents, pre Toy.s4.1 m = Ok parents ∧ p ∈ parents)) ∧
  ∃ maximal, max Toy.s4.1 = Ok maximal ∧ ∀ m, m ∈ maximal ↔ suc Toy.s4.1 m = Ok ∅.
Proof.
  apply (suc_is_inverse_of_pre (merger := Toy.merger)). apply toy_reachable_s4.
Defined.

Lemma le_parent_witness : le Toy.s4.1 "m3" "m4" = Ok true.
Proof.
  apply (le_parent (merger := Toy.merger) Toy.s4.1 "m4" {["m3"]} "m3").
  - apply toy_reachable_s4.
  - vm_compute. reflexivity.
  - by apply elem_of_singleton.
Defined.

(** ** The message log *)

Section MessageLogProperties.
Import DefaultMessageLog.
Context {T : Type} `{Countable T} {transcripts : Transcripts T}.

Lemma forallb_has (s : @DefaultMessageLog.t T _ _) (X : gset string) :
  forallb (has s) (elements X) = true ↔ X ⊆ dom (_messageIndex s).
Proof.
  rewrite forallb_forall. unfold has. split.
  - intros Hall p Hp. eapply bool_decide_eq_true_1, Hall.
    apply list_elem_of_In. by apply elem_of_elements.
  - intros Hsub p Hp%list_elem_of_In%elem_of_elements.
    apply bool_decide_eq_true_2. by apply Hsub.
Qed.

(** C9 (amended): [getSubscriberFor] throws, and writes nothing, when the
    parents map has more than one entry. Without a parent it returns a
    subscriber and records the transcript with no parents. With one parent
    transcript: it throws an assertion error when that transcript was not
    subscribed to the log before; otherwise it resolves the parent ids,
    taking the parents recorded for the parent transcript when none
    resolve, throws an assertion error when one of them is not in the log,
    and else returns a subscriber and records the transcript with them. An
    error of [resolveEarlier] is passed on. Nothing is written when it
    throws. *)
Theorem getSubscriberFor_cases (transcript : T)
    (parents : option (list (gset string * T))) (s : t) :
  match parents with
  | Some (_ :: _ :: _) =>
      getSubscriberFor transcript parents s
      = (s, Throw (Error "DefaultMessageLog does not support transcripts with > 1 parent"))
  | None | Some [] =>
      getSubscriberFor transcript parents s
      = (subscribed transcript ∅ s, Ok (Subscriber transcript))
  | Some [(mIds, tscr)] =>
      match _transcriptParents s !! tscr with
      | None =>
          getSubscriberFor transcript parents s
          = (s, Throw (AssertionError "invalid transcript"))
      | Some trParents =>
          match resolveEarlier tscr mIds with
          | Ok resolved =>
              let payloadParents := if decide (resolved = ∅) then trParents
                                    else resolved in
              if decide (payloadParents ⊆ dom (_messageIndex s)) then
                getSubscriberFor transcript parents s
                = (subscribed transcript payloadParents s, Ok (Subscriber transcript))
              else
                getSubscriberFor transcript parents s
                = (s, Throw (AssertionError
                     "resolved parents not all added to the log yet; this must be done first"))
          | Throw e => getSubscriberFor transcript parents s = (s, Throw e)
          | Diverge => getSubscriberFor transcript parents s = (s, Diverge)
          end
      end
  end.
Proof.
  destruct parents as [[|[mIds tscr] [|? ?]]|]; [done| |done|done].
  unfold getSubscriberFor, _resolveEarlier, assert_read. simpl.
  unfold mbind, M_bind, bind, lift. simpl.
  destruct (_transcriptParents s !! tscr) as [trParents|] eqn:Htscr.
  2:{ rewrite bool_decide_false; [done|]. by apply not_elem_of_dom. }
  rewrite bool_decide_true by (by eapply elem_of_dom_2). simpl.
  destruct (resolveEarlier tscr mIds) as [resolved| |]; simpl; [|done..].
  assert ((if bool_decide (base.size resolved = 0)
           then Ok trParents else Ok resolved)
          = Ok (if decide (resolved = ∅) then trParents else resolved)) as ->.
  { destruct (decide (resolved = ∅)) as [->|Hne].
    - by rewrite bool_decide_true by apply size_empty.
    - rewrite bool_decide_false; [done|]. by intros ?%size_empty_inv%leibniz_equiv. }
  simpl. set (payloadParents := if decide (resolved = ∅) then trParents else resolved).
  destruct (decide (payloadParents ⊆ dom (_messageIndex s))) as [Hsub|Hsub].
  - apply forallb_has in Hsub. by rewrite Hsub.
  - destruct (forallb (has s) (elements payloadParents)) eqn:Hall; [|done].
    by apply forallb_has in Hall.
Qed.

End MessageLogProperties.

(** C9, as stated: a call with one parent transcript, a transcript the log
    was not subscribed to, throws. *)
Lemma getSubscriberFor_one_parent_throws :
  DefaultMessageLog.getSubscriberFor (transcripts := DefaultMessageLog.Toy.transcripts)
    1 (Some [(∅, 0)]) DefaultMessageLog.new
  = (DefaultMessageLog.new, Throw (AssertionError "invalid transcript")).
Proof. reflexivity. Qed.

(** ** More on the message log *)

Section MessageLogInvariants.
Import DefaultMessageLog.
Context {T : Type} `{Countable T} {transcripts : Transcripts T}.

Local Abbreviation t := (@DefaultMessageLog.t T _ _).
Local Abbreviation new := (@DefaultMessageLog.new T _ _).

Implicit Types (s : t) (transcript tscr : T).

Ltac unfold_log :=
  unfold mbind, M_bind, bind, gets, modify, ret, throw, lift, _assert in *.

Lemma log_resolveEarlier_Ok s tscr mIds resolved :
  _resolveEarlier s tscr mIds = Ok resolved →
  tscr ∈ dom (_transcriptParents s) ∧ ∀ p, p ∈ resolved → has s p = true.
Proof.
  unfold _resolveEarlier, assert_read.
  case_bool_decide as Htscr; simpl; [|done].
  destruct (resolveEarlier tscr mIds) as [r0| |]; simpl; [|done..].
  destruct (if bool_decide (base.size r0 = 0) then _ else _) as [r1| |]; simpl; [|done..].
  destruct (forallb _ _) eqn:Hall; simpl; [|done].
  intros [= <-]. split; [done|]. intros p Hp%elem_of_elements.
  rewrite forallb_forall in Hall. apply Hall. by apply list_elem_of_In.
Qed.

(** [getSubscriberFor] and the subscribers write nothing when they throw. *)
Lemma getSubscriberFor_throw transcript parents s s' e :
  getSubscriberFor transcript parents s = (s', Throw e) → s' = s.
Proof.
  unfold getSubscriberFor. case_bool_decide; [by intros [= <-]|].
  destruct parents as [[|[mIds tscr] rest]|]; unfold_log; simpl; [done| |done].
  destruct (_resolveEarlier s tscr _) as [resolved| |]; simpl; [done| |done].
  by intros [= <-].
Qed.

Lemma log_add_spec transcript mId ps s s' r :
  _add transcript mId ps s = (s', r) →
  match r with
  | Ok _ =>
      has s mId = false ∧
      ((shouldIgnore transcript mId = Ok true ∧ s' = s) ∨
       (shouldIgnore transcript mId = Ok false ∧
        s' = appended s transcript mId (stored_parents s transcript ps)))
  | _ => s' = s
  end.
Proof.
  unfold _add, stored_parents. unfold_log. cbn beta.
  destruct (has s mId) eqn:Hhas; [by intros [= <- <-]|].
  destruct (shouldIgnore transcript mId) as [[]| |] eqn:Hignore; simpl;
    [intros [= <- <-]; eauto| |by intros [= <- <-]..].
  case_bool_decide as Hps; simpl.
  - destruct (_transcriptParents s !! transcript) as [trParents|]; simpl.
    + case_bool_decide as Htr; simpl.
      * intros [= <- <-]. split; [done|]. by right.
      * destruct (forallb (has s) (elements trParents)); simpl.
        -- intros [= <- <-]. split; [done|]. by right.
        -- by intros [= <- <-].
    + intros [= <- <-]. split; [done|]. by right.
  - intros [= <- <-]. split; [done|]. by right.
Qed.

(** A call of a subscriber appends the message, or leaves the log as it
    is. *)
Lemma log_call_spec f mId s s' r :
  call f mId s = (s', r) →
  match r with
  | Ok _ =>
      s' = s ∨
      ∃ transcript ps,
        f = Subscriber transcript ∧ has s mId = false ∧
        s' = appended s transcript mId (stored_parents s transcript ps)
  | _ => s' = s
  end.
Proof.
  destruct f as [transcript]. unfold call. unfold_log. cbn beta.
  destruct (transcript_has transcript mId) as [[]| |]; simpl; [|by intros [= <- <-]..].
  destruct (shouldIgnore transcript mId) as [[]| |]; simpl;
    [intros [= <- <-]; by left| |by intros [= <- <-]..].
  destruct (transcript_pre transcript mId) as [pre| |]; simpl; [|by intros [= <- <-]..].
  destruct (resolveEarlier transcript pre) as [ps| |]; simpl; [|by intros [= <- <-]..].
  intros Hadd. apply log_add_spec in Hadd.
  destruct r; [|done..]. destruct Hadd as [Hhas [[_ ->]|[_ ->]]]; [by left|].
  right. eauto.
Qed.

Lemma log_wf_new : wf new.
Proof. split; [|done..]. intros m i. simpl. by rewrite lookup_empty, lookup_nil. Qed.

Lemma log_wf_appended s transcript mId ps :
  wf s → has s mId = false → wf (appended s transcript mId ps).
Proof.
  intros [Hidx Hpar Htp] Hhas. unfold has in Hhas.
  apply bool_decide_eq_false in Hhas. split; simpl.
  - intros m i. destruct (decide (m = mId)) as [->|Hne].
    + rewrite lookup_insert_eq. split.
      * intros [= <-]. by rewrite lookup_app_r, Nat.sub_diag by lia.
      * intros Hi. f_equal. destruct (decide (i < length (items s))) as [Hlt|Hge].
        -- rewrite lookup_app_l in Hi by done. apply Hidx in Hi.
           exfalso. apply Hhas. by eapply elem_of_dom_2.
        -- apply lookup_lt_Some in Hi. rewrite length_app in Hi. simpl in Hi. lia.
    + rewrite lookup_insert_ne by done. rewrite Hidx. split.
      * intros Hi. by apply lookup_app_l_Some.
      * intros Hi. destruct (decide (i < length (items s))) as [Hlt|Hge].
        -- by rewrite lookup_app_l in Hi.
        -- rewrite lookup_app_r in Hi by lia.
           destruct (i - length (items s)) as [|[|]]; by simplify_eq/=.
  - rewrite !length_app. simpl. lia.
  - intros tscr ps' p Hps Hp. unfold has. simpl. apply bool_decide_eq_true.
    rewrite dom_insert_L. apply elem_of_union_r.
    specialize (Htp tscr ps' p Hps Hp). unfold has in Htp.
    by apply bool_decide_eq_true in Htp.
Qed.

Lemma log_wf_subscribed s transcript ps :
  wf s → (∀ p, p ∈ ps → has s p = true) → wf (subscribed transcript ps s).
Proof.
  intros [Hidx Hpar Htp] Hps. split; simpl; [done..|].
  intros tscr ps' p. rewrite lookup_insert. case_decide.
  - intros [= <-]. apply Hps.
  - apply Htp.
Qed.

Lemma log_reachable_wf s : reachable s → wf s.
Proof.
  induction 1 as [|s transcript parents s' r _ IH Hsub|s f mId s' r _ IH Hcall].
  - apply log_wf_new.
  - destruct r as [f|e|].
    + revert Hsub. unfold getSubscriberFor. case_bool_decide; [done|].
      destruct parents as [[|[mIds tscr] rest]|]; unfold_log; simpl.
      * intros [= <- _]. apply (log_wf_subscribed s transcript ∅ IH). set_solver.
      * destruct (_resolveEarlier s tscr mIds) as [resolved| |] eqn:Hres; simpl;
          [|done..].
        intros [= <- _]. apply (log_wf_subscribed s transcript resolved IH).
        by apply log_resolveEarlier_Ok in Hres as [_ ?].
      * intros [= <- _]. apply (log_wf_subscribed s transcript ∅ IH). set_solver.
    + by apply getSubscriberFor_throw in Hsub as ->.
    + revert Hsub. unfold getSubscriberFor. case_bool_decide; [done|].
      destruct parents as [[|[mIds tscr] rest]|]; unfold_log; simpl; [done| |done].
      destruct (_resolveEarlier s tscr mIds); simpl; [done..|]. by intros [= <-].
  - apply log_call_spec in Hcall. destruct r; [|by subst..].
    destruct Hcall as [->|(transcript & ps & _ & Hhas & ->)]; [done|].
    by apply log_wf_appended.
Qed.

(** X13: [at] and [indexOf] are inverse to each other on the messages of
    the log, [indexOf] is [-1] exactly on the others, and [parents] answers
    on every message of the log. *)
Theorem log_index_round_trip s :
  reachable s →
  (∀ m i, (0 ≤ i)%Z → at_ s i = Some m ↔ indexOf s m = i) ∧
  (∀ m, has s m = false ↔ indexOf s m = (-1)%Z) ∧
  (∀ m, has s m = true → ∃ ps, parents s m = Ok (Some ps)).
Proof.
  intros [Hidx Hpar _]%log_reachable_wf. split_and!.
  - intros m i Hi. unfold at_, indexOf.
    rewrite (bool_decide_false (i < 0)%Z) by lia.
    rewrite (bool_decide_false (i < 0)%Z) by lia.
    rewrite <-Hidx. split.
    + intros ->. lia.
    + destruct (_messageIndex s !! m) as [j|]; [|lia]. intros <-. f_equal. lia.
  - intros m. unfold has, indexOf. rewrite bool_decide_eq_false, not_elem_of_dom.
    destruct (_messageIndex s !! m); split; (done || lia).
  - intros m Hm. unfold has in Hm. apply bool_decide_eq_true in Hm.
    apply elem_of_dom in Hm as [i Hi]. unfold parents, BaseTranscript.safeGet.
    rewrite Hi. simpl.
    assert (is_Some (_parents s !! i)) as [ps ->]; [|eauto].
    apply lookup_lt_is_Some. rewrite Hpar. apply Hidx in Hi. by eapply lookup_lt_Some.
Qed.

(** X14: the subscriber of a transcript, called on a message of that
    transcript that is not ignored: it throws when the message is in the log
    already; otherwise it appends the message, which becomes the last one,
    stores its parents (those of the transcript when it has none) and keeps
    the index and the parents of the messages that were there. *)
Theorem subscriber_appends s transcript mId pre ps :
  reachable s →
  transcript_has transcript mId = Ok true → shouldIgnore transcript mId = Ok false →
  transcript_pre transcript mId = Ok pre → resolveEarlier transcript pre = Ok ps →
  if has s mId
  then call (Subscriber transcript) mId s = (s, Throw (Error "already added"))
  else ∃ s',
    call (Subscriber transcript) mId s = (s', Ok tt) ∧
    items s' = items s ++ [mId] ∧
    indexOf s' mId = Z.of_nat (length (items s)) ∧ at_ s' (-1) = Some mId ∧
    parents s' mId = Ok (Some (stored_parents s transcript ps)) ∧
    ∀ m, has s m = true → indexOf s' m = indexOf s m ∧ parents s' m = parents s m.
Proof.
  intros Hwf%log_reachable_wf Hhas Hignore Hpre Hres.
  unfold call. unfold_log. cbn beta. rewrite Hhas. simpl. rewrite Hignore. simpl.
  rewrite Hpre. simpl. rewrite Hres. simpl.
  unfold _add. unfold_log. cbn beta.
  destruct (has s mId) eqn:Hknown; [done|]. rewrite Hignore. simpl.
  exists (appended s transcript mId (stored_parents s transcript ps)). split.
  { unfold stored_parents. case_bool_decide; simpl; [|done].
    destruct (_transcriptParents s !! transcript) as [trParents|] eqn:Htr; simpl;
      [|done].
    case_bool_decide; simpl; [done|].
    assert (forallb (has s) (elements trParents) = true) as ->; [|done].
    apply forallb_forall. intros p Hp%list_elem_of_In%elem_of_elements.
    by apply (lwf_transcriptParents s Hwf transcript trParents). }
  destruct Hwf as [Hidx Hpar _]. split_and!.
  - done.
  - unfold indexOf. simpl. by rewrite lookup_insert_eq.
  - unfold at_. simpl. rewrite length_app. simpl.
    rewrite bool_decide_false by lia.
    replace (Z.to_nat _) with (length (items s)) by lia.
    by rewrite lookup_app_r, Nat.sub_diag by lia.
  - unfold parents, BaseTranscript.safeGet. simpl. rewrite lookup_insert_eq. simpl.
    by rewrite lookup_app_r, Hpar, Nat.sub_diag by lia.
  - intros m Hm. unfold has in Hm, Hknown.
    apply bool_decide_eq_true in Hm. apply bool_decide_eq_false in Hknown.
    assert (m ≠ mId) as Hne by (by intros ->).
    unfold indexOf, parents, BaseTranscript.safeGet. simpl.
    rewrite lookup_insert_ne by done. split; [done|].
    apply elem_of_dom in Hm as [i Hi]. rewrite Hi. simpl. f_equal.
    apply lookup_app_l. rewrite Hpar. apply Hidx in Hi. by eapply lookup_lt_Some.
Qed.

(** X15: a subscriber that throws, and [getSubscriberFor] when it throws,
    leave the log as it was; so does a subscriber called on a message that
    is to be ignored. *)
Theorem log_writes_are_atomic s f transcript parents mId :
  (is_throw (call f mId s).2 → (call f mId s).1 = s) ∧
  (is_throw (getSubscriberFor transcript parents s).2 →
   (getSubscriberFor transcript parents s).1 = s) ∧
  (transcript_has transcript mId = Ok true → shouldIgnore transcript mId = Ok true →
   call (Subscriber transcript) mId s = (s, Ok tt)).
Proof.
  split_and!.
  - destruct (call f mId s) as [s' r] eqn:Hcall. apply log_call_spec in Hcall.
    by destruct r.
  - destruct (getSubscriberFor transcript parents s) as [s' r] eqn:Hsub.
    destruct r as [|e|]; [done| |done]. intros _. by eapply getSubscriberFor_throw.
  - intros Hhas Hignore. unfold call. unfold_log. cbn beta.
    rewrite Hhas. simpl. by rewrite Hignore.
Qed.

End MessageLogInvariants.

(** *** On the toy log *)

Lemma toy_reachable_log2 :
  DefaultMessageLog.reachable (transcripts := DefaultMessageLog.Toy.transcripts)
    DefaultMessageLog.Toy.log2.
Proof.
  eapply DefaultMessageLog.reachable_call; [|apply surjective_pairing].
  eapply DefaultMessageLog.reachable_subscribe; [|apply surjective_pairing].
  apply DefaultMessageLog.reachable_new.
Qed.

Lemma log_index_round_trip_witness :
  (∀ m i, (0 ≤ i)%Z →
          DefaultMessageLog.at_ DefaultMessageLog.Toy.log2 i = Some m ↔
          DefaultMessageLog.indexOf DefaultMessageLog.Toy.log2 m = i) ∧
  (∀ m, DefaultMessageLog.has DefaultMessageLog.Toy.log2 m = false ↔
        DefaultMessageLog.indexOf DefaultMessageLog.Toy.log2 m = (-1)%Z) ∧
  (∀ m, DefaultMessageLog.has DefaultMessageLog.Toy.log2 m = true →
        ∃ ps, DefaultMessageLog.parents DefaultMessageLog.Toy.log2 m = Ok (Some ps)).
Proof.
  apply (log_index_round_trip (transcripts := DefaultMessageLog.Toy.transcripts)).
  apply toy_reachable_log2.
Defined.

Lemma subscriber_appends_witness :
  ∃ s',
    DefaultMessageLog.call (DefaultMessageLog.Subscriber 0) "m2"
      DefaultMessageLog.Toy.log2 = (s', Ok tt) ∧
    DefaultMessageLog.items s' = ["m1"; "m2"] ∧
    DefaultMessageLog.indexOf s' "m2" = 1%Z ∧
    DefaultMessageLog.at_ s' (-1) = Some "m2".
Proof.
  pose proof (subscriber_appends (transcripts := DefaultMessageLog.Toy.transcripts)
                DefaultMessageLog.Toy.log2 0 "m2" ∅ ∅
                toy_reachable_log2 eq_refl eq_refl eq_refl eq_refl) as Happ.
  change (DefaultMessageLog.has DefaultMessageLog.Toy.log2 "m2") with false in Happ.
  destruct Happ as (s' & Hcall & Hitems & Hidx & Hat & _).
  exists s'. split_and!; [exact Hcall|exact Hitems|exact Hidx|exact Hat].
Defined.
